(** * The compile driver and the execution driver of the module loader

    A shallow embedding of [compile], [isDescendant], [tryCompile], [tryRun],
    [useAsync] and [useSourceMap] (the file under src/unnamed/part_000), in a
    state-and-exception monad over an explicit JavaScript heap.

    Objects that the source shares by reference (entries, compile data,
    packages, host modules, runtime objects, generators) live in finite maps
    keyed by a reference; the collaborators whose code is elsewhere (the
    caching compiler, the runtime bridge, the host's [_compile], the entry's
    hooks, the error formatters) are the fields of a [Host] record and may
    change the heap in any way.

    The visitor that rewrites the calls on globals (the file under
    src/unnamed/part_001) is embedded in [Globals], with the traversal of
    its base class as a parameter. *)

From stdpp Require Import base gmap strings list fin_maps.
From Stdlib Require Import ZArith Ascii String.

Set Warnings "-clear-no-such-hyp".
Set Warnings "-register-all".

Local Open Scope Z_scope.
Local Open Scope string_scope.

(** ** Constants of the source *)

(** [ENTRY.STATE_*]. *)
Inductive State :=
| STATE_INITIAL
| STATE_PARSING_STARTED
| STATE_PARSING_COMPLETED
| STATE_EXECUTION_STARTED
| STATE_EXECUTION_COMPLETED.

(** [ENTRY.TYPE_*]. The source names two of the values; [TYPE_OTHER] stands
    for every other value the field may hold, so that [=== TYPE_CJS] and
    [!== TYPE_ESM] stay different tests. *)
Inductive EntryType := TYPE_CJS | TYPE_ESM | TYPE_OTHER.

(** [COMPILER.SOURCE_TYPE_*]. *)
Inductive SourceType :=
| SOURCE_TYPE_MODULE
| SOURCE_TYPE_SCRIPT
| SOURCE_TYPE_UNAMBIGUOUS.

(** [PACKAGE.MODE_*]; [MODE_OTHER] is any mode the source does not name. *)
Inductive Mode := MODE_ALL | MODE_AUTO | MODE_OTHER.

#[global] Instance State_eq_dec : EqDecision State.
Proof. solve_decision. Defined.
#[global] Instance EntryType_eq_dec : EqDecision EntryType.
Proof. solve_decision. Defined.
#[global] Instance SourceType_eq_dec : EqDecision SourceType.
Proof. solve_decision. Defined.
#[global] Instance Mode_eq_dec : EqDecision Mode.
Proof. solve_decision. Defined.

(** ** References and values *)

Definition eref := nat.   (* an Entry object *)
Definition cdref := nat.  (* a CompileData object *)
Definition pref := nat.   (* a Package object *)
Definition mref := nat.   (* a host Module object *)
Definition oref := nat.   (* a plain object, used as runtime or exports *)
Definition gref := nat.   (* a generator object *)

Inductive Value :=
| VUndefined
| VNull
| VBool (b : bool)
| VNum (z : Z)
| VStr (s : string)
| VObj (o : oref).

(** JavaScript's ToBoolean on the values above. *)
Definition truthy (v : Value) : bool :=
  match v with
  | VUndefined | VNull => false
  | VBool b => b
  | VNum z => negb (Z.eqb z 0)
  | VStr s => negb (String.eqb s "")
  | VObj _ => true
  end.

Record Loc := { loc_line : Z; loc_column : Z }.

(** An error object: the properties the drivers read or write. *)
Module Err.
Record t := mk {
  name : string;
  message : string;
  line : option Z;
  column : option Z;
  inModule : option bool;
  masked : bool
}.
Definition set_position (l c : Z) (m : bool) (e : t) : t :=
  mk (name e) (message e) (Some l) (Some c) (Some m) (masked e).
End Err.

(** What the engine throws when a property of [null] or [undefined] is read. *)
Definition TypeError (what : string) : Err.t :=
  Err.mk "TypeError" what None None None false.

(** ** Heap objects *)

Module CompileData.
Record t := mk {
  code : option string;
  sourceType : SourceType;
  transforms : Z;
  scriptData : option nat;
  codeWithTDZ : option string;
  circular : Z;
  firstAwaitOutsideFunction : option Loc
}.
Definition set_code (x : option string) (d : t) : t :=
  mk x (sourceType d) (transforms d) (scriptData d) (codeWithTDZ d)
     (circular d) (firstAwaitOutsideFunction d).
Definition set_transforms (x : Z) (d : t) : t :=
  mk (code d) (sourceType d) x (scriptData d) (codeWithTDZ d)
     (circular d) (firstAwaitOutsideFunction d).
Definition set_scriptData (x : option nat) (d : t) : t :=
  mk (code d) (sourceType d) (transforms d) x (codeWithTDZ d)
     (circular d) (firstAwaitOutsideFunction d).
Definition set_circular (x : Z) (d : t) : t :=
  mk (code d) (sourceType d) (transforms d) (scriptData d) (codeWithTDZ d)
     x (firstAwaitOutsideFunction d).
Definition blank : t := mk None SOURCE_TYPE_SCRIPT 0 None None (-1) None.
End CompileData.

Module Entry.
Record t := mk {
  module : mref;
  package : pref;
  extname : string;
  cacheName : string;
  mtime : Z;
  runtimeName : string;
  state : State;
  type : EntryType;
  compileData : option cdref;
  runtime : option oref;
  circular : bool;
  running : bool;
  children : list (string * eref);
  getters : list (string * nat);
  _namespaceFinalized : Z
}.
Definition set_state (x : State) (e : t) : t :=
  mk (module e) (package e) (extname e) (cacheName e) (mtime e)
     (runtimeName e) x (type e) (compileData e) (runtime e) (circular e)
     (running e) (children e) (getters e) (_namespaceFinalized e).
Definition set_type (x : EntryType) (e : t) : t :=
  mk (module e) (package e) (extname e) (cacheName e) (mtime e)
     (runtimeName e) (state e) x (compileData e) (runtime e) (circular e)
     (running e) (children e) (getters e) (_namespaceFinalized e).
Definition set_compileData (x : option cdref) (e : t) : t :=
  mk (module e) (package e) (extname e) (cacheName e) (mtime e)
     (runtimeName e) (state e) (type e) x (runtime e) (circular e)
     (running e) (children e) (getters e) (_namespaceFinalized e).
Definition set_runtime (x : option oref) (e : t) : t :=
  mk (module e) (package e) (extname e) (cacheName e) (mtime e)
     (runtimeName e) (state e) (type e) (compileData e) x (circular e)
     (running e) (children e) (getters e) (_namespaceFinalized e).
Definition set_circular (x : bool) (e : t) : t :=
  mk (module e) (package e) (extname e) (cacheName e) (mtime e)
     (runtimeName e) (state e) (type e) (compileData e) (runtime e) x
     (running e) (children e) (getters e) (_namespaceFinalized e).
Definition set_running (x : bool) (e : t) : t :=
  mk (module e) (package e) (extname e) (cacheName e) (mtime e)
     (runtimeName e) (state e) (type e) (compileData e) (runtime e)
     (circular e) x (children e) (getters e) (_namespaceFinalized e).
Definition blank : t :=
  mk 0%nat 0%nat "" "" 0 "" STATE_INITIAL TYPE_CJS None None false false
     [] [] 0.
End Entry.

Module Options.
Record t := mk {
  mode : Mode;
  cjs_vars : bool;
  cjs_topLevelReturn : bool;
  await : bool;
  sourceMap : bool;
  debug : bool
}.
Definition blank : t := mk MODE_OTHER false false false false false.
End Options.

Module Package.
Record t := mk {
  options : Options.t;
  cachePath : string;
  cache_compile : gmap string cdref;
  cache_dirty : bool
}.
Definition set_cache_compile (x : gmap string cdref) (p : t) : t :=
  mk (options p) (cachePath p) x (cache_dirty p).
Definition set_cache_dirty (x : bool) (p : t) : t :=
  mk (options p) (cachePath p) (cache_compile p) x.
Definition blank : t := mk Options.blank "" ∅ false.
End Package.

(** The [loaded] property of a host module: a data property, or the accessor
    pair that [tryRun] installs for the entry it ran. *)
Inductive LoadedProp :=
| LoadedData (v : Value)
| LoadedAccessor (entry : eref).

Module HostModule.
Record t := mk {
  exports : Value;
  loaded : LoadedProp;
  parent : option mref
}.
Definition set_exports (x : Value) (m : t) : t := mk x (loaded m) (parent m).
Definition set_loaded (x : LoadedProp) (m : t) : t :=
  mk (exports m) x (parent m).
Definition blank : t := mk VUndefined (LoadedData (VBool false)) None.
End HostModule.

(** The generator of lines 313-316: [yield], then the host's [_compile]. *)
Inductive GenState := GenStart | GenSuspended | GenRunning | GenDone.

Record Generator := {
  gen_state : GenState;
  gen_module : mref;
  gen_source : string;
  gen_filename : string
}.

(** What [runtime._runResult] may hold: the generator made by [tryRun], or a
    continuation stored there by the runtime bridge while the module runs. *)
Inductive RunResult :=
| RunGenerator (g : gref)
| RunHost (k : nat).

Module Obj.
Record t := mk {
  _runResult : option RunResult;
  props : list (string * Value)
}.
Definition set_runResult (x : option RunResult) (o : t) : t :=
  mk x (props o).
(** [GenericObject.create()]: no property at all. *)
Definition empty : t := mk None [].
End Obj.

(** ** The heap *)

Record World := mkWorld {
  entries : gmap eref Entry.t;
  compileDatas : gmap cdref CompileData.t;
  packages : gmap pref Package.t;
  modules : gmap mref HostModule.t;
  objects : gmap oref Obj.t;
  generators : gmap gref Generator;
  parsing : bool;          (* shared.moduleState.parsing *)
  defaultPkg : pref        (* Loader.state.package.default *)
}.

Definition entry_of (w : World) (e : eref) : Entry.t :=
  default Entry.blank (entries w !! e).
Definition cd_of (w : World) (c : cdref) : CompileData.t :=
  default CompileData.blank (compileDatas w !! c).
Definition pkg_of (w : World) (p : pref) : Package.t :=
  default Package.blank (packages w !! p).
Definition mod_of (w : World) (m : mref) : HostModule.t :=
  default HostModule.blank (modules w !! m).
Definition obj_of (w : World) (o : oref) : Obj.t :=
  default Obj.empty (objects w !! o).

Definition set_entries (x : gmap eref Entry.t) (w : World) : World :=
  mkWorld x (compileDatas w) (packages w) (modules w) (objects w)
          (generators w) (parsing w) (defaultPkg w).
Definition set_compileDatas (x : gmap cdref CompileData.t) (w : World) : World :=
  mkWorld (entries w) x (packages w) (modules w) (objects w)
          (generators w) (parsing w) (defaultPkg w).
Definition set_packages (x : gmap pref Package.t) (w : World) : World :=
  mkWorld (entries w) (compileDatas w) x (modules w) (objects w)
          (generators w) (parsing w) (defaultPkg w).
Definition set_modules (x : gmap mref HostModule.t) (w : World) : World :=
  mkWorld (entries w) (compileDatas w) (packages w) x (objects w)
          (generators w) (parsing w) (defaultPkg w).
Definition set_objects (x : gmap oref Obj.t) (w : World) : World :=
  mkWorld (entries w) (compileDatas w) (packages w) (modules w) x
          (generators w) (parsing w) (defaultPkg w).
Definition set_generators (x : gmap gref Generator) (w : World) : World :=
  mkWorld (entries w) (compileDatas w) (packages w) (modules w) (objects w)
          x (parsing w) (defaultPkg w).
Definition set_parsing (x : bool) (w : World) : World :=
  mkWorld (entries w) (compileDatas w) (packages w) (modules w) (objects w)
          (generators w) x (defaultPkg w).

(** Writes through a reference: [entry.f = x], [compileData.f = x], ... *)
Definition upd_entry (e : eref) (f : Entry.t → Entry.t) (w : World) : World :=
  set_entries (<[e := f (entry_of w e)]> (entries w)) w.
Definition upd_cd (c : cdref) (f : CompileData.t → CompileData.t) (w : World) : World :=
  set_compileDatas (<[c := f (cd_of w c)]> (compileDatas w)) w.
Definition upd_pkg (p : pref) (f : Package.t → Package.t) (w : World) : World :=
  set_packages (<[p := f (pkg_of w p)]> (packages w)) w.
Definition upd_mod (m : mref) (f : HostModule.t → HostModule.t) (w : World) : World :=
  set_modules (<[m := f (mod_of w m)]> (modules w)) w.
Definition upd_obj (o : oref) (f : Obj.t → Obj.t) (w : World) : World :=
  set_objects (<[o := f (obj_of w o)]> (objects w)) w.

(** [GenericObject.create()]: a new object, at a reference not yet in use. *)
Definition GenericObject_create (w : World) : oref * World :=
  let o := fresh (dom (objects w)) in
  (o, set_objects (<[o := Obj.empty]> (objects w)) w).

Definition new_generator (g : Generator) (w : World) : gref * World :=
  let r := fresh (dom (generators w)) in
  (r, set_generators (<[r := g]> (generators w)) w).

(** ** Outcomes, collaborators and the monad *)

(** How a call ends: it returns, or it throws an error object. *)
Inductive Res (A : Type) :=
| Ret (a : A)
| Throw (e : Err.t).
Arguments Ret {A} a.
Arguments Throw {A} e.

(** The options object handed to [CachingCompiler.compile] (lines 101-111). *)
Record CompileOptions := {
  co_cacheName : string;
  co_cachePath : string;
  co_cjsVars : bool;
  co_filename : string;
  co_hint : SourceType;
  co_mtime : Z;
  co_runtimeName : string;
  co_sourceType : SourceType;
  co_topLevelReturn : bool
}.

(** The options object handed to [compileSource] (lines 298-303). *)
Record RenderOptions := {
  ro_async : bool;
  ro_cjsVars : bool;
  ro_runtimeName : string;
  ro_sourceMap : bool
}.

(** The imports of the source whose code is elsewhere. A collaborator that
    can run module code or touch shared objects is a function on the whole
    heap; the error formatters act on the error object alone. *)
Record Host := {
  TRANSFORMS_EVAL : Z;
  NAMESPACE_FINALIZATION_DEFERRED : Z;
  ILLEGAL_AWAIT_IN_NON_ASYNC_FUNCTION : string;
  DEVELOPMENT : bool;
  ELECTRON_RENDERER : bool;
  NDB : bool;
  FLAGS_inspect : bool;
  support_await : bool;                       (* shared.support.await *)
  CachingCompiler_from : eref → World → option cdref * World;
  CachingCompiler_compile : string → CompileOptions → World → Res cdref * World;
  Runtime_enable : eref → oref → World → oref * World;
  compileSource : CompileData.t → RenderOptions → string;
  getSourceMappingURL : option string → string;
  mod_compile : mref → string → string → World → Res Value * World;
  runResult_next : nat → World → Res Value * World;
  entry_updateBindings : eref → World → Res unit * World;
  entry_loaded : eref → World → Res unit * World;
  entry_finalizeNamespace : eref → World → Res unit * World;
  Entry_get : option mref → World → option eref * World;
  getStackFrames : World → list string;       (* each frame's getFileName() *)
  isAbsolute : string → bool;
  isOwnPath : string → bool;
  isStackTraceMaskable : Err.t → bool;
  toExternalError : Err.t → Err.t;
  captureStackTrace : Err.t → nat → Err.t;
  maskStackTrace : Err.t → option string → string → option bool → Err.t;
  getLocationFromStackTrace : Err.t → option string
}.

(** The calls the drivers make to their collaborators, in the order made.
    The log is the drivers' own: no collaborator can write to it. *)
Inductive Event :=
| EvFrom (entry : eref)
| EvCachingCompile (content : string) (options : CompileOptions)
| EvRuntimeEnable (entry : eref)
| EvHostCompile (m : mref) (source filename : string)      (* line 309 *)
| EvGeneratorCompile (m : mref) (source filename : string) (* line 315 *)
| EvNext (k : nat)
| EvUpdateBindings (entry : eref)
| EvLoaded (entry : eref)
| EvFinalizeNamespace (entry : eref)
| EvEntryGet
| EvFallback.

Record St := mkSt { world : World; calls : list Event }.

Definition M (A : Type) : Type := St → Res A * St.

#[global] Instance M_ret : MRet M := λ A a st, (Ret a, st).
#[global] Instance M_bind : MBind M := λ A B f m st,
  match m st with
  | (Ret a, st') => f a st'
  | (Throw e, st') => (Throw e, st')
  end.

Definition throw {A} (e : Err.t) : M A := λ st, (Throw e, st).

(** [try { m } catch (e) { h e }]. *)
Definition try_catch {A} (m : M A) (h : Err.t → M A) : M A := λ st,
  match m st with
  | (Ret a, st') => (Ret a, st')
  | (Throw e, st') => h e st'
  end.

(** [try { m } finally { f }], for a cleanup [f] that cannot throw. *)
Definition try_finally {A} (m : M A) (f : World → World) : M A := λ st,
  match m st with
  | (r, st') => (r, mkSt (f (world st')) (calls st'))
  end.

Definition get_world : M World := λ st, (Ret (world st), st).
Definition modify (f : World → World) : M unit := λ st,
  (Ret tt, mkSt (f (world st)) (calls st)).

(** An allocation of the drivers' own. *)
Definition alloc {A} (f : World → A * World) : M A := λ st,
  match f (world st) with
  | (a, w) => (Ret a, mkSt w (calls st))
  end.

(** A call to a collaborator, logged. *)
Definition call {A} (ev : Event) (f : World → Res A * World) : M A := λ st,
  match f (world st) with
  | (r, w) => (r, mkSt w (calls st ++ [ev]))
  end.
Definition call_total {A} (ev : Event) (f : World → A * World) : M A := λ st,
  match f (world st) with
  | (a, w) => (Ret a, mkSt w (calls st ++ [ev]))
  end.

(** Reading a property of [null]: a TypeError. *)
Definition deref {A} (what : string) (x : option A) : M A :=
  match x with
  | Some a => mret a
  | None => throw (TypeError what)
  end.

(** ** Helpers with evident meaning *)

(** Modelled from the spec: util/is-object-empty.js is not under src/; it is
    true exactly of an object without properties. *)
Definition isObjectEmpty {A} (o : list (string * A)) : bool :=
  match o with
  | [] => true
  | _ :: _ => false
  end.

(** Modelled from the spec: parse/errors.js is not under src/;
    [new errors.SyntaxError({ input }, message)] is a SyntaxError with that
    message and no position yet. *)
Definition errors_SyntaxError (message : string) : Err.t :=
  Err.mk "SyntaxError" message None None None false.

(** [exportsRegExp = /^.*?\bexports\b/] (line 64), on strings of one-byte
    code units: [.] is any unit but a line terminator, [\b] a border between
    a word unit [[A-Za-z0-9_]] and anything else. *)
Definition isWordChar (c : ascii) : bool :=
  let n := nat_of_ascii c in
  ((48 <=? n) && (n <=? 57) || (65 <=? n) && (n <=? 90)
   || (97 <=? n) && (n <=? 122) || (n =? 95))%nat.

Definition isLineTerminator (c : ascii) : bool :=
  let n := nat_of_ascii c in ((n =? 10) || (n =? 13))%nat.

Fixpoint strip_prefix (p s : string) : option string :=
  match p, s with
  | EmptyString, _ => Some s
  | String a p', String b s' => if Ascii.eqb a b then strip_prefix p' s' else None
  | String _ _, EmptyString => None
  end.

(** [exports\b] at the head of [s]. *)
Definition exports_word_here (s : string) : bool :=
  match strip_prefix "exports" s with
  | Some EmptyString => true
  | Some (String c _) => negb (isWordChar c)
  | None => false
  end.

(** The match attempt at each offset; [afterWord] tells whether the unit
    before the offset is a word unit, [stopAtLine] whether [.] refuses line
    terminators. *)
Fixpoint exports_scan (stopAtLine afterWord : bool) (s : string) : bool :=
  negb afterWord && exports_word_here s
  || match s with
     | EmptyString => false
     | String c rest =>
         negb (stopAtLine && isLineTerminator c)
         && exports_scan stopAtLine (isWordChar c) rest
     end.

Definition exportsRegExp_test (message : string) : bool :=
  exports_scan true false message.

(** The wording of the specification, for comparison: the message contains
    the word [exports] anywhere. *)
Definition mentions_exports_word (message : string) : bool :=
  exports_scan false false message.

(** ** isDescendant (lines 214-235) *)

(** The recursion is on [fuel], the number of nested visits still allowed; a
    call that finds [parentEntry] in [seen] returns without using any. The
    result carries the [seen] set, which the source shares by reference. *)
Fixpoint isDescendant_fuel (fuel : nat) (w : World) (entry parentEntry : eref)
    (seen : option (gset eref)) : option (bool * gset eref) :=
  let visit (seen : gset eref) :=
    match fuel with
    | O => None
    | S fuel' =>
        (fix each (children : list (string * eref)) (seen : gset eref) :=
           match children with
           | [] => Some (false, seen)
           | (_, childEntry) :: rest =>
               if decide (entry = childEntry) then Some (true, seen)
               else
                 match isDescendant_fuel fuel' w entry childEntry (Some seen) with
                 | None => None
                 | Some (true, seen') => Some (true, seen')
                 | Some (false, seen') => each rest seen'
                 end
           end)
          (Entry.children (entry_of w parentEntry)) ({[parentEntry]} ∪ seen)
    end in
  match seen with
  | None => visit ∅
  | Some seen => if decide (parentEntry ∈ seen) then Some (false, seen) else visit seen
  end.

(** The entries of the import graph of [w], seen from [start]: [start], the
    entries of the heap and every child they name. *)
Definition graph_nodes (w : World) (start : eref) : gset eref :=
  {[start]} ∪ dom (entries w)
  ∪ ⋃ ((λ e : Entry.t, list_to_set (Entry.children e).*2) <$> (map_to_list (entries w)).*2).

(** [isDescendant(entry, parentEntry)], with one visit allowed per entry of
    the graph (never exhausted, see [isDescendant_spec]). *)
Definition isDescendant (w : World) (entry parentEntry : eref) : bool :=
  match isDescendant_fuel (size (graph_nodes w parentEntry)) w entry parentEntry None with
  | Some (b, _) => b
  | None => false
  end.

(** ** The drivers *)

Section Driver.
Context (H : Host).

Definition debug (w : World) : bool :=
  Options.debug (Package.options (pkg_of w (defaultPkg w))).

(** useAsync (lines 434-438). *)
Definition useAsync (entry : eref) (w : World) : bool :=
  Options.await (Package.options (pkg_of w (Entry.package (entry_of w entry))))
  && support_await H
  && negb (String.eqb (Entry.extname (entry_of w entry)) ".mjs").

(** useSourceMap (lines 440-450). *)
Definition useSourceMap (entry : eref) : M bool :=
  w ← get_world;
  if DEVELOPMENT H || ELECTRON_RENDERER H || NDB H || FLAGS_inspect H
     || Options.sourceMap (Package.options (pkg_of w (Entry.package (entry_of w entry))))
  then
    c ← deref "compileData.code" (Entry.compileData (entry_of w entry));
    mret (String.eqb (getSourceMappingURL H (CompileData.code (cd_of w c))) "")
  else mret false.

(** tryCompile (lines 237-261). *)
Definition tryCompile (caller : nat) (entry : eref) (content : string)
    (options : CompileOptions) : M cdref :=
  try_catch
    (call (EvCachingCompile content options) (CachingCompiler_compile H content options))
    (λ error,
       modify (upd_entry entry (Entry.set_state STATE_EXECUTION_COMPLETED));;
       w ← get_world;
       if debug w || negb (isStackTraceMaskable H error)
       then throw (toExternalError H error)
       else throw (maskStackTrace H (captureStackTrace H error caller)
                     (Some content) (co_filename options) None)).

(** [generator.next()] on what [runtime._runResult] holds. The generator of
    lines 313-316 stops at its [yield] first and calls the host's
    [_compile] when resumed. *)
Definition gen_of (w : World) (g : gref) : Generator :=
  default {| gen_state := GenDone; gen_module := 0%nat;
             gen_source := ""; gen_filename := "" |} (generators w !! g).

Definition set_gen_state (g : gref) (s : GenState) (w : World) : World :=
  let x := gen_of w g in
  set_generators
    (<[g := {| gen_state := s; gen_module := gen_module x;
               gen_source := gen_source x; gen_filename := gen_filename x |}]>
       (generators w)) w.

Definition runResult_dot_next (rr : option RunResult) : M Value :=
  match rr with
  | None => throw (TypeError "_runResult.next")
  | Some (RunHost k) => call (EvNext k) (runResult_next H k)
  | Some (RunGenerator g) =>
      w ← get_world;
      let x := gen_of w g in
      match gen_state x with
      | GenStart => modify (set_gen_state g GenSuspended);; mret VUndefined
      | GenSuspended =>
          modify (set_gen_state g GenRunning);;
          try_finally
            (call (EvGeneratorCompile (gen_module x) (gen_source x) (gen_filename x))
                  (mod_compile H (gen_module x) (gen_source x) (gen_filename x)))
            (set_gen_state g GenDone)
      | GenRunning => throw (TypeError "Generator is already running")
      | GenDone => mret VUndefined
      end
  end.

(** Modelled from the spec: util/set-property.js is not under src/;
    [setProperty(object, "loaded", value)] defines a plain data property
    holding [value], in place of whatever property was there. *)
Definition setProperty_loaded (this : mref) (value : Value) : M unit :=
  modify (upd_mod this (HostModule.set_loaded (LoadedData value))).

(** The [set] function of the accessor (lines 385-391). *)
Definition loaded_setter (entry : eref) (this : mref) (value : Value) : M unit :=
  if truthy value then
    setProperty_loaded this value;;
    call (EvUpdateBindings entry) (entry_updateBindings H entry);;
    call (EvLoaded entry) (entry_loaded H entry)
  else mret tt.

(** [m.loaded], read ([get: () => false] for the accessor). *)
Definition read_loaded (m : mref) (w : World) : Value :=
  match HostModule.loaded (mod_of w m) with
  | LoadedData v => v
  | LoadedAccessor _ => VBool false
  end.

(** [m.loaded = value]. *)
Definition assign_loaded (m : mref) (value : Value) : M unit :=
  w ← get_world;
  match HostModule.loaded (mod_of w m) with
  | LoadedData _ => modify (upd_mod m (HostModule.set_loaded (LoadedData value)))
  | LoadedAccessor entry => loaded_setter entry m value
  end.

(** *** tryRun (lines 263-432), block by block

    The pair [threw]/[error] of the source is one [option]: [Some e] when
    [threw] is true and [error] is [e]. *)

Definition threw (error : option Err.t) : bool :=
  match error with
  | Some _ => true
  | None => false
  end.

(** Lines 275-285. *)
Definition tryRun_runtime (entry : eref) (isESM : bool)
    (compileData : option cdref) : M oref :=
  w ← get_world;
  match Entry.runtime (entry_of w entry) with
  | Some runtime => mret runtime
  | None =>
      bridge ← (if isESM then mret true
                else c ← deref "compileData.transforms" compileData;
                     w ← get_world;
                     mret (negb (Z.eqb (CompileData.transforms (cd_of w c)) 0)));
      o ← alloc GenericObject_create;
      if bridge : bool then
        call_total (EvRuntimeEnable entry) (Runtime_enable H entry o)
      else
        modify (upd_entry entry (Entry.set_runtime (Some o)));;
        mret o
  end.

(** Lines 297-324: the first pass. *)
Definition tryRun_firstPass (entry : eref) (filename : string) (isESM : bool)
    (mod_ : mref) (compileData : option cdref) (async cjsVars : bool)
    (runtime : oref) : M (option Err.t * Value) :=
  w ← get_world;
  let runtimeName := Entry.runtimeName (entry_of w entry) in
  sourceMap ← useSourceMap entry;
  c ← deref "compileSource(compileData)" compileData;
  w ← get_world;
  let source :=
    compileSource H (cd_of w c)
      {| ro_async := async; ro_cjsVars := cjsVars;
         ro_runtimeName := runtimeName; ro_sourceMap := sourceMap |} in
  modify (upd_entry entry (Entry.set_running true));;
  r ← try_catch
        (if isESM then
           result ← call (EvHostCompile mod_ source filename)
                         (mod_compile H mod_ source filename);
           mret (None, result)
         else
           g ← alloc (new_generator
                        {| gen_state := GenStart; gen_module := mod_;
                           gen_source := source; gen_filename := filename |});
           modify (upd_obj runtime (Obj.set_runResult (Some (RunGenerator g))));;
           mret (None, VUndefined))
        (λ e, mret (Some e, VUndefined));
  modify (upd_entry entry (Entry.set_running false));;
  mret r.

(** Lines 331-344: step the stored continuation once, value discarded. *)
Definition tryRun_resume (entry : eref) (parsing firstPass : bool)
    (_runResult : option RunResult) (error : option Err.t) : M (option Err.t) :=
  if negb (threw error) && negb parsing && firstPass then
    modify (upd_entry entry (Entry.set_running true));;
    r ← try_catch (runResult_dot_next _runResult;; mret None) (λ e, mret (Some e));
    modify (upd_entry entry (Entry.set_running false));;
    mret r
  else mret error.

(** Lines 346-359: the check for an [await] outside any function. It reads
    the heap and yields the value of [threw]/[error] after the block. *)
Definition tryRun_validate (entry : eref) (async isESM : bool) (c : cdref)
    (error : option Err.t) (w : World) : option Err.t :=
  match CompileData.firstAwaitOutsideFunction (cd_of w c) with
  | Some firstAwaitOutsideFunction =>
      if negb (threw error)
         && negb (Entry.running (entry_of w entry))
         && async
         && isESM
         && negb (isObjectEmpty (Entry.getters (entry_of w entry)))
      then
        Some (Err.set_position
                (loc_line firstAwaitOutsideFunction)
                (loc_column firstAwaitOutsideFunction)
                true
                (errors_SyntaxError (ILLEGAL_AWAIT_IN_NON_ASYNC_FUNCTION H)))
      else error
  | None => error
  end.

(** Lines 361-373: read the result off the continuation. *)
Definition tryRun_read (entry : eref) (_runResult : option RunResult)
    (error : option Err.t) (result : Value) : M (option Err.t * Value) :=
  w ← get_world;
  if negb (threw error) && negb (Entry.running (entry_of w entry)) then
    modify (upd_entry entry (Entry.set_running true));;
    r ← try_catch (v ← runResult_dot_next _runResult; mret (None, v))
                  (λ e, mret (Some e, result));
    modify (upd_entry entry (Entry.set_running false));;
    mret r
  else mret (error, result).

(** Lines 375-401: the run did not throw. *)
Definition tryRun_succeed (entry : eref) (mod_ : mref)
    (parsing isESM firstPass : bool) (result : Value) : M Value :=
  modify (upd_entry entry
            (Entry.set_state (if parsing then STATE_PARSING_COMPLETED
                              else STATE_EXECUTION_COMPLETED)));;
  (if isESM then
     modify (upd_mod mod_ (HostModule.set_loaded (LoadedAccessor entry)))
   else if negb parsing && firstPass then
     w ← get_world;
     assign_loaded (Entry.module (entry_of w entry)) (VBool true);;
     call (EvLoaded entry) (entry_loaded H entry);;
     call (EvUpdateBindings entry) (entry_updateBindings H entry)
   else mret tt);;
  mret result.

(** Lines 403-431: the run threw [error]. *)
Definition tryRun_fail (entry : eref) (filename : string) (isESM : bool)
    (error : Err.t) : M Value :=
  modify (upd_entry entry (Entry.set_state STATE_EXECUTION_COMPLETED));;
  w ← get_world;
  if debug w || negb (isStackTraceMaskable H error) then throw error
  else
    let message := Err.message error in
    let name := Err.name error in
    (if isESM
        && (String.eqb name "SyntaxError"
            || String.eqb name "ReferenceError" && exportsRegExp_test message)
     then modify (upd_pkg (Entry.package (entry_of w entry))
                          (Package.set_cache_dirty true))
     else mret tt);;
    let filename :=
      match getLocationFromStackTrace H error with
      | Some loc_filename => loc_filename
      | None => filename
      end in
    throw (maskStackTrace H error None filename (Some isESM)).

Definition tryRun (entry : eref) (filename : string) : M Value :=
  w ← get_world;
  let parsing := parsing w in
  let async := useAsync entry w in
  let compileData := Entry.compileData (entry_of w entry) in
  let isESM := bool_decide (Entry.type (entry_of w entry) = TYPE_ESM) in
  let mod_ := Entry.module (entry_of w entry) in
  let cjsVars :=
    Options.cjs_vars (Package.options (pkg_of w (Entry.package (entry_of w entry))))
    && negb (String.eqb (Entry.extname (entry_of w entry)) ".mjs") in
  runtime ← tryRun_runtime entry isESM compileData;
  modify (upd_entry entry
            (Entry.set_state (if parsing then STATE_PARSING_STARTED
                              else STATE_EXECUTION_STARTED)));;
  w ← get_world;
  let firstPass :=
    match Obj._runResult (obj_of w runtime) with
    | None => true
    | Some _ => false
    end in
  '(error, result) ←
    (if firstPass
     then tryRun_firstPass entry filename isESM mod_ compileData async cjsVars runtime
     else mret (None, VUndefined));
  w ← get_world;
  let _runResult := Obj._runResult (obj_of w runtime) in
  error ← tryRun_resume entry parsing firstPass _runResult error;
  c ← deref "compileData.firstAwaitOutsideFunction" compileData;
  w ← get_world;
  let error := tryRun_validate entry async isESM c error w in
  '(error, result) ← tryRun_read entry _runResult error result;
  match error with
  | None => tryRun_succeed entry mod_ parsing isESM firstPass result
  | Some error => tryRun_fail entry filename isESM error
  end.

(** *** compile (lines 66-212), block by block *)

(** Lines 101-111: the options handed to the caching compiler. *)
Definition compile_options (w : World) (entry : eref) (filename : string)
    (pkg : pref) (options : Options.t) (hint sourceType : SourceType) : CompileOptions :=
  {| co_cacheName := Entry.cacheName (entry_of w entry);
     co_cachePath := Package.cachePath (pkg_of w pkg);
     co_cjsVars := Options.cjs_vars options;
     co_filename := filename;
     co_hint := hint;
     co_mtime := Entry.mtime (entry_of w entry);
     co_runtimeName := Entry.runtimeName (entry_of w entry);
     co_sourceType := sourceType;
     co_topLevelReturn := Options.cjs_topLevelReturn options |}.

(** Lines 87-136: the compile data of the entry, reused or made. *)
Definition compile_data (caller : nat) (entry : eref) (content filename : string)
    (pkg : pref) (options : Options.t) (isDefaultPkg : bool)
    (hint sourceType : SourceType) : M (option cdref) :=
  w ← get_world;
  compileData ←
    match Entry.compileData (entry_of w entry) with
    | Some c => mret (Some c)
    | None =>
        compileData ← call_total (EvFrom entry) (CachingCompiler_from H entry);
        w ← get_world;
        let stale :=
          match compileData with
          | None => true
          | Some c => negb (Z.eqb (CompileData.transforms (cd_of w c)) 0)
          end in
        if stale then
          let cacheName := Entry.cacheName (entry_of w entry) in
          let scriptData :=
            match compileData with
            | Some c => CompileData.scriptData (cd_of w c)
            | None => None
            end in
          c ← tryCompile caller entry content
                (compile_options w entry filename pkg options hint sourceType);
          modify (upd_cd c (CompileData.set_scriptData scriptData));;
          modify (upd_entry entry (Entry.set_compileData (Some c)));;
          modify (upd_pkg pkg (λ p, Package.set_cache_compile
                                      (<[cacheName := c]> (Package.cache_compile p)) p));;
          w ← get_world;
          (if bool_decide (CompileData.sourceType (cd_of w c) = SOURCE_TYPE_MODULE)
           then modify (upd_entry entry (Entry.set_type TYPE_ESM))
           else mret tt);;
          w ← get_world;
          (if isDefaultPkg
              && bool_decide (Entry.type (entry_of w entry) = TYPE_CJS)
              && Z.eqb (CompileData.transforms (cd_of w c)) (TRANSFORMS_EVAL H)
           then
             modify (upd_cd c (CompileData.set_code (Some content)));;
             modify (upd_cd c (CompileData.set_transforms 0))
           else mret tt);;
          mret (Some c)
        else mret compileData
    end;
  w ← get_world;
  match compileData with
  | Some c =>
      match CompileData.code (cd_of w c) with
      | None => modify (upd_cd c (CompileData.set_code (Some content)))
      | Some _ => mret tt
      end
  | None => mret tt
  end;;
  mret compileData.

(** Lines 141-152: the gate on the parsing flag. [None] is the branch that
    returns [tryRun(entry, filename)] at once; [Some b] goes on with
    [isSideloaded = b]. *)
Definition compile_gate (entry : eref) (isESM : bool) : M (option bool) :=
  w ← get_world;
  if negb (parsing w) then
    if isESM && bool_decide (Entry.state (entry_of w entry) = STATE_INITIAL) then
      modify (upd_entry entry (Entry.set_state STATE_PARSING_STARTED));;
      modify (set_parsing true);;
      mret (Some true)
    else mret None
  else mret (Some false).

(** Lines 158-160: the circular tri-state, worked out when still unknown. *)
Definition compile_circular (entry : eref) (c : cdref) : M unit :=
  w ← get_world;
  if Z.eqb (CompileData.circular (cd_of w c)) (-1) then
    modify (upd_cd c (CompileData.set_circular
                        (if isDescendant w entry entry then 1 else 0)))
  else mret tt.

(** Lines 163-171: what a circular entry gets before it is run again. *)
Definition compile_swap (entry : eref) (mod_ : mref) (c : cdref) : M unit :=
  modify (upd_entry entry (Entry.set_circular true));;
  modify (upd_entry entry (Entry.set_runtime None));;
  o ← alloc GenericObject_create;
  modify (upd_mod mod_ (HostModule.set_exports (VObj o)));;
  w ← get_world;
  match CompileData.codeWithTDZ (cd_of w c) with
  | Some codeWithTDZ => modify (upd_cd c (CompileData.set_code (Some codeWithTDZ)))
  | None => mret tt
  end.

(** Lines 176-184. [Some result] is [return result]; [None] leaves the
    [try] block by its end. *)
Definition compile_finish (entry : eref) (isSideloaded : bool) (result : Value)
    : M (option Value) :=
  call (EvUpdateBindings entry) (entry_updateBindings H entry);;
  w ← get_world;
  (if negb (Z.eqb (Entry._namespaceFinalized (entry_of w entry))
                  (NAMESPACE_FINALIZATION_DEFERRED H))
   then call (EvFinalizeNamespace entry) (entry_finalizeNamespace H entry)
   else mret tt);;
  if negb isSideloaded then mret (Some result) else mret None.

(** Lines 156-184: the body of the [try]. *)
Definition compile_esm (entry : eref) (filename : string) (mod_ : mref)
    (compileData : option cdref) (isSideloaded : bool) : M (option Value) :=
  result ← tryRun entry filename;
  c ← deref "compileData.circular" compileData;
  compile_circular entry c;;
  w ← get_world;
  result ←
    (if Z.eqb (CompileData.circular (cd_of w c)) 1 then
       compile_swap entry mod_ c;;
       tryRun entry filename
     else mret result);
  compile_finish entry isSideloaded result.

(** Lines 198-207: the loop over the stack frames. *)
Fixpoint compile_frames (frames : list string)
    (fallback : World → Res Value * World) : M (option Value) :=
  match frames with
  | [] => mret None
  | framePath :: rest =>
      if isAbsolute H framePath && negb (isOwnPath H framePath)
      then v ← call EvFallback fallback; mret (Some v)
      else compile_frames rest fallback
  end.

(** Lines 190-209, for a [fallback] that is a function. *)
Definition compile_fallback (mod_ : mref) (isDefaultPkg : bool) (defaultPkg : pref)
    (fallback : World → Res Value * World) : M (option Value) :=
  w ← get_world;
  parentEntry ← call_total EvEntryGet (Entry_get H (HostModule.parent (mod_of w mod_)));
  w ← get_world;
  let parentIsESM :=
    match parentEntry with
    | None => false
    | Some p => bool_decide (Entry.type (entry_of w p) = TYPE_ESM)
    end in
  let parentPkg :=
    match parentEntry with
    | None => None
    | Some p => Some (Entry.package (entry_of w p))
    end in
  if negb parentIsESM && (isDefaultPkg || bool_decide (parentPkg = Some defaultPkg))
  then compile_frames (getStackFrames H w) fallback
  else mret None.

(** Lines 72-82: the hint and the source type asked of the compiler. *)
Definition compile_sourceType (extname : string) (pkgMode : Mode) : SourceType * SourceType :=
  if String.eqb extname ".mjs" then (SOURCE_TYPE_MODULE, SOURCE_TYPE_MODULE)
  else if bool_decide (pkgMode = MODE_ALL) then (SOURCE_TYPE_SCRIPT, SOURCE_TYPE_MODULE)
  else if bool_decide (pkgMode = MODE_AUTO) then (SOURCE_TYPE_SCRIPT, SOURCE_TYPE_UNAMBIGUOUS)
  else (SOURCE_TYPE_SCRIPT, SOURCE_TYPE_SCRIPT).

(** Lines 138-211: what [compile] does once it has the compile data;
    [fallback] is [Some f] when [typeof fallback === "function"]. *)
Definition compile_run (entry : eref) (filename : string) (mod_ : mref)
    (isDefaultPkg : bool) (defaultPkg : pref) (compileData : option cdref)
    (fallback : option (World → Res Value * World)) : M Value :=
  w ← get_world;
  let isESM := bool_decide (Entry.type (entry_of w entry) = TYPE_ESM) in
  gate ← compile_gate entry isESM;
  match gate with
  | None => tryRun entry filename
  | Some isSideloaded =>
      returned ←
        (if isESM then
           try_finally (compile_esm entry filename mod_ compileData isSideloaded)
                       (λ w, if isSideloaded then set_parsing false w else w)
         else
           match fallback with
           | Some fallback => compile_fallback mod_ isDefaultPkg defaultPkg fallback
           | None => mret None
           end);
      match returned with
      | Some result => mret result
      | None => tryRun entry filename
      end
  end.

(** [compile(caller, entry, content, filename, fallback)]. *)
Definition compile (caller : nat) (entry : eref) (content filename : string)
    (fallback : option (World → Res Value * World)) : M Value :=
  w ← get_world;
  let mod_ := Entry.module (entry_of w entry) in
  let pkg := Entry.package (entry_of w entry) in
  let options := Package.options (pkg_of w pkg) in
  let pkgMode := Options.mode options in
  let '(hint, sourceType) :=
    compile_sourceType (Entry.extname (entry_of w entry)) pkgMode in
  let defaultPkg := defaultPkg w in
  let isDefaultPkg := bool_decide (pkg = defaultPkg) in
  compileData ← compile_data caller entry content filename pkg options
                             isDefaultPkg hint sourceType;
  compile_run entry filename mod_ isDefaultPkg defaultPkg compileData fallback.
End Driver.

(** * The globals visitor (src/unnamed/part_001) *)

Module Globals.

(** A node of the syntax tree, by the properties that [visitCallExpression]
    reads; a property the node lacks reads as [undefined], here [None]. *)
Inductive Node := mkNode {
  type : string;
  name : option string;
  start : Z;
  callee : option Node;
  object : option Node;
  arguments : list Node
}.

(** A path of the traversal: [getValue()], [getParentNode()] and the place
    in the tree, which is all that tells two paths apart. *)
Record Path := mkPath {
  getValue : Node;
  getParentNode : option Node;
  place : nat
}.

(** What [this.runtimeName] may hold, and how [+] turns it into text. *)
Inductive Name :=
| NameNull
| NameUndefined
| NameString (s : string).

Definition toString (n : Name) : string :=
  match n with
  | NameNull => "null"
  | NameUndefined => "undefined"
  | NameString s => s
  end.

(** The magic string, as the [prependLeft(index, content)] calls made on it,
    oldest first. *)
Definition MagicString := list (Z * string).

(** The [options] of [reset]; a property that is missing is [None]. *)
Record ResetOptions := mkResetOptions {
  o_globals : option (gset string);
  o_magicString : option MagicString;
  o_possibleIndexes : option (list Z);
  o_runtimeName : Name
}.

(** The fields of the class. *)
Record GlobalsVisitor := mkVisitor {
  globals : option (gset string);
  magicString : option MagicString;
  possibleIndexes : option (list Z);
  runtimeName : Name;
  transforms : Z
}.

Definition set_magicString (x : option MagicString) (v : GlobalsVisitor) : GlobalsVisitor :=
  mkVisitor (globals v) x (possibleIndexes v) (runtimeName v) (transforms v).
Definition set_transforms (x : Z) (v : GlobalsVisitor) : GlobalsVisitor :=
  mkVisitor (globals v) (magicString v) (possibleIndexes v) (runtimeName v) x.

(** ToInt32, and the operator [|] on numbers that are integers. *)
Definition ToInt32 (z : Z) : Z := (z + 2 ^ 31) mod 2 ^ 32 - 2 ^ 31.
Definition bitor (a b : Z) : Z := Z.lor (ToInt32 a) (ToInt32 b).

(** reset (lines 18-31); [None] is a call without options. *)
Definition reset (options : option ResetOptions) (this : GlobalsVisitor) : GlobalsVisitor :=
  let this := mkVisitor None None None NameNull 0 in
  match options with
  | None => this
  | Some options =>
      mkVisitor (o_globals options) (o_magicString options)
                (o_possibleIndexes options) (o_runtimeName options) (transforms this)
  end.

(** An argument that [console] needs no help to print (lines 67-68). *)
Definition literal (arg : Node) : bool :=
  String.eqb (type arg) "Literal" || String.eqb (type arg) "TemplateLiteral".

Section Visitor.
Context {ShadowedMap : Type}.

(** The visitor and the [shadowedMap] of [init], which every call shares. *)
Record Visiting := mkVisiting {
  this : GlobalsVisitor;
  shadowedMap : ShadowedMap
}.

(** What the class takes from elsewhere: the constants, the two tests, and
    the traversal of the base class, which may come back to the visitor for
    the calls nested in the node. *)
Record Base := {
  TRANSFORMS_CONSOLE : Z;
  TRANSFORMS_REFLECT : Z;
  isIdentifer : Node → option Node → bool;
  isShadowed : Path → string → ShadowedMap → bool * ShadowedMap;
  visitChildren : Path → Visiting → Res unit * Visiting;
  visitWithoutReset : Path → string → Visiting → Res unit * Visiting
}.

Context (B : Base).

(** Lines 83-85: the rewrite, and the visit of the arguments. *)
Definition prepend (path : Path) (object : Node) (s : Visiting) : Res unit * Visiting :=
  match magicString (this s) with
  | None => (Throw (TypeError "this.magicString.prependLeft"), s)
  | Some edits =>
      let content := toString (runtimeName (this s)) ++ ".g." in
      visitWithoutReset B path "arguments"
        (mkVisiting (set_magicString (Some (edits ++ [(start object, content)])%list) (this s))
                 (shadowedMap s))
  end.

(** visitCallExpression (lines 33-86). *)
Definition visitCallExpression (path : Path) (s : Visiting) : Res unit * Visiting :=
  let node := getValue path in
  match callee node with
  | None => (Throw (TypeError "callee.type"), s)
  | Some callee =>
      if negb (String.eqb (type callee) "MemberExpression") then visitChildren B path s
      else
        match object callee with
        | None => (Throw (TypeError "object.name"), s)
        | Some object =>
            match globals (this s) with
            | None => (Throw (TypeError "this.globals.has"), s)
            | Some globals =>
                match name object with
                | None => visitChildren B path s
                | Some name =>
                    if negb (bool_decide (name ∈ globals)) then visitChildren B path s
                    else
                      let args := arguments node in
                      if Nat.eqb (List.length args) 0 then (Ret tt, s)
                      else
                        let parent := getParentNode path in
                        if negb (isIdentifer B object parent) then (Ret tt, s)
                        else
                          let '(shadowed, map) := isShadowed B path name (shadowedMap s) in
                          let s := mkVisiting (this s) map in
                          if shadowed then (Ret tt, s)
                          else if String.eqb name "console" then
                            if forallb literal args then (Ret tt, s)
                            else
                              prepend path object
                                (mkVisiting (set_transforms
                                            (bitor (transforms (this s)) (TRANSFORMS_CONSOLE B))
                                            (this s)) map)
                          else if String.eqb name "Reflect" then
                            prepend path object
                              (mkVisiting (set_transforms
                                          (bitor (transforms (this s)) (TRANSFORMS_REFLECT B))
                                          (this s)) map)
                          else prepend path object s
                end
            end
        end
  end.

(** The value of [transforms] tells of console rewrites, of Reflect rewrites,
    of both or of none. *)
Definition flags_known (s : Visiting) : Prop :=
  transforms (this s) = 0
  ∨ transforms (this s) = TRANSFORMS_CONSOLE B
  ∨ transforms (this s) = TRANSFORMS_REFLECT B
  ∨ transforms (this s) = Z.lor (TRANSFORMS_CONSOLE B) (TRANSFORMS_REFLECT B).

(** The traversal of the base class keeps [P]. *)
Definition traversal_keeps (P : Visiting → Prop) : Prop :=
  (∀ path s, P s → P (visitChildren B path s).2)
  ∧ (∀ path key s, P s → P (visitWithoutReset B path key s).2).

End Visitor.
End Globals.

(** * Statements: what the properties are about *)

(** The entries already visited, when [seen] may still be [undefined]. *)
Definition seen_set (seen : option (gset eref)) : gset eref := default ∅ seen.

(** ** A small concrete loader, for running the drivers *)

Module Demo.

Definition starts_with (p s : string) : bool :=
  match strip_prefix p s with
  | Some _ => true
  | None => false
  end.

(** A runtime bridge in the small: [Runtime.enable] makes the seed object the
    entry's runtime; running a declarative module stores a continuation in
    [runtime._runResult]; a compiler that wraps everything in [eval]. In this
    loader the entry of module [m] is entry [m]. *)
Definition host_with_stack (frames : list string) (failure : option Err.t) : Host := {|
  TRANSFORMS_EVAL := 4;
  NAMESPACE_FINALIZATION_DEFERRED := 1;
  ILLEGAL_AWAIT_IN_NON_ASYNC_FUNCTION := "await is only valid in async function";
  DEVELOPMENT := false;
  ELECTRON_RENDERER := false;
  NDB := false;
  FLAGS_inspect := false;
  support_await := true;
  CachingCompiler_from := λ entry w,
    (Package.cache_compile (pkg_of w (Entry.package (entry_of w entry)))
       !! Entry.cacheName (entry_of w entry), w);
  CachingCompiler_compile := λ content options w,
    let c := fresh (dom (compileDatas w)) in
    (Ret c,
     set_compileDatas
       (<[c := CompileData.mk (Some ("eval:" ++ content)) (co_sourceType options)
                              4 None None (-1) None]> (compileDatas w)) w);
  Runtime_enable := λ entry o w, (o, upd_entry entry (Entry.set_runtime (Some o)) w);
  compileSource := λ d _, default "" (CompileData.code d);
  getSourceMappingURL := λ _, "";
  mod_compile := λ m source filename w,
    match failure with
    | Some e => (Throw e, w)
    | None =>
        match Entry.type (entry_of w m), Entry.runtime (entry_of w m) with
        | TYPE_ESM, Some r =>
            (Ret VUndefined, upd_obj r (Obj.set_runResult (Some (RunHost m))) w)
        | _, _ => (Ret (VStr source), w)
        end
    end;
  runResult_next := λ k w, (Ret (VNum 42), w);
  entry_updateBindings := λ _ w, (Ret tt, w);
  entry_loaded := λ _ w, (Ret tt, w);
  entry_finalizeNamespace := λ _ w, (Ret tt, w);
  Entry_get := λ parent w, (parent, w);
  getStackFrames := λ _, frames;
  isAbsolute := starts_with "/";
  isOwnPath := starts_with "/esm/";
  isStackTraceMaskable := λ _, true;
  toExternalError := λ e, e;
  captureStackTrace := λ e _, e;
  maskStackTrace := λ e _ _ _,
    Err.mk (Err.name e) (Err.message e) (Err.line e) (Err.column e) (Err.inModule e) true;
  getLocationFromStackTrace := λ _, None
|}.

Definition host : option Err.t → Host :=
  host_with_stack ["/esm/loader.js"; "internal/modules/cjs/loader.js"; "/app/main.js"].

Definition options : Options.t :=
  Options.mk MODE_AUTO true false true false false.

Definition package : Package.t := Package.mk options "/cache" ∅ false.

(** Entry 1 of module 1, in the default package 0, importing itself. *)
Definition entry (type : EntryType) (state : State) (compileData : option cdref)
    (getters : list (string * nat)) : Entry.t :=
  Entry.mk 1%nat 0%nat ".js" "a.js" 0 "_" state type compileData None false false
           [("./a.js", 1%nat)] getters 0.

Definition compileData (transforms circular : Z) (firstAwait : option Loc) : CompileData.t :=
  CompileData.mk (Some "body") SOURCE_TYPE_MODULE transforms None (Some "tdz body")
                 circular firstAwait.

Definition heap (e : Entry.t) (d : CompileData.t) (parsing : bool) : World :=
  mkWorld {[1%nat := e]} {[1%nat := d]} {[0%nat := package]}
          {[1%nat := HostModule.blank]} ∅ ∅ parsing 0%nat.

(** The same heap after a pass: object 0 is the runtime of entry 1 and holds
    the continuation of the module. *)
Definition after_a_pass (w : World) : World :=
  upd_obj 0%nat (Obj.set_runResult (Some (RunHost 1)))
          (upd_entry 1%nat (Entry.set_runtime (Some 0%nat)) w).

Definition start (w : World) : St := mkSt w [].

End Demo.

(** ** Invariants and what collaborators may be asked to keep *)

(** An invariant of the state: it holds after [m] whenever it held before,
    however [m] ends. *)
Definition inv (I : St → Prop) {A} (m : M A) : Prop :=
  ∀ st, I st → I (m st).2.

(** What an invariant must survive to hold across [tryRun] and across the
    declarative branch of [compile]: each write those make, except the call
    of line 309, and each call to a collaborator. *)
Record Stable (H : Host) (I : St → Prop) : Prop := {
  st_entry_state : ∀ e x, inv I (modify (upd_entry e (Entry.set_state x)));
  st_entry_running : ∀ e x, inv I (modify (upd_entry e (Entry.set_running x)));
  st_entry_runtime : ∀ e x, inv I (modify (upd_entry e (Entry.set_runtime x)));
  st_entry_circular : ∀ e x, inv I (modify (upd_entry e (Entry.set_circular x)));
  st_cd_code : ∀ c x, inv I (modify (upd_cd c (CompileData.set_code x)));
  st_cd_circular : ∀ c x, inv I (modify (upd_cd c (CompileData.set_circular x)));
  st_mod_loaded : ∀ m x, inv I (modify (upd_mod m (HostModule.set_loaded x)));
  st_mod_exports : ∀ m x, inv I (modify (upd_mod m (HostModule.set_exports x)));
  st_obj_runResult : ∀ o x, inv I (modify (upd_obj o (Obj.set_runResult x)));
  st_gen_state : ∀ g x, inv I (modify (set_gen_state g x));
  st_pkg_dirty : ∀ p x, inv I (modify (upd_pkg p (Package.set_cache_dirty x)));
  st_create : inv I (alloc GenericObject_create);
  st_new_generator : ∀ g, inv I (alloc (new_generator g));
  st_enable : ∀ e o, inv I (call_total (EvRuntimeEnable e) (Runtime_enable H e o));
  st_generator_compile : ∀ m s f,
    inv I (call (EvGeneratorCompile m s f) (mod_compile H m s f));
  st_next : ∀ k, inv I (call (EvNext k) (runResult_next H k));
  st_loaded : ∀ e, inv I (call (EvLoaded e) (entry_loaded H e));
  st_updateBindings : ∀ e, inv I (call (EvUpdateBindings e) (entry_updateBindings H e));
  st_finalizeNamespace : ∀ e,
    inv I (call (EvFinalizeNamespace e) (entry_finalizeNamespace H e));
  st_entry_get : ∀ p, inv I (call_total EvEntryGet (Entry_get H p))
}.

(** The call of line 309. *)
Definition StableHostCompile (H : Host) (I : St → Prop) : Prop :=
  ∀ m s f, inv I (call (EvHostCompile m s f) (mod_compile H m s f)).

(** How [tryRun] rethrows [error]: as it is in debug mode or when it cannot
    be masked, masked otherwise. *)
Definition rethrown (H : Host) (w : World) (filename : string) (isESM : bool)
    (error : Err.t) : Err.t :=
  if debug w || negb (isStackTraceMaskable H error) then error
  else maskStackTrace H error None
         (default filename (getLocationFromStackTrace H error)) (Some isESM).

(** The error of lines 355-358. *)
Definition illegal_await (H : Host) (loc : Loc) : Err.t :=
  Err.mk "SyntaxError" (ILLEGAL_AWAIT_IN_NON_ASYNC_FUNCTION H)
         (Some (loc_line loc)) (Some (loc_column loc)) (Some true) false.

(** Whether the cached compile data makes [compile] call the compiler. *)
Definition stale (w : World) (cached : option cdref) : bool :=
  match cached with
  | None => true
  | Some c => negb (Z.eqb (CompileData.transforms (cd_of w c)) 0)
  end.

(** The writes of the gate and of the [finally] clause. *)
Definition StableParsing (I : St → Prop) : Prop :=
  ∀ b, inv I (modify (set_parsing b)).

(** The call of line 205. *)
Definition StableFallback (I : St → Prop)
    (fallback : option (World → Res Value * World)) : Prop :=
  match fallback with
  | Some f => inv I (call EvFallback f)
  | None => True
  end.

(** Every collaborator leaves [P] true if it was. *)
Record HostKeeps (H : Host) (P : World → Prop) : Prop := {
  keeps_from : ∀ e w, P w → P (CachingCompiler_from H e w).2;
  keeps_compiler : ∀ s o w, P w → P (CachingCompiler_compile H s o w).2;
  keeps_enable : ∀ e o w, P w → P (Runtime_enable H e o w).2;
  keeps_mod_compile : ∀ m s f w, P w → P (mod_compile H m s f w).2;
  keeps_next : ∀ k w, P w → P (runResult_next H k w).2;
  keeps_updateBindings : ∀ e w, P w → P (entry_updateBindings H e w).2;
  keeps_loaded : ∀ e w, P w → P (entry_loaded H e w).2;
  keeps_finalizeNamespace : ∀ e w, P w → P (entry_finalizeNamespace H e w).2;
  keeps_entry_get : ∀ p w, P w → P (Entry_get H p w).2
}.

(** [P] does not depend on what [tryRun] and the declarative branch of
    [compile] write themselves. *)
Record WritesKeep (P : World → Prop) : Prop := {
  wk_entry_state : ∀ e x w, P w → P (upd_entry e (Entry.set_state x) w);
  wk_entry_running : ∀ e x w, P w → P (upd_entry e (Entry.set_running x) w);
  wk_entry_runtime : ∀ e x w, P w → P (upd_entry e (Entry.set_runtime x) w);
  wk_entry_circular : ∀ e x w, P w → P (upd_entry e (Entry.set_circular x) w);
  wk_cd_code : ∀ c x w, P w → P (upd_cd c (CompileData.set_code x) w);
  wk_cd_circular : ∀ c x w, P w → P (upd_cd c (CompileData.set_circular x) w);
  wk_mod_loaded : ∀ m x w, P w → P (upd_mod m (HostModule.set_loaded x) w);
  wk_mod_exports : ∀ m x w, P w → P (upd_mod m (HostModule.set_exports x) w);
  wk_obj_runResult : ∀ o x w, P w → P (upd_obj o (Obj.set_runResult x) w);
  wk_gen_state : ∀ g x w, P w → P (set_gen_state g x w);
  wk_pkg_dirty : ∀ p x w, P w → P (upd_pkg p (Package.set_cache_dirty x) w);
  wk_create : ∀ w, P w → P (GenericObject_create w).2;
  wk_new_generator : ∀ g w, P w → P (new_generator g w).2
}.

(** Counting the calls of one kind in the log. *)
Definition count_calls (p : Event → bool) (l : list Event) : nat :=
  List.length (List.filter p l).

(** The calls that [Stable] lets through are not of the kind counted. *)
Definition uncounted (p : Event → bool) : Prop :=
  (∀ e, p (EvRuntimeEnable e) = false)
  ∧ (∀ m s f, p (EvGeneratorCompile m s f) = false)
  ∧ (∀ k, p (EvNext k) = false)
  ∧ (∀ e, p (EvLoaded e) = false)
  ∧ (∀ e, p (EvUpdateBindings e) = false)
  ∧ (∀ e, p (EvFinalizeNamespace e) = false)
  ∧ p EvEntryGet = false.

(** The property of the heap that C4 calls no invalidation. *)
Definition has_compileData (entry : eref) (w : World) : Prop :=
  Entry.compileData (entry_of w entry) ≠ None.

(** ** The calls counted in the log, and series of requests *)

(** The call of [CachingCompiler.compile]. *)
Definition is_compiler_call (ev : Event) : bool :=
  match ev with
  | EvCachingCompile _ _ => true
  | _ => false
  end.

(** One request to [compile] for an entry. *)
Record Request := {
  rq_caller : nat;
  rq_content : string;
  rq_filename : string;
  rq_fallback : option (World → Res Value * World)
}.

(** The requests made one after the other, whether they return or throw. *)
Fixpoint compile_repeatedly (H : Host) (entry : eref) (requests : list Request)
    (st : St) : St :=
  match requests with
  | [] => st
  | r :: rest =>
      compile_repeatedly H entry rest
        (snd (compile H (rq_caller r) entry (rq_content r) (rq_filename r)
                      (rq_fallback r) st))
  end.

(** The fallback of a request, if any, leaves [P] true if it was. *)
Definition fallback_keeps (P : World → Prop) (r : Request) : Prop :=
  match rq_fallback r with
  | Some f => ∀ w, P w → P (f w).2
  | None => True
  end.

(** The parsing flag is down. *)
Definition not_parsing (w : World) : Prop := parsing w = false.

(** The call of [fallback()]. *)
Definition is_fallback_call (ev : Event) : bool :=
  match ev with
  | EvFallback => true
  | _ => false
  end.

(** Some frame of the stack has an absolute path that is not one of the
    engine's own; the loop of lines 200-207 stops at the first. *)
Definition external_frame (H : Host) (frames : list string) : bool :=
  existsb (λ framePath, isAbsolute H framePath && negb (isOwnPath H framePath)) frames.

(** The test of lines 195-197 and of the loop, on the heap [w] left by
    [Entry.get]. *)
Definition consults_fallback (H : Host) (isDefaultPkg : bool) (defaultPkg : pref)
    (parentEntry : option eref) (w : World) : bool :=
  let parentIsESM :=
    match parentEntry with
    | None => false
    | Some p => bool_decide (Entry.type (entry_of w p) = TYPE_ESM)
    end in
  let parentPkg :=
    match parentEntry with
    | None => None
    | Some p => Some (Entry.package (entry_of w p))
    end in
  negb parentIsESM
  && (isDefaultPkg || bool_decide (parentPkg = Some defaultPkg))
  && external_frame H (getStackFrames H w).

(** A fallback that answers with a string. *)
Definition Demo_fallback : World → Res Value * World :=
  λ w, (Ret (VStr "from the fallback"), w).

(** The states of the specification's machine, other than the forced move
    to [STATE_EXECUTION_COMPLETED] on an error. *)
Definition machine_step (s s' : State) : bool :=
  match s, s' with
  | STATE_INITIAL, STATE_PARSING_STARTED
  | STATE_PARSING_STARTED, STATE_PARSING_COMPLETED
  | STATE_INITIAL, STATE_EXECUTION_STARTED
  | STATE_EXECUTION_STARTED, STATE_EXECUTION_COMPLETED => true
  | _, _ => false
  end.

(** Reachable along the machine in any number of steps (five states: four
    steps at most). *)
Fixpoint machine_reaches (n : nat) (s s' : State) : bool :=
  bool_decide (s = s')
  || match n with
     | O => false
     | S n' =>
         existsb (λ mid, machine_step s mid && machine_reaches n' mid s')
                 [STATE_INITIAL; STATE_PARSING_STARTED; STATE_PARSING_COMPLETED;
                  STATE_EXECUTION_STARTED; STATE_EXECUTION_COMPLETED]
     end.

(** The state in which a run that does not throw leaves the entry. *)
Definition completed (parsing : bool) : State :=
  if parsing then STATE_PARSING_COMPLETED else STATE_EXECUTION_COMPLETED.

(** The hooks of an entry leave the state of [entry] alone. *)
Definition hooks_keep_state (H : Host) (entry : eref) : Prop :=
  (∀ e w, Entry.state (entry_of (entry_loaded H e w).2 entry)
          = Entry.state (entry_of w entry))
  ∧ (∀ e w, Entry.state (entry_of (entry_updateBindings H e w).2 entry)
            = Entry.state (entry_of w entry)).

(** [Runtime.enable] does not reset [entry.compileData]. *)
Definition enable_keeps_compileData (H : Host) (entry : eref) : Prop :=
  ∀ o w, has_compileData entry w → has_compileData entry (Runtime_enable H entry o w).2.

(** A compiler that always fails, on the small loader. *)
Definition Demo_failing_compiler (e : Err.t) : Host :=
  let H := Demo.host None in
  {| TRANSFORMS_EVAL := TRANSFORMS_EVAL H;
     NAMESPACE_FINALIZATION_DEFERRED := NAMESPACE_FINALIZATION_DEFERRED H;
     ILLEGAL_AWAIT_IN_NON_ASYNC_FUNCTION := ILLEGAL_AWAIT_IN_NON_ASYNC_FUNCTION H;
     DEVELOPMENT := DEVELOPMENT H;
     ELECTRON_RENDERER := ELECTRON_RENDERER H;
     NDB := NDB H;
     FLAGS_inspect := FLAGS_inspect H;
     support_await := support_await H;
     CachingCompiler_from := CachingCompiler_from H;
     CachingCompiler_compile := λ _ _ w, (Throw e, w);
     Runtime_enable := Runtime_enable H;
     compileSource := compileSource H;
     getSourceMappingURL := getSourceMappingURL H;
     mod_compile := mod_compile H;
     runResult_next := runResult_next H;
     entry_updateBindings := entry_updateBindings H;
     entry_loaded := entry_loaded H;
     entry_finalizeNamespace := entry_finalizeNamespace H;
     Entry_get := Entry_get H;
     getStackFrames := getStackFrames H;
     isAbsolute := isAbsolute H;
     isOwnPath := isOwnPath H;
     isStackTraceMaskable := isStackTraceMaskable H;
     toExternalError := toExternalError H;
     captureStackTrace := captureStackTrace H;
     maskStackTrace := maskStackTrace H;
     getLocationFromStackTrace := getLocationFromStackTrace H |}.

(** The calls of [entry.updateBindings()] and of [entry.loaded()]. *)
Definition is_updateBindings (entry : eref) (ev : Event) : bool :=
  match ev with
  | EvUpdateBindings e => bool_decide (e = entry)
  | _ => false
  end.

Definition is_loaded_hook (entry : eref) (ev : Event) : bool :=
  match ev with
  | EvLoaded e => bool_decide (e = entry)
  | _ => false
  end.

(** [m.loaded = v] for each [v] of [values] in turn, whether the assignment
    returns or throws. *)
Fixpoint assign_loaded_each (H : Host) (m : mref) (values : list Value) (st : St) : St :=
  match values with
  | [] => st
  | v :: rest => assign_loaded_each H m rest (snd (assign_loaded H m v st))
  end.

(** What [m.loaded] reads as after the assignments, starting from the
    accessor: [false] up to the first truthy value, then the value assigned
    last. *)
Fixpoint loaded_after (values : list Value) : Value :=
  match values with
  | [] => VBool false
  | v :: rest => if truthy v then List.last rest v else loaded_after rest
  end.

(** The hooks of [entry] do not redefine [m.loaded], and its binding update
    returns. *)
Definition hooks_keep_loaded (H : Host) (entry : eref) (m : mref) : Prop :=
  (∀ w, HostModule.loaded (mod_of (entry_updateBindings H entry w).2 m)
        = HostModule.loaded (mod_of w m))
  ∧ (∀ w, HostModule.loaded (mod_of (entry_loaded H entry w).2 m)
          = HostModule.loaded (mod_of w m))
  ∧ (∀ w, ∃ w', entry_updateBindings H entry w = (Ret tt, w')).



(** ** The import graph *)

(** [childEntry] is one of the [children] of [parentEntry]. *)
Definition is_child (w : World) (parentEntry childEntry : eref) : Prop :=
  childEntry ∈ (Entry.children (entry_of w parentEntry)).*2.

(** [entry] is reached from [parentEntry] by following [children] once or
    more. *)
Definition descends (w : World) (parentEntry entry : eref) : Prop :=
  tc (is_child w) parentEntry entry.

(** ** Reading the pattern of line 64 *)

(** No line terminator in [s]: what [.*?] can run over. *)
Fixpoint one_line (s : string) : bool :=
  match s with
  | EmptyString => true
  | String c rest => negb (isLineTerminator c) && one_line rest
  end.

(** Whether the last unit of [s] is a word unit; [afterWord] answers for the
    empty string. *)
Fixpoint ends_in_word (afterWord : bool) (s : string) : bool :=
  match s with
  | EmptyString => afterWord
  | String c rest => ends_in_word (isWordChar c) rest
  end.

(** Whether the first unit of [s] is a word unit. *)
Definition starts_in_word (s : string) : bool :=
  match s with
  | EmptyString => false
  | String c _ => isWordChar c
  end.

(** ** Errors of the compiler *)

(** How [tryCompile] rethrows [error] (lines 248-260): made external in
    debug mode or when it cannot be masked, masked against the source text
    otherwise. *)
Definition recast (H : Host) (w : World) (caller : nat) (content filename : string)
    (error : Err.t) : Err.t :=
  if debug w || negb (isStackTraceMaskable H error) then toExternalError H error
  else maskStackTrace H (captureStackTrace H error caller) (Some content) filename None.

(** ** What the host is handed *)

(** What [useSourceMap] answers for an entry whose compile data is [c]. *)
Definition wants_sourceMap (H : Host) (w : World) (entry : eref) (c : cdref) : bool :=
  (DEVELOPMENT H || ELECTRON_RENDERER H || NDB H || FLAGS_inspect H
   || Options.sourceMap (Package.options (pkg_of w (Entry.package (entry_of w entry)))))
  && String.eqb (getSourceMappingURL H (CompileData.code (cd_of w c))) "".

(** The source text of lines 298-303, for an entry whose compile data is
    [c]. *)
Definition rendered (H : Host) (w : World) (entry : eref) (c : cdref) : string :=
  compileSource H (cd_of w c)
    {| ro_async := useAsync H entry w;
       ro_cjsVars :=
         Options.cjs_vars (Package.options (pkg_of w (Entry.package (entry_of w entry))))
         && negb (String.eqb (Entry.extname (entry_of w entry)) ".mjs");
       ro_runtimeName := Entry.runtimeName (entry_of w entry);
       ro_sourceMap := wants_sourceMap H w entry c |}.

(** The calls of the hooks [entry.loaded()] and [entry.updateBindings()],
    of any entry. *)
Definition is_hook (ev : Event) : bool :=
  match ev with
  | EvLoaded _ | EvUpdateBindings _ => true
  | _ => false
  end.

(** [entry.finalizeNamespace()] leaves the state of [entry] alone. *)
Definition finalize_keeps_state (H : Host) (entry : eref) : Prop :=
  ∀ e w, Entry.state (entry_of (entry_finalizeNamespace H e w).2 entry)
         = Entry.state (entry_of w entry).

(** ** A small traversal, for running the visitor *)

(** A base class whose traversal finds no nested call, with every object an
    identifier that nothing shadows. *)
Definition Demo_base : @Globals.Base unit := {|
  Globals.TRANSFORMS_CONSOLE := 1;
  Globals.TRANSFORMS_REFLECT := 2;
  Globals.isIdentifer := λ _ _, true;
  Globals.isShadowed := λ _ _ map, (false, map);
  Globals.visitChildren := λ _ s, (Ret tt, s);
  Globals.visitWithoutReset := λ _ _ s, (Ret tt, s)
|}.

Definition Demo_identifier (name : string) (start : Z) : Globals.Node :=
  Globals.mkNode "Identifier" (Some name) start None None [].

(** The call [object.method(args)], with [object] at offset [start]. *)
Definition Demo_call (object : string) (start : Z) (args : list Globals.Node)
    : Globals.Path :=
  Globals.mkPath
    (Globals.mkNode "CallExpression" None start
       (Some (Globals.mkNode "MemberExpression" None start None
                (Some (Demo_identifier object start)) []))
       None args)
    None 0.

Definition Demo_reset_options : Globals.ResetOptions :=
  Globals.mkResetOptions (Some {["console"; "Reflect"]}) (Some []) None
                         (Globals.NameString "_").

(** The edits of the magic string of the visitor, none when it has no magic
    string. *)
Definition edits_of {ShadowedMap : Type} (s : @Globals.Visiting ShadowedMap)
    : Globals.MagicString :=
  default [] (Globals.magicString (Globals.this s)).

(** The call of [Runtime.enable]. *)
Definition is_enable (ev : Event) : bool :=
  match ev with
  | EvRuntimeEnable _ => true
  | _ => false
  end.

(** * Properties *)

(** ** Termination of isDescendant *)

Section Descendants.
Context (w : World) (entry : eref) (nodes : gset eref).
Hypothesis nodes_closed :
  ∀ n c, n ∈ nodes → c ∈ (Entry.children (entry_of w n)).*2 → c ∈ nodes.

Lemma isDescendant_fuel_total fuel :
  ∀ parentEntry seen,
    parentEntry ∈ nodes →
    (size (nodes ∖ seen_set seen) ≤ fuel)%nat →
    ∃ b seen', isDescendant_fuel fuel w entry parentEntry seen = Some (b, seen')
               ∧ {[parentEntry]} ∪ seen_set seen ⊆ seen'.
Proof.
  induction fuel as [|fuel IH]; intros parentEntry seen Hin Hsize.
  - (* no visit left: every entry of the graph has been seen *)
    assert (Hall : nodes ∖ seen_set seen = ∅).
    { apply leibniz_equiv, size_empty_iff. lia. }
    assert (Hp : parentEntry ∈ seen_set seen).
    { destruct (decide (parentEntry ∈ seen_set seen)) as [|Hn]; [done|].
      exfalso. assert (parentEntry ∈ nodes ∖ seen_set seen) by set_solver.
      set_solver. }
    destruct seen as [s|]; simpl in *; [|set_solver].
    rewrite decide_True by done. exists false, s. split; [done|set_solver].
  - assert (Hvisit : ∀ s : gset eref, parentEntry ∉ s → (size (nodes ∖ s) ≤ S fuel)%nat →
        ∃ b seen',
          (fix each (children : list (string * eref)) (seen : gset eref) :=
             match children with
             | [] => Some (false, seen)
             | (_, childEntry) :: rest =>
                 if decide (entry = childEntry) then Some (true, seen)
                 else
                   match isDescendant_fuel fuel w entry childEntry (Some seen) with
                   | None => None
                   | Some (true, seen') => Some (true, seen')
                   | Some (false, seen') => each rest seen'
                   end
             end) (Entry.children (entry_of w parentEntry)) ({[parentEntry]} ∪ s)
          = Some (b, seen') ∧ {[parentEntry]} ∪ s ⊆ seen').
    { intros s Hns Hs.
      assert (Hless : (size (nodes ∖ ({[parentEntry]} ∪ s)) ≤ fuel)%nat).
      { assert (size (nodes ∖ ({[parentEntry]} ∪ s)) < size (nodes ∖ s))%nat; [|lia].
        apply subset_size. set_solver. }
      assert (Hkids : ∀ c, c ∈ (Entry.children (entry_of w parentEntry)).*2 → c ∈ nodes)
        by (intros c; apply nodes_closed; done).
      revert Hkids Hless. generalize ({[parentEntry]} ∪ s) as s1.
      induction (Entry.children (entry_of w parentEntry)) as [|[name child] rest IHl];
        intros s1 Hkids Hless.
      - exists false, s1. done.
      - destruct (decide (entry = child)) as [->|Hne].
        + exists true, s1. done.
        + destruct (IH child (Some s1)) as (b & s2 & Hrec & Hsub).
          { apply Hkids. set_solver. }
          { done. }
          rewrite Hrec. simpl in Hsub. destruct b.
          * exists true, s2. split; [done|set_solver].
          * destruct (IHl s2) as (b' & s3 & Hloop & Hsub3).
            { intros c Hc. apply Hkids. set_solver. }
            { etrans; [|exact Hless]. apply subseteq_size. set_solver. }
            exists b', s3. split; [done|set_solver]. }
    destruct seen as [s|]; simpl.
    + destruct (decide (parentEntry ∈ s)) as [Hs|Hs].
      * exists false, s. split; [done|set_solver].
      * apply Hvisit; done.
    + destruct (Hvisit ∅) as (b & s' & Heq & Hsub); [set_solver|done|].
      exists b, s'. split; [exact Heq|done].
Qed.
End Descendants.

Lemma graph_nodes_closed (w : World) (start n c : eref) :
  n ∈ graph_nodes w start →
  c ∈ (Entry.children (entry_of w n)).*2 →
  c ∈ graph_nodes w start.
Proof.
  intros _ Hc. unfold entry_of in Hc.
  destruct (entries w !! n) as [e|] eqn:He; simpl in Hc; [|set_solver].
  unfold graph_nodes. apply elem_of_union_r, elem_of_union_list.
  exists (list_to_set (Entry.children e).*2). split; [|set_solver].
  apply list_elem_of_fmap. exists e. split; [done|].
  apply list_elem_of_fmap. exists (n, e). split; [done|].
  by apply elem_of_map_to_list.
Qed.

(** C10. On the finite import graph held by any heap, cycles and
    self-references included, [isDescendant(entry, parentEntry)] returns: as
    many nested visits as the graph has entries are enough (and more change
    nothing), the entry visited is in the [seen] set of the result, and a
    call on an entry already in [seen] answers [false] at once, without
    looking at its children and without using up a visit. *)
Theorem isDescendant_terminates (w : World) (entry parentEntry : eref) :
  (∀ extra : nat, ∃ b seen',
      isDescendant_fuel (size (graph_nodes w parentEntry) + extra)
                        w entry parentEntry None = Some (b, seen')
      ∧ parentEntry ∈ seen')
  ∧ (∀ (fuel : nat) (seen : gset eref),
        parentEntry ∈ seen →
        isDescendant_fuel fuel w entry parentEntry (Some seen) = Some (false, seen)).
Proof.
  split.
  - intros extra.
    destruct (isDescendant_fuel_total w entry (graph_nodes w parentEntry)
                (graph_nodes_closed w parentEntry)
                (size (graph_nodes w parentEntry) + extra) parentEntry None)
      as (b & seen' & Heq & Hsub).
    + unfold graph_nodes. set_solver.
    + simpl. etrans; [apply subseteq_size|]; [|apply Nat.le_add_r]. set_solver.
    + exists b, seen'. split; [done|set_solver].
  - intros fuel seen Hin. destruct fuel; simpl; by rewrite decide_True.
Qed.

(** [isDescendant] is the fuelled function at a fuel that suffices. *)
Lemma isDescendant_spec (w : World) (entry parentEntry : eref) :
  ∃ seen', isDescendant_fuel (size (graph_nodes w parentEntry)) w entry parentEntry None
           = Some (isDescendant w entry parentEntry, seen').
Proof.
  destruct (isDescendant_fuel_total w entry (graph_nodes w parentEntry)
              (graph_nodes_closed w parentEntry)
              (size (graph_nodes w parentEntry)) parentEntry None)
    as (b & seen' & Heq & _).
  - unfold graph_nodes. set_solver.
  - apply subseteq_size. set_solver.
  - exists seen'. unfold isDescendant. by rewrite Heq.
Qed.

(** ** Reading the heap after a write *)

Lemma entry_of_upd_entry (w : World) (e e' : eref) (f : Entry.t → Entry.t) :
  entry_of (upd_entry e f w) e' = if decide (e = e') then f (entry_of w e) else entry_of w e'.
Proof.
  unfold entry_of, upd_entry; simpl. destruct (decide (e = e')) as [->|Hne].
  - by rewrite lookup_insert_eq.
  - by rewrite lookup_insert_ne.
Qed.

Lemma cd_of_upd_cd (w : World) (c c' : cdref) (f : CompileData.t → CompileData.t) :
  cd_of (upd_cd c f w) c' = if decide (c = c') then f (cd_of w c) else cd_of w c'.
Proof.
  unfold cd_of, upd_cd; simpl. destruct (decide (c = c')) as [->|Hne].
  - by rewrite lookup_insert_eq.
  - by rewrite lookup_insert_ne.
Qed.

Lemma pkg_of_upd_pkg (w : World) (p p' : pref) (f : Package.t → Package.t) :
  pkg_of (upd_pkg p f w) p' = if decide (p = p') then f (pkg_of w p) else pkg_of w p'.
Proof.
  unfold pkg_of, upd_pkg; simpl. destruct (decide (p = p')) as [->|Hne].
  - by rewrite lookup_insert_eq.
  - by rewrite lookup_insert_ne.
Qed.

Lemma mod_of_upd_mod (w : World) (m m' : mref) (f : HostModule.t → HostModule.t) :
  mod_of (upd_mod m f w) m' = if decide (m = m') then f (mod_of w m) else mod_of w m'.
Proof.
  unfold mod_of, upd_mod; simpl. destruct (decide (m = m')) as [->|Hne].
  - by rewrite lookup_insert_eq.
  - by rewrite lookup_insert_ne.
Qed.

Lemma obj_of_upd_obj (w : World) (o o' : oref) (f : Obj.t → Obj.t) :
  obj_of (upd_obj o f w) o' = if decide (o = o') then f (obj_of w o) else obj_of w o'.
Proof.
  unfold obj_of, upd_obj; simpl. destruct (decide (o = o')) as [->|Hne].
  - by rewrite lookup_insert_eq.
  - by rewrite lookup_insert_ne.
Qed.

(** A write to one kind of object leaves the others as they were. *)
Lemma entry_of_upd_cd (w : World) (c : cdref) (f : CompileData.t → CompileData.t) (e' : eref) :
  entry_of (upd_cd c f w) e' = entry_of w e'.
Proof. reflexivity. Qed.
Lemma entry_of_upd_pkg (w : World) (p : pref) (f : Package.t → Package.t) (e' : eref) :
  entry_of (upd_pkg p f w) e' = entry_of w e'.
Proof. reflexivity. Qed.
Lemma entry_of_upd_mod (w : World) (m : mref) (f : HostModule.t → HostModule.t) (e' : eref) :
  entry_of (upd_mod m f w) e' = entry_of w e'.
Proof. reflexivity. Qed.
Lemma entry_of_upd_obj (w : World) (o : oref) (f : Obj.t → Obj.t) (e' : eref) :
  entry_of (upd_obj o f w) e' = entry_of w e'.
Proof. reflexivity. Qed.
Lemma entry_of_set_gen_state (w : World) (g : gref) (x : GenState) (e' : eref) :
  entry_of (set_gen_state g x w) e' = entry_of w e'.
Proof. reflexivity. Qed.
Lemma entry_of_set_parsing (w : World) (b : bool) (e' : eref) :
  entry_of (set_parsing b w) e' = entry_of w e'.
Proof. reflexivity. Qed.
Lemma cd_of_upd_entry (w : World) (e : eref) (f : Entry.t → Entry.t) (c' : cdref) :
  cd_of (upd_entry e f w) c' = cd_of w c'.
Proof. reflexivity. Qed.
Lemma cd_of_upd_pkg (w : World) (p : pref) (f : Package.t → Package.t) (c' : cdref) :
  cd_of (upd_pkg p f w) c' = cd_of w c'.
Proof. reflexivity. Qed.
Lemma cd_of_upd_mod (w : World) (m : mref) (f : HostModule.t → HostModule.t) (c' : cdref) :
  cd_of (upd_mod m f w) c' = cd_of w c'.
Proof. reflexivity. Qed.
Lemma cd_of_upd_obj (w : World) (o : oref) (f : Obj.t → Obj.t) (c' : cdref) :
  cd_of (upd_obj o f w) c' = cd_of w c'.
Proof. reflexivity. Qed.
Lemma cd_of_set_gen_state (w : World) (g : gref) (x : GenState) (c' : cdref) :
  cd_of (set_gen_state g x w) c' = cd_of w c'.
Proof. reflexivity. Qed.
Lemma cd_of_set_parsing (w : World) (b : bool) (c' : cdref) :
  cd_of (set_parsing b w) c' = cd_of w c'.
Proof. reflexivity. Qed.
Lemma pkg_of_upd_entry (w : World) (e : eref) (f : Entry.t → Entry.t) (p' : pref) :
  pkg_of (upd_entry e f w) p' = pkg_of w p'.
Proof. reflexivity. Qed.
Lemma pkg_of_upd_cd (w : World) (c : cdref) (f : CompileData.t → CompileData.t) (p' : pref) :
  pkg_of (upd_cd c f w) p' = pkg_of w p'.
Proof. reflexivity. Qed.
Lemma pkg_of_upd_mod (w : World) (m : mref) (f : HostModule.t → HostModule.t) (p' : pref) :
  pkg_of (upd_mod m f w) p' = pkg_of w p'.
Proof. reflexivity. Qed.
Lemma pkg_of_upd_obj (w : World) (o : oref) (f : Obj.t → Obj.t) (p' : pref) :
  pkg_of (upd_obj o f w) p' = pkg_of w p'.
Proof. reflexivity. Qed.
Lemma pkg_of_set_gen_state (w : World) (g : gref) (x : GenState) (p' : pref) :
  pkg_of (set_gen_state g x w) p' = pkg_of w p'.
Proof. reflexivity. Qed.
Lemma pkg_of_set_parsing (w : World) (b : bool) (p' : pref) :
  pkg_of (set_parsing b w) p' = pkg_of w p'.
Proof. reflexivity. Qed.
Lemma mod_of_upd_entry (w : World) (e : eref) (f : Entry.t → Entry.t) (m' : mref) :
  mod_of (upd_entry e f w) m' = mod_of w m'.
Proof. reflexivity. Qed.
Lemma mod_of_upd_cd (w : World) (c : cdref) (f : CompileData.t → CompileData.t) (m' : mref) :
  mod_of (upd_cd c f w) m' = mod_of w m'.
Proof. reflexivity. Qed.
Lemma mod_of_upd_pkg (w : World) (p : pref) (f : Package.t → Package.t) (m' : mref) :
  mod_of (upd_pkg p f w) m' = mod_of w m'.
Proof. reflexivity. Qed.
Lemma mod_of_upd_obj (w : World) (o : oref) (f : Obj.t → Obj.t) (m' : mref) :
  mod_of (upd_obj o f w) m' = mod_of w m'.
Proof. reflexivity. Qed.
Lemma mod_of_set_gen_state (w : World) (g : gref) (x : GenState) (m' : mref) :
  mod_of (set_gen_state g x w) m' = mod_of w m'.
Proof. reflexivity. Qed.
Lemma mod_of_set_parsing (w : World) (b : bool) (m' : mref) :
  mod_of (set_parsing b w) m' = mod_of w m'.
Proof. reflexivity. Qed.
Lemma obj_of_upd_entry (w : World) (e : eref) (f : Entry.t → Entry.t) (o' : oref) :
  obj_of (upd_entry e f w) o' = obj_of w o'.
Proof. reflexivity. Qed.
Lemma obj_of_upd_cd (w : World) (c : cdref) (f : CompileData.t → CompileData.t) (o' : oref) :
  obj_of (upd_cd c f w) o' = obj_of w o'.
Proof. reflexivity. Qed.
Lemma obj_of_upd_pkg (w : World) (p : pref) (f : Package.t → Package.t) (o' : oref) :
  obj_of (upd_pkg p f w) o' = obj_of w o'.
Proof. reflexivity. Qed.
Lemma obj_of_upd_mod (w : World) (m : mref) (f : HostModule.t → HostModule.t) (o' : oref) :
  obj_of (upd_mod m f w) o' = obj_of w o'.
Proof. reflexivity. Qed.
Lemma obj_of_set_gen_state (w : World) (g : gref) (x : GenState) (o' : oref) :
  obj_of (set_gen_state g x w) o' = obj_of w o'.
Proof. reflexivity. Qed.
Lemma obj_of_set_parsing (w : World) (b : bool) (o' : oref) :
  obj_of (set_parsing b w) o' = obj_of w o'.
Proof. reflexivity. Qed.
Lemma gen_of_upd_entry (w : World) (e : eref) (f : Entry.t → Entry.t) (g' : gref) :
  gen_of (upd_entry e f w) g' = gen_of w g'.
Proof. reflexivity. Qed.
Lemma gen_of_upd_cd (w : World) (c : cdref) (f : CompileData.t → CompileData.t) (g' : gref) :
  gen_of (upd_cd c f w) g' = gen_of w g'.
Proof. reflexivity. Qed.
Lemma gen_of_upd_pkg (w : World) (p : pref) (f : Package.t → Package.t) (g' : gref) :
  gen_of (upd_pkg p f w) g' = gen_of w g'.
Proof. reflexivity. Qed.
Lemma gen_of_upd_mod (w : World) (m : mref) (f : HostModule.t → HostModule.t) (g' : gref) :
  gen_of (upd_mod m f w) g' = gen_of w g'.
Proof. reflexivity. Qed.
Lemma gen_of_upd_obj (w : World) (o : oref) (f : Obj.t → Obj.t) (g' : gref) :
  gen_of (upd_obj o f w) g' = gen_of w g'.
Proof. reflexivity. Qed.
Lemma gen_of_set_parsing (w : World) (b : bool) (g' : gref) :
  gen_of (set_parsing b w) g' = gen_of w g'.
Proof. reflexivity. Qed.
Lemma parsing_upd_entry (w : World) (e : eref) (f : Entry.t → Entry.t) :
  parsing (upd_entry e f w) = parsing w.
Proof. reflexivity. Qed.
Lemma parsing_upd_cd (w : World) (c : cdref) (f : CompileData.t → CompileData.t) :
  parsing (upd_cd c f w) = parsing w.
Proof. reflexivity. Qed.
Lemma parsing_upd_pkg (w : World) (p : pref) (f : Package.t → Package.t) :
  parsing (upd_pkg p f w) = parsing w.
Proof. reflexivity. Qed.
Lemma parsing_upd_mod (w : World) (m : mref) (f : HostModule.t → HostModule.t) :
  parsing (upd_mod m f w) = parsing w.
Proof. reflexivity. Qed.
Lemma parsing_upd_obj (w : World) (o : oref) (f : Obj.t → Obj.t) :
  parsing (upd_obj o f w) = parsing w.
Proof. reflexivity. Qed.
Lemma parsing_set_gen_state (w : World) (g : gref) (x : GenState) :
  parsing (set_gen_state g x w) = parsing w.
Proof. reflexivity. Qed.
Lemma defaultPkg_upd_entry (w : World) (e : eref) (f : Entry.t → Entry.t) :
  defaultPkg (upd_entry e f w) = defaultPkg w.
Proof. reflexivity. Qed.
Lemma defaultPkg_upd_cd (w : World) (c : cdref) (f : CompileData.t → CompileData.t) :
  defaultPkg (upd_cd c f w) = defaultPkg w.
Proof. reflexivity. Qed.
Lemma defaultPkg_upd_pkg (w : World) (p : pref) (f : Package.t → Package.t) :
  defaultPkg (upd_pkg p f w) = defaultPkg w.
Proof. reflexivity. Qed.
Lemma defaultPkg_upd_mod (w : World) (m : mref) (f : HostModule.t → HostModule.t) :
  defaultPkg (upd_mod m f w) = defaultPkg w.
Proof. reflexivity. Qed.
Lemma defaultPkg_upd_obj (w : World) (o : oref) (f : Obj.t → Obj.t) :
  defaultPkg (upd_obj o f w) = defaultPkg w.
Proof. reflexivity. Qed.
Lemma defaultPkg_set_gen_state (w : World) (g : gref) (x : GenState) :
  defaultPkg (set_gen_state g x w) = defaultPkg w.
Proof. reflexivity. Qed.
Lemma defaultPkg_set_parsing (w : World) (b : bool) :
  defaultPkg (set_parsing b w) = defaultPkg w.
Proof. reflexivity. Qed.

Lemma parsing_set_parsing (w : World) (b : bool) : parsing (set_parsing b w) = b.
Proof. reflexivity. Qed.

Lemma debug_upd_entry (w : World) (e : eref) (f : Entry.t → Entry.t) :
  debug (upd_entry e f w) = debug w.
Proof. reflexivity. Qed.

Create Rewrite HintDb heap.
#[local] Hint Rewrite entry_of_upd_cd entry_of_upd_pkg entry_of_upd_mod entry_of_upd_obj
  entry_of_set_gen_state entry_of_set_parsing cd_of_upd_entry cd_of_upd_pkg
  cd_of_upd_mod cd_of_upd_obj cd_of_set_gen_state cd_of_set_parsing
  pkg_of_upd_entry pkg_of_upd_cd pkg_of_upd_mod pkg_of_upd_obj
  pkg_of_set_gen_state pkg_of_set_parsing mod_of_upd_entry mod_of_upd_cd
  mod_of_upd_pkg mod_of_upd_obj mod_of_set_gen_state mod_of_set_parsing
  obj_of_upd_entry obj_of_upd_cd obj_of_upd_pkg obj_of_upd_mod
  obj_of_set_gen_state obj_of_set_parsing gen_of_upd_entry gen_of_upd_cd
  gen_of_upd_pkg gen_of_upd_mod gen_of_upd_obj gen_of_set_parsing
  parsing_upd_entry parsing_upd_cd parsing_upd_pkg parsing_upd_mod
  parsing_upd_obj parsing_set_gen_state defaultPkg_upd_entry defaultPkg_upd_cd
  defaultPkg_upd_pkg defaultPkg_upd_mod defaultPkg_upd_obj defaultPkg_set_gen_state
  defaultPkg_set_parsing parsing_set_parsing debug_upd_entry : heap.
#[local] Hint Rewrite entry_of_upd_entry cd_of_upd_cd pkg_of_upd_pkg mod_of_upd_mod
  obj_of_upd_obj : heap.

Lemma entry_of_set_objects (w : World) (x : gmap oref Obj.t) (e : eref) :
  entry_of (set_objects x w) e = entry_of w e.
Proof. reflexivity. Qed.
Lemma cd_of_set_objects (w : World) (x : gmap oref Obj.t) (c : cdref) :
  cd_of (set_objects x w) c = cd_of w c.
Proof. reflexivity. Qed.
Lemma pkg_of_set_objects (w : World) (x : gmap oref Obj.t) (p : pref) :
  pkg_of (set_objects x w) p = pkg_of w p.
Proof. reflexivity. Qed.
Lemma mod_of_set_objects (w : World) (x : gmap oref Obj.t) (m : mref) :
  mod_of (set_objects x w) m = mod_of w m.
Proof. reflexivity. Qed.
#[local] Hint Rewrite entry_of_set_objects cd_of_set_objects pkg_of_set_objects
  mod_of_set_objects : heap.


(** ** Running the monad *)

Lemma run_bind {A B} (m : M A) (f : A → M B) (st : St) :
  (m ≫= f) st = match m st with
                | (Ret a, st') => f a st'
                | (Throw e, st') => (Throw e, st')
                end.
Proof. reflexivity. Qed.

Section InvRules.
Context (I : St → Prop).

Lemma inv_ret {A} (a : A) : inv I (mret a).
Proof. by intros st. Qed.

Lemma inv_throw {A} (e : Err.t) : inv I (throw e : M A).
Proof. by intros st. Qed.

Lemma inv_get_world : inv I get_world.
Proof. by intros st. Qed.

Lemma inv_deref {A} what (x : option A) : inv I (deref what x).
Proof. by destruct x; intros st. Qed.

Lemma inv_bind {A B} (m : M A) (f : A → M B) :
  inv I m → (∀ a, inv I (f a)) → inv I (m ≫= f).
Proof.
  intros Hm Hf st HI. rewrite run_bind. specialize (Hm st HI).
  destruct (m st) as [[a|e] st']; simpl in *; [by apply Hf|done].
Qed.

Lemma inv_try_catch {A} (m : M A) (h : Err.t → M A) :
  inv I m → (∀ e, inv I (h e)) → inv I (try_catch m h).
Proof.
  intros Hm Hh st HI. unfold try_catch. specialize (Hm st HI).
  destruct (m st) as [[a|e] st']; simpl in *; [done|by apply Hh].
Qed.

Lemma inv_try_finally {A} (m : M A) (f : World → World) :
  inv I m → inv I (modify f) → inv I (try_finally m f).
Proof.
  intros Hm Hf st HI. unfold try_finally. specialize (Hm st HI).
  destruct (m st) as [r st']; simpl in *. exact (Hf st' Hm).
Qed.
End InvRules.

Lemma inv_modify (I : St → Prop) (f : World → World) :
  (∀ st, I st → I (mkSt (f (world st)) (calls st))) → inv I (modify f).
Proof. intros Hf st HI. by apply Hf. Qed.

Lemma inv_alloc (I : St → Prop) {A} (f : World → A * World) :
  (∀ st, I st → I (mkSt (f (world st)).2 (calls st))) → inv I (alloc f).
Proof.
  intros Hf st HI. specialize (Hf st HI). unfold alloc.
  by destruct (f (world st)).
Qed.

Lemma inv_call (I : St → Prop) {A} (ev : Event) (f : World → Res A * World) :
  (∀ st, I st → I (mkSt (f (world st)).2 (calls st ++ [ev]))) → inv I (call ev f).
Proof.
  intros Hf st HI. specialize (Hf st HI). unfold call.
  by destruct (f (world st)).
Qed.

Lemma inv_call_total (I : St → Prop) {A} (ev : Event) (f : World → A * World) :
  (∀ st, I st → I (mkSt (f (world st)).2 (calls st ++ [ev]))) → inv I (call_total ev f).
Proof.
  intros Hf st HI. specialize (Hf st HI). unfold call_total.
  by destruct (f (world st)).
Qed.

Create HintDb inv.
#[local] Hint Resolve inv_ret inv_throw inv_get_world inv_deref : inv.
#[local] Hint Resolve st_entry_state st_entry_running st_entry_runtime
  st_entry_circular st_cd_code st_cd_circular st_mod_loaded st_mod_exports
  st_obj_runResult st_gen_state st_pkg_dirty st_create st_new_generator
  st_enable st_generator_compile st_next st_loaded st_updateBindings
  st_finalizeNamespace st_entry_get : inv.

Ltac inv_step :=
  match goal with
  | |- inv _ (_ ≫= _) => apply inv_bind; [|intros]
  | |- inv _ (try_catch _ _) => apply inv_try_catch; [|intros]
  | |- inv _ (try_finally _ _) => apply inv_try_finally
  | |- inv _ (match ?x with _ => _ end) => destruct x
  | |- inv _ _ => solve [eauto with inv]
  end.

Ltac inv_auto := repeat inv_step.

Section InvBlocks.
Context (H : Host) (I : St → Prop) (HS : Stable H I).

Lemma inv_runResult_dot_next rr : inv I (runResult_dot_next H rr).
Proof. unfold runResult_dot_next. inv_auto. Qed.

Lemma inv_loaded_setter e this v : inv I (loaded_setter H e this v).
Proof. unfold loaded_setter, setProperty_loaded. inv_auto. Qed.

Lemma inv_assign_loaded m v : inv I (assign_loaded H m v).
Proof. unfold assign_loaded. inv_auto. apply inv_loaded_setter. Qed.

Lemma inv_useSourceMap e : inv I (useSourceMap H e).
Proof. unfold useSourceMap. inv_auto. Qed.

Lemma inv_tryRun_runtime e isESM cd : inv I (tryRun_runtime H e isESM cd).
Proof. unfold tryRun_runtime. inv_auto. Qed.

Lemma inv_tryRun_resume e p fp rr err : inv I (tryRun_resume H e p fp rr err).
Proof.
  unfold tryRun_resume. inv_auto. apply inv_runResult_dot_next.
Qed.

Lemma inv_tryRun_read e rr err res : inv I (tryRun_read H e rr err res).
Proof.
  unfold tryRun_read. inv_auto. apply inv_runResult_dot_next.
Qed.

Lemma inv_tryRun_succeed e m p isESM fp res : inv I (tryRun_succeed H e m p isESM fp res).
Proof.
  unfold tryRun_succeed. inv_auto. apply inv_assign_loaded.
Qed.

Lemma inv_tryRun_fail e f isESM err : inv I (tryRun_fail H e f isESM err).
Proof. unfold tryRun_fail. inv_auto. Qed.

Lemma inv_tryRun_firstPass e f isESM m cd async cjsVars r :
  StableHostCompile H I →
  inv I (tryRun_firstPass H e f isESM m cd async cjsVars r).
Proof.
  intros HC. unfold tryRun_firstPass. inv_auto; apply inv_useSourceMap.
Qed.

Lemma inv_tryRun e f : StableHostCompile H I → inv I (tryRun H e f).
Proof.
  intros HC. unfold tryRun. cbv zeta. inv_auto.
  all: eauto using inv_tryRun_runtime, inv_tryRun_firstPass, inv_tryRun_resume,
         inv_tryRun_read, inv_tryRun_succeed, inv_tryRun_fail.
Qed.
End InvBlocks.

(** ** Errors of the run *)

Lemma tryRun_fail_spec (H : Host) (entry : eref) (filename : string)
    (isESM : bool) (error : Err.t) (st : St) :
  let w := world st in
  let pkg := Entry.package (entry_of w entry) in
  let quiet := debug w || negb (isStackTraceMaskable H error) in
  let marks :=
    isESM && (String.eqb (Err.name error) "SyntaxError"
              || String.eqb (Err.name error) "ReferenceError"
                 && exportsRegExp_test (Err.message error)) in
  ∃ st',
    tryRun_fail H entry filename isESM error st
      = (Throw (rethrown H w filename isESM error), st')
    ∧ Package.cache_dirty (pkg_of (world st') pkg)
      = Package.cache_dirty (pkg_of w pkg) || negb quiet && marks
    ∧ Entry.state (entry_of (world st') entry) = STATE_EXECUTION_COMPLETED
    ∧ calls st' = calls st.
Proof.
  intros w pkg quiet marks. unfold tryRun_fail, rethrown.
  rewrite run_bind. cbn [modify]. rewrite run_bind. cbn [get_world world].
  assert (Hdbg : debug (upd_entry entry (Entry.set_state STATE_EXECUTION_COMPLETED) (world st))
                 = debug w) by reflexivity.
  rewrite Hdbg. fold quiet. destruct quiet eqn:Hq.
  - eexists; split; [reflexivity|]. cbn [world calls].
    rewrite entry_of_upd_entry, decide_True by done.
    split; [|done]. by rewrite orb_false_r.
  - rewrite run_bind.
    assert (Hpkg : Entry.package
              (entry_of (upd_entry entry (Entry.set_state STATE_EXECUTION_COMPLETED)
                                   (world st)) entry) = pkg).
    { by rewrite entry_of_upd_entry, decide_True. }
    rewrite Hpkg. fold marks. destruct marks eqn:Hm; cbn.
    + eexists; split; [reflexivity|]. cbn [world calls].
      rewrite pkg_of_upd_pkg, decide_True by done.
      split; [by rewrite orb_true_r|]. split; [|done].
      change (entry_of (upd_pkg pkg (Package.set_cache_dirty true)
                (upd_entry entry (Entry.set_state STATE_EXECUTION_COMPLETED) (world st)))
                entry)
        with (entry_of (upd_entry entry (Entry.set_state STATE_EXECUTION_COMPLETED)
                                  (world st)) entry).
      by rewrite entry_of_upd_entry, decide_True.
    + eexists; split; [reflexivity|]. cbn [world calls].
      split; [by rewrite orb_false_r|].
      by rewrite entry_of_upd_entry, decide_True.
Qed.

(** C9 (amended). When the run of an entry has thrown [error], [tryRun]
    rethrows it, never swallowing it, and calls no collaborator. In debug
    mode, or when the error is not maskable, it is rethrown as it is and the
    package cache is left as it was. Otherwise the cache of the owning
    package is marked dirty exactly when the entry is Declarative and the
    error is a SyntaxError, or a ReferenceError whose message has the word
    [exports] before its first line break ([exportsRegExp]). *)
Theorem tryRun_fail_marks_dirty (H : Host) (entry : eref) (filename : string)
    (isESM : bool) (error : Err.t) (st : St) :
  let w := world st in
  let pkg := Entry.package (entry_of w entry) in
  let quiet := debug w || negb (isStackTraceMaskable H error) in
  let marks :=
    isESM && (String.eqb (Err.name error) "SyntaxError"
              || String.eqb (Err.name error) "ReferenceError"
                 && exportsRegExp_test (Err.message error)) in
  ∃ st',
    tryRun_fail H entry filename isESM error st
      = (Throw (rethrown H w filename isESM error), st')
    ∧ Package.cache_dirty (pkg_of (world st') pkg)
      = Package.cache_dirty (pkg_of w pkg) || negb quiet && marks
    ∧ Entry.state (entry_of (world st') entry) = STATE_EXECUTION_COMPLETED
    ∧ calls st' = calls st.
Proof. apply tryRun_fail_spec. Qed.

Lemma tryRun_runtime_stored (H : Host) (entry : eref) (isESM : bool)
    (compileData : option cdref) (st : St) (r : oref) :
  Entry.runtime (entry_of (world st) entry) = Some r →
  tryRun_runtime H entry isESM compileData st = (Ret r, st).
Proof.
  intros Hr. unfold tryRun_runtime. rewrite run_bind. cbn [get_world world].
  by rewrite Hr.
Qed.

Lemma tryRun_resume_skip (H : Host) (entry : eref) (parsing firstPass : bool)
    (rr : option RunResult) (error : option Err.t) (st : St) :
  negb (threw error) && negb parsing && firstPass = false →
  tryRun_resume H entry parsing firstPass rr error st = (Ret error, st).
Proof. intros Hc. unfold tryRun_resume. by rewrite Hc. Qed.

Lemma tryRun_read_skip (H : Host) (entry : eref) (rr : option RunResult)
    (error : Err.t) (result : Value) (st : St) :
  tryRun_read H entry rr (Some error) result st = (Ret (Some error, result), st).
Proof. reflexivity. Qed.

Lemma tryRun_later_pass_await (H : Host) (entry : eref) (filename : string)
    (st : St) (c : cdref) (r : oref) (rr : RunResult) (loc : Loc) :
  let w := world st in
  Entry.compileData (entry_of w entry) = Some c →
  Entry.runtime (entry_of w entry) = Some r →
  Obj._runResult (obj_of w r) = Some rr →
  Entry.running (entry_of w entry) = false →
  useAsync H entry w = true →
  Entry.type (entry_of w entry) = TYPE_ESM →
  CompileData.firstAwaitOutsideFunction (cd_of w c) = Some loc →
  Entry.getters (entry_of w entry) ≠ [] →
  ∃ st', tryRun H entry filename st
         = (Throw (rethrown H w filename true (illegal_await H loc)), st').
Proof.
  intros w Hcd Hrt Hrr Hrun Hasync Htype Hloc Hget. subst w.
  unfold tryRun. rewrite run_bind. cbn [get_world world]. cbv zeta.
  rewrite run_bind, (tryRun_runtime_stored _ _ _ _ _ r Hrt).
  rewrite Hcd, Htype, Hasync, bool_decide_true by done.
  rewrite run_bind. cbn [modify]. rewrite run_bind. cbn [get_world world].
  change (obj_of (upd_entry entry _ (world st)) r) with (obj_of (world st) r).
  rewrite Hrr. rewrite run_bind. cbn [mret M_ret]. rewrite run_bind.
  cbn [get_world world].
  rewrite run_bind, tryRun_resume_skip by apply andb_false_r.
  rewrite run_bind. cbn [deref mret M_ret]. rewrite run_bind. cbn [get_world world].
  set (st1 := mkSt _ _).
  assert (Hv : tryRun_validate H entry true true c None (world st1)
               = Some (illegal_await H loc)).
  { unfold tryRun_validate, st1. cbn [world].
    change (cd_of (upd_entry entry _ (world st)) c) with (cd_of (world st) c).
    rewrite Hloc, entry_of_upd_entry, decide_True by done.
    cbn [Entry.running Entry.set_state Entry.getters threw negb andb].
    rewrite Hrun. destruct (Entry.getters (entry_of (world st) entry)); done. }
  unfold st1 in Hv at 1. cbn [world] in Hv. rewrite Hv, run_bind, tryRun_read_skip.
  destruct (tryRun_fail_spec H entry filename true (illegal_await H loc) st1)
    as (st' & Hfail & _).
  exists st'. exact Hfail.
Qed.

(** C1 (amended). The check of lines 346-359 turns a run without error into
    a SyntaxError with the text [ILLEGAL_AWAIT_IN_NON_ASYNC_FUNCTION], the
    recorded line and column and [inModule = true] when the entry is not
    running, [async] is eligible, the entry is Declarative, the compile data
    records an [await] outside any function, and the entry HAS live-binding
    getters ([entry.getters] is not empty). When any of these fails, the
    check leaves [threw]/[error] as they were. On a pass after the first,
    where nothing runs before the check, [tryRun] then throws that error. *)
Theorem tryRun_illegal_await (H : Host) (entry : eref) (c : cdref) :
  (∀ (async isESM : bool) (error : option Err.t) (w : World) (loc : Loc),
      CompileData.firstAwaitOutsideFunction (cd_of w c) = Some loc →
      threw error = false →
      Entry.running (entry_of w entry) = false →
      async = true →
      isESM = true →
      Entry.getters (entry_of w entry) ≠ [] →
      tryRun_validate H entry async isESM c error w = Some (illegal_await H loc))
  ∧ (∀ (async isESM : bool) (error : option Err.t) (w : World),
      CompileData.firstAwaitOutsideFunction (cd_of w c) = None
      ∨ threw error = true
      ∨ Entry.running (entry_of w entry) = true
      ∨ async = false
      ∨ isESM = false
      ∨ Entry.getters (entry_of w entry) = [] →
      tryRun_validate H entry async isESM c error w = error)
  ∧ (∀ (filename : string) (st : St) (r : oref) (rr : RunResult) (loc : Loc),
      Entry.compileData (entry_of (world st) entry) = Some c →
      Entry.runtime (entry_of (world st) entry) = Some r →
      Obj._runResult (obj_of (world st) r) = Some rr →
      Entry.running (entry_of (world st) entry) = false →
      useAsync H entry (world st) = true →
      Entry.type (entry_of (world st) entry) = TYPE_ESM →
      CompileData.firstAwaitOutsideFunction (cd_of (world st) c) = Some loc →
      Entry.getters (entry_of (world st) entry) ≠ [] →
      ∃ st', tryRun H entry filename st
             = (Throw (rethrown H (world st) filename true (illegal_await H loc)), st')).
Proof.
  split; [|split].
  - intros async isESM error w loc Hloc Hthrew Hrun -> -> Hget.
    unfold tryRun_validate. rewrite Hloc, Hthrew, Hrun.
    by destruct (Entry.getters (entry_of w entry)).
  - intros async isESM error w Hor. unfold tryRun_validate.
    destruct (CompileData.firstAwaitOutsideFunction (cd_of w c)) as [loc|]; [|done].
    destruct Hor as [Hn|[->|[->|[->|[->| ->]]]]]; [done|..];
      rewrite ?andb_false_r; done.
  - intros filename st r rr loc. apply tryRun_later_pass_await.
Qed.

Lemma tryRun_illegal_await_witness :
  let H := Demo.host None in
  let d := Demo.compileData 0 (-1) (Some {| loc_line := 3; loc_column := 7 |}) in
  let exporting := Demo.entry TYPE_ESM STATE_PARSING_COMPLETED (Some 1%nat) [("x", 0%nat)] in
  let bare := Demo.entry TYPE_ESM STATE_PARSING_COMPLETED (Some 1%nat) [] in
  tryRun_validate H 1%nat true true 1%nat None (Demo.heap exporting d false)
  = Some (Err.mk "SyntaxError" "await is only valid in async function"
                 (Some 3) (Some 7) (Some true) false)
  ∧ tryRun_validate H 1%nat true true 1%nat None (Demo.heap bare d false) = None
  ∧ ∃ st', tryRun H 1%nat "a.js" (Demo.start (Demo.after_a_pass (Demo.heap exporting d false)))
           = (Throw (Err.mk "SyntaxError" "await is only valid in async function"
                            (Some 3) (Some 7) (Some true) true), st').
Proof.
  intros H d exporting bare.
  destruct (tryRun_illegal_await H 1%nat 1%nat) as (Hraise & Hpass & Hrun).
  split; [|split].
  - apply (Hraise true true None (Demo.heap exporting d false)
                  {| loc_line := 3; loc_column := 7 |}); by vm_compute.
  - apply (Hpass true true None (Demo.heap bare d false)).
    do 5 right. by vm_compute.
  - apply (Hrun "a.js" (Demo.start (Demo.after_a_pass (Demo.heap exporting d false)))
                0%nat (RunHost 1) {| loc_line := 3; loc_column := 7 |}); by vm_compute.
Defined.

(** C1 as stated fails: a Declarative entry without live-binding getters,
    not running, eligible for [async], whose compile data records an [await]
    outside any function at line 3, column 7: the run raises nothing and
    returns the module's result. *)
Lemma tryRun_no_getters_no_error :
  let H := Demo.host None in
  let d := Demo.compileData 0 (-1) (Some {| loc_line := 3; loc_column := 7 |}) in
  let bare := Demo.entry TYPE_ESM STATE_PARSING_COMPLETED (Some 1%nat) [] in
  let w := Demo.after_a_pass (Demo.heap bare d false) in
  Entry.type (entry_of w 1%nat) = TYPE_ESM
  ∧ Entry.running (entry_of w 1%nat) = false
  ∧ useAsync H 1%nat w = true
  ∧ CompileData.firstAwaitOutsideFunction (cd_of w 1%nat)
    = Some {| loc_line := 3; loc_column := 7 |}
  ∧ Entry.getters (entry_of w 1%nat) = []
  ∧ fst (tryRun H 1%nat "a.js" (Demo.start w)) = Ret (VNum 42).
Proof. by vm_compute. Qed.

(** C9 as stated fails: the module of a Declarative entry throws a maskable
    ReferenceError, outside debug mode, whose message contains the word
    [exports] on its second line. [tryRun] rethrows it and leaves the cache
    of the package clean. *)
Lemma tryRun_exports_after_line_break :
  let error :=
    Err.mk "ReferenceError" ("x" ++ String (ascii_of_nat 10) "exports is not defined")
           None None None false in
  let H := Demo.host (Some error) in
  let w := Demo.heap (Demo.entry TYPE_ESM STATE_INITIAL (Some 1%nat) [])
                     (Demo.compileData 0 (-1) None) false in
  let run := tryRun H 1%nat "a.js" (Demo.start w) in
  Entry.type (entry_of w 1%nat) = TYPE_ESM
  ∧ isStackTraceMaskable H error = true
  ∧ debug w = false
  ∧ mentions_exports_word (Err.message error) = true
  ∧ exportsRegExp_test (Err.message error) = false
  ∧ Package.cache_dirty (pkg_of w 0%nat) = false
  ∧ fst run = Throw (maskStackTrace H error None "a.js" (Some true))
  ∧ Package.cache_dirty (pkg_of (world (snd run)) 0%nat) = false.
Proof. by vm_compute. Qed.

Example exportsRegExp_samples :
  exportsRegExp_test "exports is not defined" = true
  ∧ exportsRegExp_test "module.exports is read-only" = true
  ∧ exportsRegExp_test "myexports is not defined" = false
  ∧ exportsRegExp_test "exports_1 is not defined" = false
  ∧ exportsRegExp_test "x is not defined" = false.
Proof. by vm_compute. Qed.

(** ** The compile data of an entry *)

(** Read the fields of records just written. *)
Ltac fields :=
  cbn [Entry.module Entry.package Entry.extname Entry.cacheName Entry.mtime
       Entry.runtimeName Entry.state Entry.type Entry.compileData Entry.runtime
       Entry.circular Entry.running Entry.children Entry.getters
       Entry._namespaceFinalized Entry.set_state Entry.set_type
       Entry.set_compileData Entry.set_runtime Entry.set_circular
       Entry.set_running
       CompileData.code CompileData.sourceType CompileData.transforms
       CompileData.scriptData CompileData.codeWithTDZ CompileData.circular
       CompileData.firstAwaitOutsideFunction CompileData.set_code
       CompileData.set_transforms CompileData.set_scriptData
       CompileData.set_circular
       Package.options Package.cachePath Package.cache_compile
       Package.cache_dirty Package.set_cache_compile Package.set_cache_dirty
       HostModule.exports HostModule.loaded HostModule.parent
       HostModule.set_exports HostModule.set_loaded
       Obj._runResult Obj.props Obj.set_runResult] in *.

Ltac heap :=
  repeat first
    [ progress autorewrite with heap in *
    | rewrite decide_True in * by done
    | rewrite decide_False in * by done
    | rewrite bool_decide_true in * by done
    | rewrite bool_decide_false in * by done
    | progress fields ].

Ltac mrun :=
  repeat first
    [ rewrite run_bind
    | progress unfold call, call_total, alloc, try_catch, try_finally
    | progress cbn [get_world modify mret M_ret throw deref world calls fst snd] ].

Lemma compile_data_fresh (H : Host) (caller : nat) (entry : eref)
    (content filename : string) (pkg : pref) (options : Options.t)
    (isDefaultPkg : bool) (hint sourceType : SourceType)
    (st0 : St) (cached : option cdref) (w1 : World) (c : cdref) (w2 : World) :
  Entry.compileData (entry_of (world st0) entry) = None →
  CachingCompiler_from H entry (world st0) = (cached, w1) →
  stale w1 cached = true →
  CachingCompiler_compile H content
    (compile_options w1 entry filename pkg options hint sourceType) w1 = (Ret c, w2) →
  let resolved :=
    if bool_decide (CompileData.sourceType (cd_of w2 c) = SOURCE_TYPE_MODULE)
    then TYPE_ESM else Entry.type (entry_of w2 entry) in
  let discard :=
    isDefaultPkg && bool_decide (resolved = TYPE_CJS)
    && Z.eqb (CompileData.transforms (cd_of w2 c)) (TRANSFORMS_EVAL H) in
  ∃ st',
    compile_data H caller entry content filename pkg options isDefaultPkg
                 hint sourceType st0 = (Ret (Some c), st')
    ∧ Entry.type (entry_of (world st') entry) = resolved
    ∧ Entry.compileData (entry_of (world st') entry) = Some c
    ∧ calls st'
      = (calls st0 ++ [EvFrom entry;
                       EvCachingCompile content
                         (compile_options w1 entry filename pkg options hint sourceType)])%list
    ∧ CompileData.transforms (cd_of (world st') c)
      = (if discard then 0 else CompileData.transforms (cd_of w2 c))
    ∧ CompileData.code (cd_of (world st') c)
      = (if discard then Some content
         else Some (default content (CompileData.code (cd_of w2 c)))).
Proof.
  intros Hnone Hfrom Hstale Hcomp resolved discard.
  unfold compile_data, tryCompile. mrun. rewrite Hnone. mrun. rewrite Hfrom. mrun.
  fold (stale w1 cached). rewrite Hstale. mrun. rewrite Hcomp. mrun.
  heap. subst resolved discard.
  destruct (bool_decide (CompileData.sourceType (cd_of w2 c) = SOURCE_TYPE_MODULE));
    mrun; heap; rewrite ?andb_false_r; cbn [andb]; mrun.
  - destruct (CompileData.code (cd_of w2 c)) eqn:Hcode; mrun; heap; rewrite ?Hcode; mrun;
      (eexists; split; [reflexivity|]); cbn [world calls]; heap;
      rewrite <- ?app_assoc; by rewrite ?Hcode.
  - destruct (isDefaultPkg && bool_decide (Entry.type (entry_of w2 entry) = TYPE_CJS)
              && Z.eqb (CompileData.transforms (cd_of w2 c)) (TRANSFORMS_EVAL H));
      mrun; heap.
    + (eexists; split; [reflexivity|]); cbn [world calls]; heap;
      rewrite <- ?app_assoc; done.
    + destruct (CompileData.code (cd_of w2 c)) eqn:Hcode; mrun; heap; rewrite ?Hcode; mrun;
        (eexists; split; [reflexivity|]); cbn [world calls]; heap;
      rewrite <- ?app_assoc; by rewrite ?Hcode.
Qed.

(** C7. When [compile] has the source compiled afresh, the transformed code
    is discarded exactly when the package is the default one, the entry's
    type, once resolved, is [TYPE_CJS], and the transforms of the new compile
    data are [TRANSFORMS_EVAL] and nothing else: then [code] is the original
    source text and [transforms] is zero. For any other package, type or
    transforms the compile data keeps the transforms the compiler gave it
    and its code (the source text only where the compiler gave no code). *)
Theorem compile_discards_eval_only (H : Host) (caller : nat) (entry : eref)
    (content filename : string) (pkg : pref) (options : Options.t)
    (isDefaultPkg : bool) (hint sourceType : SourceType)
    (st0 : St) (cached : option cdref) (w1 : World) (c : cdref) (w2 : World) :
  Entry.compileData (entry_of (world st0) entry) = None →
  CachingCompiler_from H entry (world st0) = (cached, w1) →
  stale w1 cached = true →
  CachingCompiler_compile H content
    (compile_options w1 entry filename pkg options hint sourceType) w1 = (Ret c, w2) →
  let resolved :=
    if bool_decide (CompileData.sourceType (cd_of w2 c) = SOURCE_TYPE_MODULE)
    then TYPE_ESM else Entry.type (entry_of w2 entry) in
  let discard :=
    isDefaultPkg && bool_decide (resolved = TYPE_CJS)
    && Z.eqb (CompileData.transforms (cd_of w2 c)) (TRANSFORMS_EVAL H) in
  ∃ st',
    compile_data H caller entry content filename pkg options isDefaultPkg
                 hint sourceType st0 = (Ret (Some c), st')
    ∧ Entry.type (entry_of (world st') entry) = resolved
    ∧ CompileData.transforms (cd_of (world st') c)
      = (if discard then 0 else CompileData.transforms (cd_of w2 c))
    ∧ CompileData.code (cd_of (world st') c)
      = (if discard then Some content
         else Some (default content (CompileData.code (cd_of w2 c)))).
Proof.
  intros Hnone Hfrom Hstale Hcomp resolved discard.
  destruct (compile_data_fresh H caller entry content filename pkg options
              isDefaultPkg hint sourceType st0 cached w1 c w2
              Hnone Hfrom Hstale Hcomp) as (st' & Hrun & Htype & _ & _ & Htr & Hcode).
  exists st'. done.
Qed.

Lemma compile_discards_eval_only_witness :
  let H := Demo.host None in
  let w := Demo.heap (Demo.entry TYPE_CJS STATE_INITIAL None [])
                     (Demo.compileData 0 (-1) None) false in
  ∃ st',
    compile_data H 0%nat 1%nat "exports.a = 1" "a.js" 0%nat Demo.options true
                 SOURCE_TYPE_SCRIPT SOURCE_TYPE_SCRIPT (Demo.start w)
    = (Ret (Some 2%nat), st')
    ∧ Entry.type (entry_of (world st') 1%nat) = TYPE_CJS
    ∧ CompileData.transforms (cd_of (world st') 2%nat) = 0
    ∧ CompileData.code (cd_of (world st') 2%nat) = Some "exports.a = 1".
Proof.
  intros H w.
  pose proof (compile_discards_eval_only H 0%nat 1%nat "exports.a = 1" "a.js" 0%nat
           Demo.options true SOURCE_TYPE_SCRIPT SOURCE_TYPE_SCRIPT (Demo.start w)
           None w 2%nat
           (snd (CachingCompiler_compile H "exports.a = 1"
                   (compile_options w 1%nat "a.js" 0%nat Demo.options
                                    SOURCE_TYPE_SCRIPT SOURCE_TYPE_SCRIPT) w))
           ltac:(by vm_compute) ltac:(by vm_compute) ltac:(by vm_compute)
           ltac:(by vm_compute)) as Hthm.
  vm_compute in Hthm |- *. exact Hthm.
Defined.

(** The other side of C7 on the same loader: in a package that is not the
    default one the [eval]-only code is kept. *)
Example compile_keeps_eval_elsewhere :
  let H := Demo.host None in
  let w := Demo.heap (Demo.entry TYPE_CJS STATE_INITIAL None [])
                     (Demo.compileData 0 (-1) None) false in
  let st' := snd (compile_data H 0%nat 1%nat "exports.a = 1" "a.js" 0%nat Demo.options
                               false SOURCE_TYPE_SCRIPT SOURCE_TYPE_SCRIPT (Demo.start w)) in
  CompileData.transforms (cd_of (world st') 2%nat) = 4
  ∧ CompileData.code (cd_of (world st') 2%nat) = Some "eval:exports.a = 1".
Proof. by vm_compute. Qed.

(** ** Invariants of [compile] *)

Section InvCompile.
Context (H : Host) (I : St → Prop) (HS : Stable H I).
Context (HC : StableHostCompile H I) (HP : StableParsing I).

Lemma inv_compile_gate e isESM : inv I (compile_gate e isESM).
Proof. unfold compile_gate. inv_auto. Qed.

Lemma inv_compile_circular e c : inv I (compile_circular e c).
Proof. unfold compile_circular. inv_auto. Qed.

Lemma inv_compile_swap e m c : inv I (compile_swap e m c).
Proof. unfold compile_swap. inv_auto. Qed.

Lemma inv_compile_finish e sl res : inv I (compile_finish H e sl res).
Proof. unfold compile_finish. inv_auto. Qed.

Lemma inv_compile_esm e f m cd sl : inv I (compile_esm H e f m cd sl).
Proof.
  unfold compile_esm. inv_auto;
    first [by apply inv_tryRun | apply inv_compile_circular
          | apply inv_compile_swap | apply inv_compile_finish].
Qed.

Lemma inv_compile_frames frames fallback :
  inv I (call EvFallback fallback) → inv I (compile_frames H frames fallback).
Proof. intros Hf. induction frames as [|p rest IH]; simpl; inv_auto. Qed.

Lemma inv_compile_fallback m d dp fallback :
  inv I (call EvFallback fallback) → inv I (compile_fallback H m d dp fallback).
Proof.
  intros Hf. unfold compile_fallback. inv_auto. by apply inv_compile_frames.
Qed.

Lemma inv_compile_run e f m d dp cd fallback :
  StableFallback I fallback → inv I (compile_run H e f m d dp cd fallback).
Proof.
  intros Hf. unfold compile_run. cbv zeta. inv_auto.
  all: try apply inv_compile_gate; try (by apply inv_tryRun).
  all: try apply inv_compile_esm.
  all: try (by apply inv_compile_fallback).
  all: match goal with
       | |- inv _ (modify (λ w, if ?b then _ else _)) =>
           destruct b; [apply HP|by intros [w l] HI]
       end.
Qed.

(** With compile data on the entry, lines 87-136 call nobody. *)
Lemma inv_compile_data_reuse caller e content f pkg options d hint sourceType :
  (∀ st, I st → Entry.compileData (entry_of (world st) e) ≠ None) →
  inv I (compile_data H caller e content f pkg options d hint sourceType).
Proof.
  intros Hhas st HI. specialize (Hhas st HI).
  unfold compile_data. mrun.
  destruct (Entry.compileData (entry_of (world st) e)) as [c|]; [|done]. mrun.
  destruct (CompileData.code (cd_of (world st) c)); mrun; [by destruct st|].
  apply (st_cd_code _ _ HS c (Some content) st HI).
Qed.

Lemma inv_compile caller e content f fallback :
  (∀ st, I st → Entry.compileData (entry_of (world st) e) ≠ None) →
  StableFallback I fallback →
  inv I (compile H caller e content f fallback).
Proof.
  intros Hhas Hf. unfold compile. apply inv_bind; [apply inv_get_world|].
  intros w. cbv zeta. destruct (compile_sourceType _ _).
  apply inv_bind; [by apply inv_compile_data_reuse|].
  intros cd. by apply inv_compile_run.
Qed.
End InvCompile.

(** ** Collaborators that keep a property of the heap *)

Lemma count_calls_snoc (p : Event → bool) (l : list Event) (ev : Event) :
  count_calls p (l ++ [ev]) = (count_calls p l + if p ev then 1 else 0)%nat.
Proof.
  unfold count_calls. rewrite List.filter_app, length_app. simpl.
  by destruct (p ev).
Qed.

Lemma stable_keeps (H : Host) (P : World → Prop) (p : Event → bool) (n : nat) :
  HostKeeps H P → WritesKeep P → uncounted p →
  Stable H (λ st, P (world st) ∧ count_calls p (calls st) = n).
Proof.
  intros HK HW (p1 & p2 & p3 & p4 & p5 & p6 & p7).
  constructor; intros;
    first [apply inv_modify | apply inv_alloc | apply inv_call | apply inv_call_total];
    intros st [HPw Hn]; cbn [world calls];
    rewrite ?count_calls_snoc, ?p1, ?p2, ?p3, ?p4, ?p5, ?p6, ?p7, ?Nat.add_0_r;
    (split; [|done]).
  - by apply wk_entry_state.
  - by apply wk_entry_running.
  - by apply wk_entry_runtime.
  - by apply wk_entry_circular.
  - by apply wk_cd_code.
  - by apply wk_cd_circular.
  - by apply wk_mod_loaded.
  - by apply wk_mod_exports.
  - by apply wk_obj_runResult.
  - by apply wk_gen_state.
  - by apply wk_pkg_dirty.
  - by apply wk_create.
  - by apply wk_new_generator.
  - by apply keeps_enable.
  - by apply keeps_mod_compile.
  - by apply keeps_next.
  - by apply keeps_loaded.
  - by apply keeps_updateBindings.
  - by apply keeps_finalizeNamespace.
  - by apply keeps_entry_get.
Qed.

Lemma stable_host_compile_keeps (H : Host) (P : World → Prop) (p : Event → bool) (n : nat) :
  HostKeeps H P → (∀ m s f, p (EvHostCompile m s f) = false) →
  StableHostCompile H (λ st, P (world st) ∧ count_calls p (calls st) = n).
Proof.
  intros HK Hp m s f. apply inv_call. intros st [HPw Hn]. cbn [world calls].
  rewrite count_calls_snoc, Hp, Nat.add_0_r. split; [|done].
  by apply keeps_mod_compile.
Qed.

Lemma has_compileData_writes (entry : eref) : WritesKeep (has_compileData entry).
Proof.
  constructor; intros; unfold has_compileData in *; heap; try done;
    case_decide; subst; by fields.
Qed.

Lemma has_compileData_parsing (entry : eref) (b : bool) (w : World) :
  has_compileData entry w → has_compileData entry (set_parsing b w).
Proof. done. Qed.

(** ** Repeated compile requests *)

Lemma compile_data_reuse (H : Host) (caller : nat) (entry : eref)
    (content filename : string) (pkg : pref) (options : Options.t)
    (isDefaultPkg : bool) (hint sourceType : SourceType) (st : St) (c : cdref) :
  Entry.compileData (entry_of (world st) entry) = Some c →
  ∃ st', compile_data H caller entry content filename pkg options isDefaultPkg
                      hint sourceType st = (Ret (Some c), st')
         ∧ calls st' = calls st
         ∧ Entry.compileData (entry_of (world st') entry) = Some c.
Proof.
  intros Hc. unfold compile_data. mrun. rewrite Hc. mrun.
  destruct (CompileData.code (cd_of (world st) c)); mrun;
    (eexists; split; [reflexivity|]); cbn [world calls]; heap; done.
Qed.

Lemma compile_data_cached (H : Host) (caller : nat) (entry : eref)
    (content filename : string) (pkg : pref) (options : Options.t)
    (isDefaultPkg : bool) (hint sourceType : SourceType) (st : St)
    (c : cdref) (w1 : World) :
  Entry.compileData (entry_of (world st) entry) = None →
  CachingCompiler_from H entry (world st) = (Some c, w1) →
  CompileData.transforms (cd_of w1 c) = 0 →
  ∃ st', compile_data H caller entry content filename pkg options isDefaultPkg
                      hint sourceType st = (Ret (Some c), st')
         ∧ calls st' = (calls st ++ [EvFrom entry])%list.
Proof.
  intros Hnone Hfrom Hfresh. unfold compile_data. mrun. rewrite Hnone. mrun.
  rewrite Hfrom. mrun. rewrite Hfresh. cbn [Z.eqb negb]. mrun.
  destruct (CompileData.code (cd_of w1 c)); mrun;
    (eexists; split; [reflexivity|]); done.
Qed.

Lemma compile_keeps_compileData (H : Host) (entry : eref) (n : nat)
    (caller : nat) (content filename : string)
    (fallback : option (World → Res Value * World)) :
  HostKeeps H (has_compileData entry) →
  match fallback with
  | Some f => ∀ w, has_compileData entry w → has_compileData entry (f w).2
  | None => True
  end →
  inv (λ st, has_compileData entry (world st)
             ∧ count_calls is_compiler_call (calls st) = n)
      (compile H caller entry content filename fallback).
Proof.
  intros HK Hf. apply inv_compile.
  - apply stable_keeps; [done|apply has_compileData_writes|by repeat split].
  - by apply stable_host_compile_keeps.
  - intros b. apply inv_modify. by intros st [HP Hn].
  - by intros st [HP _].
  - destruct fallback as [f|]; [|done]. apply inv_call.
    intros st [HP Hn]. cbn [world calls].
    rewrite count_calls_snoc, Nat.add_0_r. split; [by apply Hf|done].
Qed.

(** C4. Once [entry.compileData] is set, a call of [compile] takes it as
    its compile data and calls neither [CachingCompiler.from] nor
    [CachingCompiler.compile]; when it is not set and the cache gives compile
    data with zero transforms, those are taken and the compiler is not
    called either. As long as no collaborator resets [entry.compileData]
    (no invalidation), any series of calls of [compile] for the entry,
    returning or throwing, never calls [CachingCompiler.compile] again.
    And the one call that does get compile data from the compiler stores
    them in [entry.compileData], so the compiler is called at most once. *)
Theorem compile_reuses_compileData (H : Host) (entry : eref) :
  (∀ caller content filename pkg options isDefaultPkg hint sourceType st c,
      Entry.compileData (entry_of (world st) entry) = Some c →
      ∃ st', compile_data H caller entry content filename pkg options isDefaultPkg
                          hint sourceType st = (Ret (Some c), st')
             ∧ calls st' = calls st
             ∧ Entry.compileData (entry_of (world st') entry) = Some c)
  ∧ (∀ caller content filename pkg options isDefaultPkg hint sourceType st c w1,
      Entry.compileData (entry_of (world st) entry) = None →
      CachingCompiler_from H entry (world st) = (Some c, w1) →
      CompileData.transforms (cd_of w1 c) = 0 →
      ∃ st', compile_data H caller entry content filename pkg options isDefaultPkg
                          hint sourceType st = (Ret (Some c), st')
             ∧ calls st' = (calls st ++ [EvFrom entry])%list)
  ∧ (HostKeeps H (has_compileData entry) →
     ∀ requests st,
       Forall (fallback_keeps (has_compileData entry)) requests →
       has_compileData entry (world st) →
       let st' := compile_repeatedly H entry requests st in
       count_calls is_compiler_call (calls st')
       = count_calls is_compiler_call (calls st)
       ∧ has_compileData entry (world st'))
  ∧ (∀ caller content filename pkg options isDefaultPkg hint sourceType st cached w1 c w2,
      Entry.compileData (entry_of (world st) entry) = None →
      CachingCompiler_from H entry (world st) = (cached, w1) →
      stale w1 cached = true →
      CachingCompiler_compile H content
        (compile_options w1 entry filename pkg options hint sourceType) w1 = (Ret c, w2) →
      ∃ st', compile_data H caller entry content filename pkg options isDefaultPkg
                          hint sourceType st = (Ret (Some c), st')
             ∧ has_compileData entry (world st')
             ∧ count_calls is_compiler_call (calls st')
               = (count_calls is_compiler_call (calls st) + 1)%nat).
Proof.
  split; [|split; [|split]].
  - intros. by apply compile_data_reuse.
  - intros. by eapply compile_data_cached.
  - intros HK requests. induction requests as [|r rest IH]; intros st Hall Hhas; [done|].
    apply Forall_cons in Hall as [Hr Hrest]. cbn [compile_repeatedly].
    pose proof (compile_keeps_compileData H entry
                  (count_calls is_compiler_call (calls st))
                  (rq_caller r) (rq_content r) (rq_filename r) (rq_fallback r)
                  HK Hr st (conj Hhas eq_refl)) as [Hhas' Hn'].
    destruct (IH _ Hrest Hhas') as [Hn Hfin]. cbv zeta. split; [|done].
    by rewrite Hn.
  - intros caller content filename pkg options isDefaultPkg hint sourceType
           st cached w1 c w2 Hnone Hfrom Hstale Hcomp.
    destruct (compile_data_fresh H caller entry content filename pkg options
                isDefaultPkg hint sourceType st cached w1 c w2
                Hnone Hfrom Hstale Hcomp) as (st' & Hrun & _ & Hcd & Hcalls & _).
    exists st'. split; [done|]. split; [unfold has_compileData; by rewrite Hcd|].
    rewrite Hcalls. unfold count_calls. rewrite List.filter_app, length_app. done.
Qed.

Lemma Demo_keeps_compileData :
  HostKeeps (Demo.host None) (has_compileData 1%nat).
Proof.
  constructor; intros; unfold has_compileData in *;
    cbn [Demo.host Demo.host_with_stack CachingCompiler_from CachingCompiler_compile Runtime_enable
         mod_compile runResult_next entry_updateBindings entry_loaded
         entry_finalizeNamespace Entry_get fst snd] in *; try done.
  all: try (by heap; case_decide; subst; fields).
  destruct (Entry.type (entry_of w m)); try done.
  destruct (Entry.runtime (entry_of w m)); done.
Qed.

Lemma compile_reuses_compileData_witness :
  let H := Demo.host None in
  let d := Demo.compileData 0 (-1) None in
  let w := Demo.heap (Demo.entry TYPE_CJS STATE_INITIAL (Some 1%nat) []) d false in
  let cached :=
    upd_pkg 0%nat (Package.set_cache_compile {["a.js" := 1%nat]})
            (Demo.heap (Demo.entry TYPE_CJS STATE_INITIAL None []) d false) in
  let again := {| rq_caller := 0%nat; rq_content := "exports.a = 1";
                  rq_filename := "a.js"; rq_fallback := None |} in
  (∃ st', compile_data H 0%nat 1%nat "exports.a = 1" "a.js" 0%nat Demo.options true
                       SOURCE_TYPE_SCRIPT SOURCE_TYPE_SCRIPT (Demo.start w)
          = (Ret (Some 1%nat), st')
          ∧ calls st' = []
          ∧ Entry.compileData (entry_of (world st') 1%nat) = Some 1%nat)
  ∧ (∃ st', compile_data H 0%nat 1%nat "exports.a = 1" "a.js" 0%nat Demo.options true
                         SOURCE_TYPE_SCRIPT SOURCE_TYPE_SCRIPT (Demo.start cached)
            = (Ret (Some 1%nat), st')
            ∧ calls st' = [EvFrom 1%nat])
  ∧ count_calls is_compiler_call
      (calls (compile_repeatedly H 1%nat [again; again; again] (Demo.start w))) = 0%nat
  ∧ (∃ st', compile_data H 0%nat 1%nat "exports.a = 1" "a.js" 0%nat Demo.options true
                         SOURCE_TYPE_SCRIPT SOURCE_TYPE_SCRIPT
                         (Demo.start (Demo.heap (Demo.entry TYPE_CJS STATE_INITIAL None []) d false))
            = (Ret (Some 2%nat), st')
            ∧ has_compileData 1%nat (world st')
            ∧ count_calls is_compiler_call (calls st') = 1%nat).
Proof.
  intros H d w cached again.
  destruct (compile_reuses_compileData H 1%nat) as (Hreuse & Hcached & Hrepeat & Hstore).
  split; [|split; [|split]].
  - apply (Hreuse 0%nat "exports.a = 1" "a.js" 0%nat Demo.options true
                  SOURCE_TYPE_SCRIPT SOURCE_TYPE_SCRIPT (Demo.start w) 1%nat).
    by vm_compute.
  - apply (Hcached 0%nat "exports.a = 1" "a.js" 0%nat Demo.options true
                   SOURCE_TYPE_SCRIPT SOURCE_TYPE_SCRIPT (Demo.start cached) 1%nat cached);
      by vm_compute.
  - destruct (Hrepeat Demo_keeps_compileData [again; again; again] (Demo.start w))
      as [Hn _].
    + repeat constructor.
    + by vm_compute.
    + exact Hn.
  - set (w0 := Demo.heap (Demo.entry TYPE_CJS STATE_INITIAL None []) d false).
    apply (Hstore 0%nat "exports.a = 1" "a.js" 0%nat Demo.options true
                  SOURCE_TYPE_SCRIPT SOURCE_TYPE_SCRIPT (Demo.start w0) None w0 2%nat
                  (snd (CachingCompiler_compile H "exports.a = 1"
                          (compile_options w0 1%nat "a.js" 0%nat Demo.options
                                           SOURCE_TYPE_SCRIPT SOURCE_TYPE_SCRIPT) w0)));
      by vm_compute.
Defined.

(** ** The parsing flag *)

Lemma not_parsing_writes : WritesKeep not_parsing.
Proof. constructor; intros; done. Qed.

Lemma tryRun_keeps_not_parsing (H : Host) (entry : eref) (filename : string) (st : St) :
  HostKeeps H not_parsing →
  not_parsing (world st) →
  not_parsing (world (tryRun H entry filename st).2).
Proof.
  intros HK Hst.
  assert (HS : Stable H (λ st, not_parsing (world st) ∧ count_calls (λ _, false) (calls st) = 0%nat)).
  { apply stable_keeps; [done|apply not_parsing_writes|by repeat split]. }
  assert (HC : StableHostCompile H (λ st, not_parsing (world st) ∧ count_calls (λ _, false) (calls st) = 0%nat)).
  { by apply stable_host_compile_keeps. }
  apply (inv_tryRun H _ HS entry filename HC st). split; [done|].
  unfold count_calls. by induction (calls st).
Qed.

Lemma compile_gate_acquires (entry : eref) (isESM : bool) (st : St) :
  parsing (world st) = false →
  isESM = true →
  Entry.state (entry_of (world st) entry) = STATE_INITIAL →
  compile_gate entry isESM st
  = (Ret (Some true),
     mkSt (set_parsing true
             (upd_entry entry (Entry.set_state STATE_PARSING_STARTED) (world st)))
          (calls st)).
Proof.
  intros Hp -> Hs. unfold compile_gate. mrun. rewrite Hp, Hs. cbn [negb andb].
  rewrite bool_decide_true by done. by mrun.
Qed.

Lemma compile_gate_passes (entry : eref) (isESM : bool) (st : St) :
  parsing (world st) = true
  ∨ isESM = false
  ∨ Entry.state (entry_of (world st) entry) ≠ STATE_INITIAL →
  compile_gate entry isESM st
  = (Ret (if parsing (world st) then Some false else None), st).
Proof.
  intros Hor. unfold compile_gate. mrun. destruct st as [w l]. cbn [world calls] in *.
  destruct (parsing w); [done|]. cbn [negb].
  destruct Hor as [?|[->|Hs]]; [done|done|].
  rewrite bool_decide_false, andb_false_r by done. done.
Qed.

Lemma compile_run_releases (H : Host) (entry : eref) (filename : string)
    (mod_ : mref) (isDefaultPkg : bool) (defaultPkg : pref)
    (compileData : option cdref) (fallback : option (World → Res Value * World))
    (st : St) :
  HostKeeps H not_parsing →
  parsing (world st) = false →
  Entry.type (entry_of (world st) entry) = TYPE_ESM →
  Entry.state (entry_of (world st) entry) = STATE_INITIAL →
  parsing (world (compile_run H entry filename mod_ isDefaultPkg defaultPkg
                              compileData fallback st).2) = false.
Proof.
  intros HK Hp Ht Hs. unfold compile_run. mrun. rewrite Ht, bool_decide_true by done.
  rewrite compile_gate_acquires by done. mrun.
  destruct (compile_esm H entry filename mod_ compileData true _) as [[[v|]|e] st2];
    mrun; try done.
  by apply tryRun_keeps_not_parsing.
Qed.

Lemma compile_run_never_leaves_flag (H : Host) (entry : eref) (filename : string)
    (mod_ : mref) (isDefaultPkg : bool) (defaultPkg : pref)
    (compileData : option cdref) (fallback : option (World → Res Value * World))
    (st : St) :
  HostKeeps H not_parsing →
  parsing (world st) = false →
  parsing (world (compile_run H entry filename mod_ isDefaultPkg defaultPkg
                              compileData fallback st).2) = false.
Proof.
  intros HK Hp.
  destruct (decide (Entry.type (entry_of (world st) entry) = TYPE_ESM
                    ∧ Entry.state (entry_of (world st) entry) = STATE_INITIAL))
    as [[Ht Hs]|Hno].
  { by apply compile_run_releases. }
  unfold compile_run. mrun.
  rewrite compile_gate_passes.
  - rewrite Hp. by apply tryRun_keeps_not_parsing.
  - right. case_bool_decide; [right|by left]. by intros Hs; apply Hno.
Qed.

(** C6. The gate of lines 141-152 sets the parsing flag in one case only:
    the flag is not set, the entry is Declarative and its state is
    [STATE_INITIAL] (an outermost sideload bootstrap, [isSideloaded] true);
    otherwise it leaves the heap as it is. When a call of [compile] has set
    the flag this way, the flag is false again when the call is over,
    whether it returns or throws, provided the collaborators, which may load
    further modules, leave the flag false when they find it false. Under
    the same proviso no call that finds the flag false leaves it set. *)
Theorem compile_releases_parsing_flag (H : Host) (entry : eref) :
  (∀ (isESM : bool) (st : St),
      compile_gate entry isESM st
      = if negb (parsing (world st)) && isESM
           && bool_decide (Entry.state (entry_of (world st) entry) = STATE_INITIAL)
        then (Ret (Some true),
              mkSt (set_parsing true
                      (upd_entry entry (Entry.set_state STATE_PARSING_STARTED)
                                 (world st)))
                   (calls st))
        else (Ret (if parsing (world st) then Some false else None), st))
  ∧ (HostKeeps H not_parsing →
     ∀ (caller : nat) (content filename : string)
       (fallback : option (World → Res Value * World))
       (st0 : St) (compileData : option cdref) (st1 : St) (r : Res Value) (st' : St),
       let w0 := world st0 in
       let pkg := Entry.package (entry_of w0 entry) in
       let options := Package.options (pkg_of w0 pkg) in
       let types := compile_sourceType (Entry.extname (entry_of w0 entry))
                                       (Options.mode options) in
       compile_data H caller entry content filename pkg options
                    (bool_decide (pkg = defaultPkg w0)) types.1 types.2 st0
       = (Ret compileData, st1) →
       parsing (world st1) = false →
       Entry.type (entry_of (world st1) entry) = TYPE_ESM →
       Entry.state (entry_of (world st1) entry) = STATE_INITIAL →
       compile H caller entry content filename fallback st0 = (r, st') →
       parsing (world st') = false)
  ∧ (HostKeeps H not_parsing →
     ∀ (filename : string) (mod_ : mref) (isDefaultPkg : bool) (defaultPkg : pref)
       (compileData : option cdref) (fallback : option (World → Res Value * World))
       (st : St),
       parsing (world st) = false →
       parsing (world (compile_run H entry filename mod_ isDefaultPkg defaultPkg
                                   compileData fallback st).2) = false).
Proof.
  split; [|split].
  - intros isESM st.
    destruct (negb (parsing (world st)) && isESM
              && bool_decide (Entry.state (entry_of (world st) entry) = STATE_INITIAL))
      eqn:Hacq.
    + apply andb_prop in Hacq as [Hacq Hs]. apply andb_prop in Hacq as [Hp He].
      apply compile_gate_acquires.
      * by destruct (parsing (world st)).
      * done.
      * by apply bool_decide_eq_true in Hs.
    + apply compile_gate_passes.
      destruct (parsing (world st)); [by left|]. destruct isESM; [|by right; left].
      right; right. cbn in Hacq. by apply bool_decide_eq_false in Hacq.
  - intros HK caller content filename fallback st0 compileData st1 r st'
           w0 pkg options types Hdata Hp Ht Hs Hrun.
    unfold compile in Hrun. rewrite run_bind in Hrun. cbn [get_world world] in Hrun.
    cbv zeta in Hrun. fold w0 pkg options types in Hrun.
    destruct types as [hint sourceType]. cbn [fst snd] in Hdata.
    rewrite run_bind, Hdata in Hrun.
    pose proof (compile_run_releases H entry filename (Entry.module (entry_of w0 entry))
                  (bool_decide (pkg = defaultPkg w0)) (defaultPkg w0) compileData
                  fallback st1 HK Hp Ht Hs) as Hrel.
    by rewrite Hrun in Hrel.
  - intros HK filename mod_ isDefaultPkg defaultPkg compileData fallback st.
    by apply compile_run_never_leaves_flag.
Qed.

Lemma Demo_keeps_not_parsing (failure : option Err.t) :
  HostKeeps (Demo.host failure) not_parsing.
Proof.
  constructor; intros; unfold not_parsing in *;
    cbn [Demo.host Demo.host_with_stack CachingCompiler_from CachingCompiler_compile Runtime_enable
         mod_compile runResult_next entry_updateBindings entry_loaded
         entry_finalizeNamespace Entry_get fst snd] in *; try done.
  destruct failure; [done|].
  destruct (Entry.type (entry_of w m)); try done.
  destruct (Entry.runtime (entry_of w m)); done.
Qed.

Lemma compile_releases_parsing_flag_witness :
  let failure := Err.mk "TypeError" "boom" None None None false in
  let H := Demo.host (Some failure) in
  let w := Demo.heap (Demo.entry TYPE_ESM STATE_INITIAL (Some 1%nat) [])
                     (Demo.compileData 0 (-1) None) false in
  let run := compile H 0%nat 1%nat "import './a.js'" "a.js" None (Demo.start w) in
  fst run = Throw (maskStackTrace H failure None "a.js" (Some true))
  ∧ parsing (world (snd run)) = false.
Proof.
  intros failure H w run. split; [by vm_compute|].
  destruct (compile_releases_parsing_flag H 1%nat) as (_ & Hrelease & _).
  apply (Hrelease (Demo_keeps_not_parsing (Some failure)) 0%nat "import './a.js'"
                  "a.js" None (Demo.start w) (Some 1%nat) (Demo.start w)
                  (fst run) (snd run)); by vm_compute.
Defined.

(** ** The fallback of a Dynamic entry *)

Lemma compile_frames_spec (H : Host) (frames : list string)
    (f : World → Res Value * World) (st : St) :
  compile_frames H frames f st
  = if external_frame H frames
    then match call EvFallback f st with
         | (Ret v, st') => (Ret (Some v), st')
         | (Throw e, st') => (Throw e, st')
         end
    else (Ret None, st).
Proof.
  induction frames as [|p rest IH]; [done|]. cbn [compile_frames external_frame existsb].
  destruct (isAbsolute H p && negb (isOwnPath H p)); [|exact IH].
  cbn [orb]. by rewrite run_bind.
Qed.

Lemma tryRun_no_fallback (H : Host) (entry : eref) (filename : string) (st : St) :
  count_calls is_fallback_call (calls (tryRun H entry filename st).2)
  = count_calls is_fallback_call (calls st).
Proof.
  assert (HK : HostKeeps H (λ _, True)) by done.
  assert (HW : WritesKeep (λ _, True)) by done.
  apply (inv_tryRun H (λ st', True ∧ count_calls is_fallback_call (calls st')
                                    = count_calls is_fallback_call (calls st))).
  - apply (stable_keeps H (λ _, True) is_fallback_call); [done|done|by repeat split].
  - by apply (stable_host_compile_keeps H (λ _, True) is_fallback_call).
  - done.
Qed.

Lemma compile_run_dynamic (H : Host) (entry : eref) (filename : string)
    (mod_ : mref) (isDefaultPkg : bool) (defaultPkg : pref)
    (compileData : option cdref) (f : World → Res Value * World) (st : St) :
  Entry.type (entry_of (world st) entry) ≠ TYPE_ESM →
  let got := Entry_get H (HostModule.parent (mod_of (world st) mod_)) (world st) in
  let st2 := mkSt got.2 (calls st ++ [EvEntryGet]) in
  compile_run H entry filename mod_ isDefaultPkg defaultPkg compileData (Some f) st
  = if parsing (world st)
    then if consults_fallback H isDefaultPkg defaultPkg got.1 got.2
         then call EvFallback f st2
         else tryRun H entry filename st2
    else tryRun H entry filename st.
Proof.
  intros Ht got st2. unfold compile_run. mrun.
  rewrite bool_decide_false by done.
  rewrite compile_gate_passes by (right; by left).
  destruct (parsing (world st)) eqn:Hp; [|done]. mrun.
  unfold compile_fallback. mrun. fold got. destruct got as [parentEntry w2] eqn:Hgot.
  mrun. subst st2. cbn [fst snd].
  fold (consults_fallback H isDefaultPkg defaultPkg parentEntry w2).
  unfold consults_fallback at 1. cbv zeta.
  destruct (negb _ && (isDefaultPkg || _)) eqn:Hpre; cbn [andb].
  - rewrite compile_frames_spec.
    destruct (external_frame H (getStackFrames H w2)); [|done].
      unfold call. cbn [world calls]. by destruct (f w2) as [[v|e] w3].
  - done.
Qed.

(** C3 (amended). For an entry that is not Declarative and a [fallback]
    that is a function, [compile] calls [fallback()], once, and returns or
    throws what it does, exactly when the parsing flag is set at the gate,
    the importing parent entry is not Declarative, the entry's package or
    the parent's is the default package, and some frame of the call stack
    has an absolute path outside the engine's own paths. In every other
    case, and always when the parsing flag is not set, [compile] goes to
    [tryRun] and [fallback] is not called. *)
Theorem compile_consults_fallback (H : Host) (entry : eref) (caller : nat)
    (content filename : string) (f : World → Res Value * World)
    (st0 : St) (compileData : option cdref) (st1 : St) :
  let w0 := world st0 in
  let mod_ := Entry.module (entry_of w0 entry) in
  let pkg := Entry.package (entry_of w0 entry) in
  let options := Package.options (pkg_of w0 pkg) in
  let types := compile_sourceType (Entry.extname (entry_of w0 entry))
                                  (Options.mode options) in
  let isDefaultPkg := bool_decide (pkg = defaultPkg w0) in
  compile_data H caller entry content filename pkg options isDefaultPkg
               types.1 types.2 st0 = (Ret compileData, st1) →
  Entry.type (entry_of (world st1) entry) ≠ TYPE_ESM →
  let got := Entry_get H (HostModule.parent (mod_of (world st1) mod_)) (world st1) in
  let st2 := mkSt got.2 (calls st1 ++ [EvEntryGet]) in
  let consult :=
    parsing (world st1)
    && consults_fallback H isDefaultPkg (defaultPkg w0) got.1 got.2 in
  let run := compile H caller entry content filename (Some f) st0 in
  run = (if consult then call EvFallback f st2
         else if parsing (world st1) then tryRun H entry filename st2
         else tryRun H entry filename st1)
  ∧ count_calls is_fallback_call (calls run.2)
    = (count_calls is_fallback_call (calls st1) + if consult then 1 else 0)%nat.
Proof.
  intros w0 mod_ pkg options types isDefaultPkg Hdata Ht got st2 consult run.
  assert (Hrun : run = compile_run H entry filename mod_ isDefaultPkg (defaultPkg w0)
                                   compileData (Some f) st1).
  { unfold run, compile. rewrite run_bind. cbn [get_world world]. cbv zeta.
    fold w0 mod_ pkg options types isDefaultPkg.
    destruct types as [hint sourceType]. cbn [fst snd] in Hdata.
    by rewrite run_bind, Hdata. }
  rewrite Hrun, compile_run_dynamic by done. fold got st2. unfold consult.
  destruct (parsing (world st1)); cbn [andb].
  - destruct (consults_fallback H isDefaultPkg (defaultPkg w0) got.1 got.2).
    + split; [done|]. unfold call. destruct (f (world st2)) as [r w3].
      cbn [snd calls st2]. rewrite !count_calls_snoc. cbn [is_fallback_call]. lia.
    + split; [done|]. rewrite tryRun_no_fallback. cbn [calls st2].
      rewrite count_calls_snoc. cbn [is_fallback_call]. lia.
  - split; [done|]. rewrite tryRun_no_fallback. lia.
Qed.

Lemma compile_consults_fallback_witness :
  let H := Demo.host_with_stack ["/app/main.js"] None in
  let w := Demo.heap (Demo.entry TYPE_CJS STATE_INITIAL (Some 1%nat) [])
                     (Demo.compileData 0 (-1) None) true in
  let run := compile H 0%nat 1%nat "exports.a = 1" "a.js" (Some Demo_fallback)
                     (Demo.start w) in
  fst run = Ret (VStr "from the fallback")
  ∧ count_calls is_fallback_call (calls (snd run)) = 1%nat.
Proof.
  intros H w run.
  destruct (compile_consults_fallback H 1%nat 0%nat "exports.a = 1" "a.js"
              Demo_fallback (Demo.start w) (Some 1%nat) (Demo.start w)
              ltac:(by vm_compute) ltac:(by vm_compute)) as [Hrun Hcount].
  split.
  - fold run in Hrun. rewrite Hrun. by vm_compute.
  - fold run in Hcount. rewrite Hcount. by vm_compute.
Defined.

(** C3 as stated fails: a Dynamic entry of the default package, without
    importer, called with a function as [fallback] from a stack whose first
    frame is [/app/main.js], outside the engine. The parsing flag is not
    set: [compile] runs the module and never calls [fallback]. *)
Lemma compile_ignores_fallback_when_not_parsing :
  let H := Demo.host_with_stack ["/app/main.js"] None in
  let w := Demo.heap (Demo.entry TYPE_CJS STATE_INITIAL (Some 1%nat) [])
                     (Demo.compileData 0 (-1) None) false in
  let run := compile H 0%nat 1%nat "exports.a = 1" "a.js" (Some Demo_fallback)
                     (Demo.start w) in
  Entry.type (entry_of w 1%nat) = TYPE_CJS
  ∧ fst (Entry_get H (HostModule.parent (mod_of w 1%nat)) w) = None
  ∧ Entry.package (entry_of w 1%nat) = defaultPkg w
  ∧ getStackFrames H w = ["/app/main.js"]
  ∧ isAbsolute H "/app/main.js" = true
  ∧ isOwnPath H "/app/main.js" = false
  ∧ fst run = Ret (VStr "body")
  ∧ count_calls is_fallback_call (calls (snd run)) = 0%nat.
Proof. by vm_compute. Qed.

(** ** The state of an entry across a run *)

Lemma tryCompile_throws (H : Host) (caller : nat) (entry : eref) (content : string)
    (options : CompileOptions) (st : St) (e : Err.t) (w' : World) :
  CachingCompiler_compile H content options (world st) = (Throw e, w') →
  ∃ e' st', tryCompile H caller entry content options st = (Throw e', st')
            ∧ Entry.state (entry_of (world st') entry) = STATE_EXECUTION_COMPLETED.
Proof.
  intros Hc. unfold tryCompile. mrun. rewrite Hc. mrun.
  destruct (debug _ || negb _); mrun; (do 2 eexists; split; [reflexivity|]);
    cbn [world]; by heap.
Qed.

Lemma assign_loaded_state (H : Host) (entry : eref) (m : mref) (v : Value) (st : St) :
  hooks_keep_state H entry →
  Entry.state (entry_of (world (assign_loaded H m v st).2) entry)
  = Entry.state (entry_of (world st) entry).
Proof.
  intros [Hl Hu]. unfold assign_loaded. mrun.
  destruct (HostModule.loaded (mod_of (world st) m)) as [x|e']; mrun; [done|].
  unfold loaded_setter, setProperty_loaded. destruct (truthy v); mrun; [|done].
  destruct (entry_updateBindings H e' _) as [[[]|err] w1] eqn:Hupd; mrun.
  - destruct (entry_loaded H e' w1) as [r w2] eqn:Hld. cbn [snd world].
    specialize (Hl e' w1). rewrite Hld in Hl. cbn [snd] in Hl. rewrite Hl.
    specialize (Hu e' (upd_mod m (HostModule.set_loaded (LoadedData v)) (world st))).
    rewrite Hupd in Hu. cbn [snd] in Hu. by rewrite Hu.
  - specialize (Hu e' (upd_mod m (HostModule.set_loaded (LoadedData v)) (world st))).
    rewrite Hupd in Hu. cbn [snd] in Hu. by rewrite Hu.
Qed.

Lemma tryRun_succeed_state (H : Host) (entry : eref) (mod_ : mref)
    (parsing isESM firstPass : bool) (result : Value) (st : St) :
  hooks_keep_state H entry →
  let out := tryRun_succeed H entry mod_ parsing isESM firstPass result st in
  Entry.state (entry_of (world out.2) entry) = completed parsing
  ∧ ((∃ e, out.1 = Throw e) → parsing = false).
Proof.
  intros Hk. pose proof Hk as [Hl Hu]. unfold tryRun_succeed. mrun.
  set (st1 := mkSt _ _).
  assert (Hst1 : Entry.state (entry_of (world st1) entry) = completed parsing).
  { unfold st1. cbn [world]. by heap. }
  clearbody st1.
  destruct isESM; mrun.
  { split; [by heap|]. by intros [e He]. }
  destruct (negb parsing && firstPass) eqn:Hnp; mrun.
  2:{ split; [done|]. by intros [e He]. }
  split; [|intros _; by destruct parsing].
  pose proof (assign_loaded_state H entry (Entry.module (entry_of (world st1) entry))
                (VBool true) st1 Hk) as Ha.
  destruct (assign_loaded H _ _ st1) as [[[]|e] st2]; cbn [snd] in Ha; mrun;
    [|by rewrite Ha].
  destruct (entry_loaded H entry (world st2)) as [[[]|e] w3] eqn:Hld; mrun.
  - specialize (Hu entry w3). specialize (Hl entry (world st2)).
    rewrite Hld in Hl. cbn [snd] in Hl.
    destruct (entry_updateBindings H entry w3) as [[[]|e] w4] eqn:Hupd;
      cbn [snd] in Hu; mrun; by rewrite Hu, Hl, Ha.
  - specialize (Hl entry (world st2)). rewrite Hld in Hl. cbn [snd] in Hl.
    by rewrite Hl, Ha.
Qed.

Lemma tryRun_runtime_returns (H : Host) (entry : eref) (isESM : bool) (c : cdref) (st : St) :
  enable_keeps_compileData H entry →
  ∃ r st', tryRun_runtime H entry isESM (Some c) st = (Ret r, st')
           ∧ (has_compileData entry (world st) → has_compileData entry (world st')).
Proof.
  intros Hen. unfold tryRun_runtime. mrun.
  destruct (Entry.runtime (entry_of (world st) entry)) as [r|]; mrun.
  { by exists r, st. }
  pose proof (wk_create _ (has_compileData_writes entry) (world st)) as Hcreate.
  assert (Hbridge : ∀ st0 : St,
             (has_compileData entry (world st) → has_compileData entry (world st0)) →
             ∃ r st',
               (let (a, w) := GenericObject_create (world st0) in
                let (a0, w0) := Runtime_enable H entry a w in
                (Ret a0, mkSt w0 (calls st0 ++ [EvRuntimeEnable entry])))
               = (Ret r, st')
               ∧ (has_compileData entry (world st) → has_compileData entry (world st'))).
  { intros st0 Hst0.
    pose proof (wk_create _ (has_compileData_writes entry) (world st0)) as Hc0.
    destruct (GenericObject_create (world st0)) as [o w0].
    pose proof (Hen o w0) as Hk.
    destruct (Runtime_enable H entry o w0) as [r w1].
    do 2 eexists. split; [reflexivity|]. cbn [world snd] in *. auto. }
  destruct isESM; mrun.
  - by apply (Hbridge st).
  - destruct (negb _); mrun.
    + by apply (Hbridge st).
    + destruct (GenericObject_create (world st)) as [o w0]. mrun.
      do 2 eexists. split; [reflexivity|]. cbn [world snd] in *. intros Hhas.
      apply has_compileData_writes. auto.
Qed.

Lemma useSourceMap_returns (H : Host) (entry : eref) (st : St) :
  has_compileData entry (world st) →
  ∃ b, useSourceMap H entry st = (Ret b, st).
Proof.
  intros Hhas. unfold useSourceMap. mrun. destruct (_ || _); [|by eexists].
  unfold has_compileData in Hhas.
  destruct (Entry.compileData (entry_of (world st) entry)); [|done]. mrun. by eexists.
Qed.

Lemma tryRun_firstPass_returns (H : Host) (entry : eref) (filename : string)
    (isESM : bool) (mod_ : mref) (c : cdref) (async cjsVars : bool) (runtime : oref)
    (st : St) :
  has_compileData entry (world st) →
  ∃ x st', tryRun_firstPass H entry filename isESM mod_ (Some c) async cjsVars runtime st
           = (Ret x, st').
Proof.
  intros Hhas. unfold tryRun_firstPass. mrun.
  destruct (useSourceMap_returns H entry st Hhas) as [b ->]. mrun.
  destruct isESM; mrun.
  - destruct (mod_compile H mod_ _ _ _) as [[v|e] w1]; mrun; by do 2 eexists.
  - by do 2 eexists.
Qed.

Lemma tryRun_resume_returns (H : Host) (entry : eref) (parsing firstPass : bool)
    (rr : option RunResult) (error : option Err.t) (st : St) :
  ∃ x st', tryRun_resume H entry parsing firstPass rr error st = (Ret x, st').
Proof.
  unfold tryRun_resume. destruct (_ && _); mrun; [|by do 2 eexists].
  destruct (runResult_dot_next H rr _) as [[v|e] st1]; mrun; by do 2 eexists.
Qed.

Lemma tryRun_read_returns (H : Host) (entry : eref) (rr : option RunResult)
    (error : option Err.t) (result : Value) (st : St) :
  ∃ x st', tryRun_read H entry rr error result st = (Ret x, st').
Proof.
  unfold tryRun_read. mrun. destruct (_ && _); mrun; [|by do 2 eexists].
  destruct (runResult_dot_next H rr _) as [[v|e] st1]; mrun; by do 2 eexists.
Qed.

Lemma tryRun_state (H : Host) (entry : eref) (filename : string) (st : St) (c : cdref) :
  Entry.compileData (entry_of (world st) entry) = Some c →
  enable_keeps_compileData H entry →
  hooks_keep_state H entry →
  let out := tryRun H entry filename st in
  Entry.state (entry_of (world out.2) entry)
  = match out.1 with
    | Ret _ => completed (parsing (world st))
    | Throw _ => STATE_EXECUTION_COMPLETED
    end.
Proof.
  intros Hcd Hen Hk. unfold tryRun. mrun. cbv zeta. rewrite Hcd.
  destruct (tryRun_runtime_returns H entry
              (bool_decide (Entry.type (entry_of (world st) entry) = TYPE_ESM)) c st Hen)
    as (r & st1 & -> & Hhas).
  mrun.
  assert (Hhas2 : has_compileData entry
            (upd_entry entry
               (Entry.set_state (if parsing (world st) then STATE_PARSING_STARTED
                                 else STATE_EXECUTION_STARTED)) (world st1))).
  { apply has_compileData_writes, Hhas. unfold has_compileData. by rewrite Hcd. }
  set (st2 := mkSt _ _) in *.
  set (fp := match Obj._runResult (obj_of _ r) with Some _ => false | None => true end).
  clearbody fp.
  set (isESM := bool_decide (Entry.type (entry_of (world st) entry) = TYPE_ESM)).
  assert (Hfp : ∃ x st3,
             (if fp
              then tryRun_firstPass H entry filename isESM
                     (Entry.module (entry_of (world st) entry)) (Some c)
                     (useAsync H entry (world st))
                     (Options.cjs_vars
                        (Package.options
                           (pkg_of (world st) (Entry.package (entry_of (world st) entry))))
                      && negb (String.eqb (Entry.extname (entry_of (world st) entry)) ".mjs"))
                     r
              else mret (None, VUndefined)) st2 = (Ret x, st3)).
  { destruct fp; [by apply tryRun_firstPass_returns|by do 2 eexists]. }
  destruct Hfp as ([error result] & st3 & ->). mrun.
  destruct (tryRun_resume_returns H entry (parsing (world st)) fp
              (Obj._runResult (obj_of (world st3) r)) error st3) as (error1 & st4 & ->).
  mrun.
  destruct (tryRun_read_returns H entry (Obj._runResult (obj_of (world st3) r))
              (tryRun_validate H entry (useAsync H entry (world st)) isESM
                 c error1 (world st4)) result st4) as ([error2 result2] & st5 & ->).
  destruct error2 as [err|].
  - destruct (tryRun_fail_spec H entry filename isESM err st5)
      as (st6 & -> & _ & Hs & _). done.
  - pose proof (tryRun_succeed_state H entry (Entry.module (entry_of (world st) entry))
                  (parsing (world st)) isESM fp result2 st5 Hk) as [Hs Ht].
    destruct (tryRun_succeed H _ _ _ _ _ _ st5) as [[v|e] st6]; cbn [fst snd] in *.
    + done.
    + rewrite Hs. rewrite Ht by by eexists. done.
Qed.

(** C5 (amended). A run does not look at the state the entry is in: for an
    entry that has compile data, whatever [entry.state] was before (the
    terminal states included), [tryRun] leaves it at
    [STATE_PARSING_COMPLETED] or [STATE_EXECUTION_COMPLETED], according to
    the parsing flag at the start of the run, when it returns, and at
    [STATE_EXECUTION_COMPLETED] when it throws; and when the caching
    compiler throws, [tryCompile] throws with the entry at
    [STATE_EXECUTION_COMPLETED]. (The runtime bridge is taken not to reset
    [entry.compileData], and the hooks of the entries not to write
    [entry.state].) *)
Theorem tryRun_ends_completed (H : Host) (entry : eref) :
  (∀ (filename : string) (st : St) (c : cdref),
      Entry.compileData (entry_of (world st) entry) = Some c →
      enable_keeps_compileData H entry →
      hooks_keep_state H entry →
      let out := tryRun H entry filename st in
      Entry.state (entry_of (world out.2) entry)
      = match out.1 with
        | Ret _ => completed (parsing (world st))
        | Throw _ => STATE_EXECUTION_COMPLETED
        end)
  ∧ (∀ (caller : nat) (content : string) (options : CompileOptions) (st : St)
       (e : Err.t) (w' : World),
      CachingCompiler_compile H content options (world st) = (Throw e, w') →
      ∃ e' st', tryCompile H caller entry content options st = (Throw e', st')
                ∧ Entry.state (entry_of (world st') entry) = STATE_EXECUTION_COMPLETED).
Proof.
  split.
  - intros filename st c. apply tryRun_state.
  - intros caller content options st e w'. apply tryCompile_throws.
Qed.

Lemma tryRun_ends_completed_witness :
  let boom := Err.mk "Error" "boom" None None None false in
  let d := Demo.compileData 0 0 None in
  let w := Demo.after_a_pass
             (Demo.heap (Demo.entry TYPE_ESM STATE_PARSING_COMPLETED (Some 1%nat) []) d false) in
  let fresh := Demo.heap (Demo.entry TYPE_ESM STATE_PARSING_STARTED (Some 1%nat) []) d true in
  Entry.state (entry_of (world (snd (tryRun (Demo.host None) 1%nat "a.js" (Demo.start w)))) 1%nat)
  = STATE_EXECUTION_COMPLETED
  ∧ Entry.state
      (entry_of (world (snd (tryRun (Demo.host (Some boom)) 1%nat "a.js" (Demo.start fresh)))) 1%nat)
    = STATE_EXECUTION_COMPLETED
  ∧ ∃ e' st', tryCompile (Demo_failing_compiler boom) 0%nat 1%nat "let" 
                (compile_options fresh 1%nat "a.js" 0%nat Demo.options
                                 SOURCE_TYPE_SCRIPT SOURCE_TYPE_SCRIPT)
                (Demo.start fresh) = (Throw e', st')
              ∧ Entry.state (entry_of (world st') 1%nat) = STATE_EXECUTION_COMPLETED.
Proof.
  intros boom d w fresh.
  assert (Hen : ∀ f, enable_keeps_compileData (Demo.host f) 1%nat).
  { intros f o w0 Hhas. unfold has_compileData in *. cbn. by heap. }
  assert (Hhk : ∀ f, hooks_keep_state (Demo.host f) 1%nat) by (by split).
  split; [|split].
  - destruct (tryRun_ends_completed (Demo.host None) 1%nat) as [Hrun _].
    pose proof (Hrun "a.js" (Demo.start w) 1%nat ltac:(by vm_compute) (Hen None) (Hhk None))
      as Hs.
    cbv zeta in Hs. rewrite Hs. by vm_compute.
  - destruct (tryRun_ends_completed (Demo.host (Some boom)) 1%nat) as [Hrun _].
    pose proof (Hrun "a.js" (Demo.start fresh) 1%nat ltac:(by vm_compute)
                     (Hen (Some boom)) (Hhk (Some boom))) as Hs.
    cbv zeta in Hs. rewrite Hs. by vm_compute.
  - destruct (tryRun_ends_completed (Demo_failing_compiler boom) 1%nat) as [_ Hcomp].
    apply (Hcomp 0%nat "let" _ (Demo.start fresh) boom fresh). by vm_compute.
Defined.

(** C5 as stated fails: an entry left at [STATE_PARSING_COMPLETED] by the
    parse is run once the parsing flag is down. The run returns and the
    entry is at [STATE_EXECUTION_COMPLETED], which the machine of the
    specification does not reach from [STATE_PARSING_COMPLETED]. *)
Lemma tryRun_leaves_the_state_machine :
  let H := Demo.host None in
  let w := Demo.after_a_pass
             (Demo.heap (Demo.entry TYPE_ESM STATE_PARSING_COMPLETED (Some 1%nat) [])
                        (Demo.compileData 0 0 None) false) in
  let run := tryRun H 1%nat "a.js" (Demo.start w) in
  Entry.state (entry_of w 1%nat) = STATE_PARSING_COMPLETED
  ∧ fst run = Ret (VNum 42)
  ∧ Entry.state (entry_of (world (snd run)) 1%nat) = STATE_EXECUTION_COMPLETED
  ∧ machine_reaches 4 STATE_PARSING_COMPLETED STATE_EXECUTION_COMPLETED = false.
Proof. by vm_compute. Qed.

(** ** The [loaded] property of the host module *)

Lemma tryRun_returns_via_succeed (H : Host) (entry : eref) (filename : string)
    (st : St) (v : Value) (st' : St) :
  tryRun H entry filename st = (Ret v, st') →
  ∃ firstPass result st5,
    tryRun_succeed H entry (Entry.module (entry_of (world st) entry))
      (parsing (world st))
      (bool_decide (Entry.type (entry_of (world st) entry) = TYPE_ESM))
      firstPass result st5 = (Ret v, st').
Proof.
  unfold tryRun. mrun. cbv zeta.
  destruct (tryRun_runtime H entry _ _ st) as [[r|e] st1]; [|done]. mrun.
  set (fp := match Obj._runResult (obj_of _ r) with Some _ => false | None => true end).
  clearbody fp.
  match goal with
  | |- context [(if fp then ?a else ?b) ?s] =>
      destruct ((if fp then a else b) s) as [[[error result]|e] st3]; [|done]
  end.
  mrun.
  destruct (tryRun_resume H entry _ fp _ error st3) as [[error1|e] st4]; [|done]. mrun.
  destruct (Entry.compileData (entry_of (world st) entry)) as [c|]; [|done]. mrun.
  destruct (tryRun_read H entry _ _ result st4) as [[[error2 result2]|e] st5]; [|done].
  destruct error2 as [err|].
  - destruct (tryRun_fail_spec H entry filename
                (bool_decide (Entry.type (entry_of (world st) entry) = TYPE_ESM)) err st5)
      as (st6 & -> & _). done.
  - intros Hs. by exists fp, result2, st5.
Qed.

Lemma tryRun_installs_accessor (H : Host) (entry : eref) (filename : string)
    (st : St) (v : Value) (st' : St) :
  Entry.type (entry_of (world st) entry) = TYPE_ESM →
  tryRun H entry filename st = (Ret v, st') →
  HostModule.loaded (mod_of (world st') (Entry.module (entry_of (world st) entry)))
  = LoadedAccessor entry.
Proof.
  intros Ht Hrun.
  destruct (tryRun_returns_via_succeed H entry filename st v st' Hrun)
    as (fp & result & st5 & Hs).
  rewrite Ht, bool_decide_true in Hs by done.
  unfold tryRun_succeed in Hs. revert Hs. mrun. intros [= _ <-]. cbn [world].
  by heap.
Qed.

Lemma assign_loaded_data (H : Host) (m : mref) (v x : Value) (st : St) :
  HostModule.loaded (mod_of (world st) m) = LoadedData x →
  assign_loaded H m v st
  = (Ret tt, mkSt (upd_mod m (HostModule.set_loaded (LoadedData v)) (world st)) (calls st)).
Proof. intros Hd. unfold assign_loaded. mrun. by rewrite Hd. Qed.

Lemma last_cons {A} (l : list A) :
  ∀ v x : A, List.last (v :: l) x = List.last l v.
Proof.
  induction l as [|a l IH]; intros v x; [done|].
  change (List.last (v :: a :: l) x) with (List.last (a :: l) x).
  by rewrite !IH.
Qed.

Lemma assign_loaded_each_data (H : Host) (m : mref) (values : list Value) :
  ∀ (x : Value) (st : St),
    HostModule.loaded (mod_of (world st) m) = LoadedData x →
    let st' := assign_loaded_each H m values st in
    calls st' = calls st
    ∧ HostModule.loaded (mod_of (world st') m) = LoadedData (List.last values x).
Proof.
  induction values as [|v rest IH]; intros x st Hd; [done|].
  cbn [assign_loaded_each]. rewrite (assign_loaded_data H m v x st Hd). cbn [snd].
  destruct (IH v (mkSt (upd_mod m (HostModule.set_loaded (LoadedData v)) (world st))
                       (calls st))) as [Hc Hl].
  { cbn [world]. by heap. }
  cbv zeta. rewrite Hc, Hl. split; [done|]. by rewrite last_cons.
Qed.

Lemma assign_loaded_accessor (H : Host) (entry : eref) (m : mref) (v : Value) (st : St) :
  hooks_keep_loaded H entry m →
  HostModule.loaded (mod_of (world st) m) = LoadedAccessor entry →
  let st' := snd (assign_loaded H m v st) in
  if truthy v
  then HostModule.loaded (mod_of (world st') m) = LoadedData v
       ∧ calls st' = (calls st ++ [EvUpdateBindings entry; EvLoaded entry])%list
  else st' = st.
Proof.
  intros (Hu & Hl & Hret) Ha. unfold assign_loaded. mrun. rewrite Ha.
  unfold loaded_setter, setProperty_loaded. destruct (truthy v); [|done]. mrun.
  set (w1 := upd_mod m (HostModule.set_loaded (LoadedData v)) (world st)).
  specialize (Hu w1). destruct (Hret w1) as [w2 Hupd]. rewrite Hupd in Hu |- *. mrun.
  specialize (Hl w2). destruct (entry_loaded H entry w2) as [r w3].
  cbn [snd world calls] in *. rewrite Hl, Hu. unfold w1. heap.
  split; [done|]. by rewrite <- app_assoc.
Qed.

Lemma assign_loaded_each_accessor (H : Host) (entry : eref) (m : mref)
    (values : list Value) :
  hooks_keep_loaded H entry m →
  ∀ st : St,
    HostModule.loaded (mod_of (world st) m) = LoadedAccessor entry →
    let st' := assign_loaded_each H m values st in
    let fired := if existsb truthy values then 1%nat else 0%nat in
    read_loaded m (world st') = loaded_after values
    ∧ count_calls (is_updateBindings entry) (calls st')
      = (count_calls (is_updateBindings entry) (calls st) + fired)%nat
    ∧ count_calls (is_loaded_hook entry) (calls st')
      = (count_calls (is_loaded_hook entry) (calls st) + fired)%nat.
Proof.
  intros Hk. induction values as [|v rest IH]; intros st Ha.
  - cbn. unfold read_loaded. rewrite Ha. by rewrite !Nat.add_0_r.
  - cbn [assign_loaded_each existsb loaded_after].
    pose proof (assign_loaded_accessor H entry m v st Hk Ha) as Hstep. cbv zeta in Hstep.
    destruct (truthy v); cbn [orb].
    + destruct Hstep as [Hd Hc].
      destruct (assign_loaded_each_data H m rest v _ Hd) as [Hc' Hl'].
      unfold read_loaded. cbv zeta. rewrite Hl', Hc', Hc.
      unfold count_calls. rewrite !List.filter_app, !length_app. cbn.
      by rewrite !bool_decide_true.
    + rewrite Hstep. by apply IH.
Qed.

(** C8. When the run of a Declarative entry returns, the [loaded] property
    of its host module is the accessor of lines 381-392. From then on, and
    as long as it is installed, the property reads [false] until a truthy
    value is assigned to it; the first truthy value is forwarded to a plain
    data property, with one call of [entry.updateBindings()] and one of
    [entry.loaded()]; any later assignment is a plain write and fires
    neither again. (The hooks are taken not to redefine the property, and
    the binding update to return.) *)
Theorem tryRun_loaded_one_shot (H : Host) (entry : eref) (filename : string)
    (st : St) (v : Value) (st' : St) :
  let m := Entry.module (entry_of (world st) entry) in
  Entry.type (entry_of (world st) entry) = TYPE_ESM →
  tryRun H entry filename st = (Ret v, st') →
  hooks_keep_loaded H entry m →
  HostModule.loaded (mod_of (world st') m) = LoadedAccessor entry
  ∧ ∀ (values : list Value) (st0 : St),
      HostModule.loaded (mod_of (world st0) m) = LoadedAccessor entry →
      let st1 := assign_loaded_each H m values st0 in
      let fired := if existsb truthy values then 1%nat else 0%nat in
      read_loaded m (world st1) = loaded_after values
      ∧ count_calls (is_updateBindings entry) (calls st1)
        = (count_calls (is_updateBindings entry) (calls st0) + fired)%nat
      ∧ count_calls (is_loaded_hook entry) (calls st1)
        = (count_calls (is_loaded_hook entry) (calls st0) + fired)%nat.
Proof.
  intros m Ht Hrun Hk. split.
  - by apply (tryRun_installs_accessor H entry filename st v st').
  - intros values st0. by apply assign_loaded_each_accessor.
Qed.

Lemma tryRun_loaded_one_shot_witness :
  let H := Demo.host None in
  let w := Demo.after_a_pass
             (Demo.heap (Demo.entry TYPE_ESM STATE_PARSING_COMPLETED (Some 1%nat) [])
                        (Demo.compileData 0 0 None) false) in
  let st' := snd (tryRun H 1%nat "a.js" (Demo.start w)) in
  let st1 := assign_loaded_each H 1%nat
               [VBool false; VNum 0; VStr "yes"; VBool true; VBool true] st' in
  read_loaded 1%nat (world st') = VBool false
  ∧ read_loaded 1%nat (world st1) = VBool true
  ∧ count_calls (is_updateBindings 1%nat) (calls st1) = 1%nat
  ∧ count_calls (is_loaded_hook 1%nat) (calls st1) = 1%nat.
Proof.
  intros H w st' st1.
  assert (Hk : hooks_keep_loaded H 1%nat 1%nat).
  { split; [done|]. split; [done|]. intros w0. by exists w0. }
  destruct (tryRun_loaded_one_shot H 1%nat "a.js" (Demo.start w) (VNum 42) st'
              ltac:(by vm_compute) ltac:(by vm_compute) Hk) as [Hinst Hshot].
  destruct (Hshot [VBool false; VNum 0; VStr "yes"; VBool true; VBool true] st' Hinst)
    as (Hread & Hupd & Hld).
  change (Entry.module (entry_of (world (Demo.start w)) 1%nat)) with 1%nat in *.
  fold st1 in Hread, Hupd, Hld.
  split; [unfold read_loaded; by rewrite Hinst|].
  split; [by rewrite Hread|]. split.
  - rewrite Hupd. by vm_compute.
  - rewrite Hld. by vm_compute.
Defined.

(** ** Running the body of a circular module again *)






Lemma compile_circular_run (entry : eref) (c : cdref) (st : St) :
  let w := world st in
  let known := negb (Z.eqb (CompileData.circular (cd_of w c)) (-1)) in
  let w' :=
    if known then w
    else upd_cd c (CompileData.set_circular
                     (if isDescendant w entry entry then 1 else 0)) w in
  compile_circular entry c st = (Ret tt, mkSt w' (calls st))
  ∧ CompileData.circular (cd_of w' c)
    = (if known then CompileData.circular (cd_of w c)
       else if isDescendant w entry entry then 1 else 0)
  ∧ (known = false →
     compile_circular entry c (mkSt w' (calls st)) = (Ret tt, mkSt w' (calls st))).
Proof.
  intros w known w'. subst known w'. unfold compile_circular. mrun. fold w.
  destruct (Z.eqb (CompileData.circular (cd_of w c)) (-1)) eqn:Hu; cbn [negb]; mrun.
  - split; [done|]. heap. split; [done|]. intros _.
    by destruct (isDescendant w entry entry).
  - split; [by destruct st|]. split; [done|]. done.
Qed.








(** * Further properties of the drivers *)

(** ** What isDescendant computes *)

Section Reachability.
Context (w : World) (entry : eref).

Lemma isDescendant_fuel_sound fuel :
  ∀ parentEntry seen seen',
    isDescendant_fuel fuel w entry parentEntry seen = Some (true, seen') →
    descends w parentEntry entry.
Proof.
  induction fuel as [|fuel IH]; intros parentEntry seen seen' Hrun.
  - destruct seen as [s|]; simpl in Hrun; [|done].
    by destruct (decide (parentEntry ∈ s)).
  - assert (Hvisit : ∀ s1 : gset eref,
        (fix each (children : list (string * eref)) (seen : gset eref) :=
           match children with
           | [] => Some (false, seen)
           | (_, childEntry) :: rest =>
               if decide (entry = childEntry) then Some (true, seen)
               else
                 match isDescendant_fuel fuel w entry childEntry (Some seen) with
                 | None => None
                 | Some (true, seen') => Some (true, seen')
                 | Some (false, seen') => each rest seen'
                 end
           end) (Entry.children (entry_of w parentEntry)) s1 = Some (true, seen') →
        descends w parentEntry entry).
    { assert (Hkids : ∀ c, c ∈ (Entry.children (entry_of w parentEntry)).*2 →
                           is_child w parentEntry c) by done.
      revert Hkids.
      induction (Entry.children (entry_of w parentEntry)) as [|[name child] rest IHl];
        intros Hkids s1 Hloop; [done|].
      destruct (decide (entry = child)) as [->|Hne].
      - apply tc_once, (Hkids child). rewrite fmap_cons. by left.
      - destruct (isDescendant_fuel fuel w entry child (Some s1)) as [[[] s2]|] eqn:Hrec;
          [| |done].
        + apply tc_l with child; [|by eapply IH].
          apply (Hkids child). rewrite fmap_cons. by left.
        + eapply IHl; [|exact Hloop]. intros c Hc. apply (Hkids c).
          rewrite fmap_cons. by right. }
    destruct seen as [s|]; simpl in Hrun.
    + destruct (decide (parentEntry ∈ s)); [done|]. by eapply Hvisit.
    + by eapply Hvisit.
Qed.

Lemma isDescendant_fuel_complete fuel :
  ∀ parentEntry seen seen',
    isDescendant_fuel fuel w entry parentEntry seen = Some (false, seen') →
    seen_set seen ⊆ seen'
    ∧ parentEntry ∈ seen'
    ∧ ∀ n c, n ∈ seen' → n ∉ seen_set seen → is_child w n c → c ∈ seen' ∧ c ≠ entry.
Proof.
  induction fuel as [|fuel IH]; intros parentEntry seen seen' Hrun.
  - destruct seen as [s|]; simpl in Hrun; [|done].
    destruct (decide (parentEntry ∈ s)); [|done].
    injection Hrun as <-. simpl. set_solver.
  - assert (Hloop : ∀ (kids : list (string * eref)) (s1 : gset eref),
        (fix each (children : list (string * eref)) (seen : gset eref) :=
           match children with
           | [] => Some (false, seen)
           | (_, childEntry) :: rest =>
               if decide (entry = childEntry) then Some (true, seen)
               else
                 match isDescendant_fuel fuel w entry childEntry (Some seen) with
                 | None => None
                 | Some (true, seen') => Some (true, seen')
                 | Some (false, seen') => each rest seen'
                 end
           end) kids s1 = Some (false, seen') →
        s1 ⊆ seen'
        ∧ (∀ c, c ∈ kids.*2 → c ∈ seen' ∧ c ≠ entry)
        ∧ ∀ n c, n ∈ seen' → n ∉ s1 → is_child w n c → c ∈ seen' ∧ c ≠ entry).
    { induction kids as [|[name child] rest IHl]; intros s1 Hloop.
      - injection Hloop as <-. set_solver.
      - destruct (decide (entry = child)) as [->|Hne]; [done|].
        destruct (isDescendant_fuel fuel w entry child (Some s1)) as [[[] s2]|] eqn:Hrec;
          [done| |done].
        apply IH in Hrec as (Hsub & Hin & Hnew). simpl in Hsub, Hnew.
        apply IHl in Hloop as (Hsub' & Hkids & Hnew').
        split; [set_solver|]. split.
        + intros c Hc. rewrite fmap_cons, elem_of_cons in Hc.
          destruct Hc as [->|Hc]; [|by apply Hkids]. split; [set_solver|done].
        + intros n c Hn Hn1 Hc. destruct (decide (n ∈ s2)) as [Hn2|Hn2].
          * destruct (Hnew n c Hn2 Hn1 Hc). split; [set_solver|done].
          * by apply (Hnew' n c). }
    assert (Hvisit : ∀ s : gset eref,
        (fix each (children : list (string * eref)) (seen : gset eref) :=
           match children with
           | [] => Some (false, seen)
           | (_, childEntry) :: rest =>
               if decide (entry = childEntry) then Some (true, seen)
               else
                 match isDescendant_fuel fuel w entry childEntry (Some seen) with
                 | None => None
                 | Some (true, seen') => Some (true, seen')
                 | Some (false, seen') => each rest seen'
                 end
           end) (Entry.children (entry_of w parentEntry)) ({[parentEntry]} ∪ s)
        = Some (false, seen') →
        s ⊆ seen' ∧ parentEntry ∈ seen'
        ∧ ∀ n c, n ∈ seen' → n ∉ s → is_child w n c → c ∈ seen' ∧ c ≠ entry).
    { intros s Hret. apply Hloop in Hret as (Hsub & Hkids & Hnew).
      split; [set_solver|]. split; [set_solver|].
      intros n c Hn Hns Hc. destruct (decide (n = parentEntry)) as [->|Hnp].
      - by apply (Hkids c).
      - apply (Hnew n c); [done|set_solver|done]. }
    destruct seen as [s|]; simpl in Hrun |- *.
    + destruct (decide (parentEntry ∈ s)).
      * injection Hrun as <-. set_solver.
      * by apply Hvisit.
    + apply Hvisit in Hrun as (_ & Hin & Hnew). split; [set_solver|]. split; [done|].
      intros n c Hn _. by apply (Hnew n c).
Qed.
End Reachability.

Lemma isDescendant_iff_descends (w : World) (entry parentEntry : eref) :
  isDescendant w entry parentEntry = true ↔ descends w parentEntry entry.
Proof.
  destruct (isDescendant_spec w entry parentEntry) as [seen' Hrun].
  split.
  - intros Ht. rewrite Ht in Hrun. by eapply isDescendant_fuel_sound.
  - intros Hd. destruct (isDescendant w entry parentEntry) eqn:Hb; [done|].
    exfalso. apply isDescendant_fuel_complete in Hrun as (_ & Hin & Hclosed).
    assert (Hall : ∀ x y, tc (is_child w) x y → x ∈ seen' → y ∈ seen' ∧ y ≠ entry).
    { induction 1 as [x y Hxy|x z y Hxz _ IHtc]; intros Hx.
      - apply (Hclosed x y); [done|set_solver|done].
      - apply IHtc. apply (Hclosed x z); [done|set_solver|done]. }
    by destruct (Hall _ _ Hd Hin) as [_ Hne].
Qed.

(** X1. [isDescendant(entry, parentEntry)] is true exactly when [entry] is
    reached from [parentEntry] by following [children] once or more, on any
    import graph, cyclic or not: the [seen] set cuts no path short. *)
Theorem isDescendant_reachable (w : World) (entry parentEntry : eref) :
  isDescendant w entry parentEntry = true ↔ descends w parentEntry entry.
Proof. apply isDescendant_iff_descends. Qed.

(** X2. When the circular mark of the compile data is still unknown
    ([-1]), [compile] settles it (lines 158-160) as [1] exactly when the
    entry is on a cycle of the import graph, reaching itself through its
    [children], and as [0] otherwise. *)
Theorem compile_circular_marks_cycles (entry : eref) (c : cdref) (st : St) :
  CompileData.circular (cd_of (world st) c) = -1 →
  ∃ w',
    compile_circular entry c st = (Ret tt, mkSt w' (calls st))
    ∧ (CompileData.circular (cd_of w' c) = 1 ↔ descends (world st) entry entry)
    ∧ (CompileData.circular (cd_of w' c) = 0 ↔ ¬ descends (world st) entry entry).
Proof.
  intros Hunknown. destruct (compile_circular_run entry c st) as (Hrun & Hmark & _).
  cbv zeta in Hrun, Hmark. rewrite Hunknown, Z.eqb_refl in Hrun, Hmark.
  cbn [negb] in Hrun, Hmark.
  eexists. split; [exact Hrun|]. rewrite Hmark, <- isDescendant_iff_descends.
  by destruct (isDescendant (world st) entry entry).
Qed.

Lemma compile_circular_marks_cycles_witness :
  let w := Demo.heap (Demo.entry TYPE_ESM STATE_PARSING_STARTED (Some 1%nat) [])
                     (Demo.compileData 0 (-1) None) true in
  ∃ w', compile_circular 1%nat 1%nat (Demo.start w) = (Ret tt, mkSt w' [])
        ∧ CompileData.circular (cd_of w' 1%nat) = 1.
Proof.
  intros w.
  destruct (compile_circular_marks_cycles 1%nat 1%nat (Demo.start w) eq_refl)
    as (w' & Hrun & Hone & _).
  exists w'. split; [exact Hrun|]. apply Hone, tc_once.
  unfold is_child.
  assert ((Entry.children (entry_of (world (Demo.start w)) 1%nat)).*2 = [1%nat]) as ->
    by (by vm_compute).
  constructor.
Defined.

(** ** What exportsRegExp matches *)

Lemma strip_prefix_spec (p : string) :
  ∀ s r, strip_prefix p s = Some r ↔ s = p ++ r.
Proof.
  induction p as [|a p IH]; intros s r; simpl.
  - split; [by intros [= ->]|by intros ->].
  - destruct s as [|b s]; [done|].
    destruct (Ascii.eqb_spec a b) as [->|Hne].
    + rewrite IH. split; [by intros ->|by intros [= ->]].
    + split; [done|]. intros [= Hb _]. by destruct Hne.
Qed.

Lemma exports_word_here_spec (s : string) :
  exports_word_here s = true
  ↔ ∃ after, s = "exports" ++ after ∧ starts_in_word after = false.
Proof.
  unfold exports_word_here.
  destruct (strip_prefix "exports" s) as [r|] eqn:Hstrip.
  - apply strip_prefix_spec in Hstrip as ->. split.
    + intros Hr. exists r. split; [done|]. destruct r; [done|].
      by apply negb_true_iff.
    + intros (after & Heq & Hafter).
      assert (r = after) as -> by (by injection Heq).
      destruct after; [done|]. by apply negb_true_iff.
  - split; [done|]. intros (after & Heq & _).
    apply strip_prefix_spec in Heq. congruence.
Qed.

Lemma exports_scan_eq (stopAtLine afterWord : bool) (s : string) :
  exports_scan stopAtLine afterWord s
  = negb afterWord && exports_word_here s
    || match s with
       | EmptyString => false
       | String c rest =>
           negb (stopAtLine && isLineTerminator c)
           && exports_scan stopAtLine (isWordChar c) rest
       end.
Proof. by destruct s. Qed.

Lemma exports_scan_spec (s : string) :
  ∀ afterWord,
    exports_scan true afterWord s = true
    ↔ ∃ before after,
        s = before ++ "exports" ++ after
        ∧ one_line before = true
        ∧ ends_in_word afterWord before = false
        ∧ starts_in_word after = false.
Proof.
  induction s as [|c rest IH]; intros afterWord; rewrite exports_scan_eq.
  - split.
    + rewrite orb_false_r, andb_true_iff. by intros [_ ?].
    + intros ([|] & after & Heq & _); done.
  - rewrite orb_true_iff, !andb_true_iff, negb_true_iff, exports_word_here_spec.
    cbn [andb]. rewrite negb_true_iff, IH. split.
    + intros [[Haw (after & Heq & Hafter)]|[Hc (before & after & Heq & Hline & Hend & Hafter)]].
      * exists "", after. by rewrite Heq.
      * exists (String c before), after. cbn [one_line ends_in_word].
        rewrite Heq, Hc, Hline. done.
    + intros ([|c' before] & after & Heq & Hline & Hend & Hafter).
      * left. split; [done|]. by exists after.
      * right. injection Heq as <- ->. cbn [one_line ends_in_word] in Hline, Hend.
        apply andb_true_iff in Hline as [Hc Hline]. apply negb_true_iff in Hc.
        split; [done|]. by exists before, after.
Qed.

(** X3. The test of line 64 succeeds exactly on the messages that read
    [before ++ "exports" ++ after] where [before] holds no line terminator
    and does not end in a word unit, and [after] does not begin with one:
    the word [exports], standing alone, on the first line. *)
Theorem exportsRegExp_matches_word_on_first_line (message : string) :
  exportsRegExp_test message = true
  ↔ ∃ before after,
      message = before ++ "exports" ++ after
      ∧ one_line before = true
      ∧ ends_in_word false before = false
      ∧ starts_in_word after = false.
Proof. apply exports_scan_spec. Qed.

Lemma strip_prefix_app (c : ascii) (rest p : string) :
  (∀ a, a ∈ list_ascii_of_string p → a ≠ c) →
  ∀ s, strip_prefix p (s ++ String c rest)
       = match strip_prefix p s with
         | Some r => Some (r ++ String c rest)
         | None => None
         end.
Proof.
  induction p as [|a p IH]; intros Hp s; [done|].
  assert (Hac : a ≠ c) by (apply Hp; left).
  destruct s as [|b s]; simpl.
  - by destruct (Ascii.eqb_spec a c).
  - destruct (Ascii.eqb a b); [|done]. apply IH. intros a' Ha'. apply Hp. by right.
Qed.

Lemma exports_word_here_app (c : ascii) (rest s : string) :
  isLineTerminator c = true →
  exports_word_here (s ++ String c rest) = exports_word_here s.
Proof.
  intros Hc. unfold exports_word_here. rewrite strip_prefix_app.
  - destruct (strip_prefix "exports" s) as [[|x r]|]; [|done..]. simpl.
    destruct c as [[] [] [] [] [] [] [] []]; by vm_compute in Hc |- *.
  - intros a Ha ->. cbn in Ha.
    repeat (apply elem_of_cons in Ha as [->|Ha]; [by vm_compute in Hc|]).
    by apply elem_of_nil in Ha.
Qed.

Lemma exports_scan_first_line (c : ascii) (rest line : string) :
  isLineTerminator c = true →
  ∀ afterWord,
    one_line line = true →
    exports_scan true afterWord (line ++ String c rest)
    = exports_scan true afterWord line.
Proof.
  intros Hc. induction line as [|a line IH]; intros afterWord Hline.
  - rewrite !exports_scan_eq, (exports_word_here_app c rest "" Hc).
    change ("" ++ String c rest) with (String c rest). cbn iota.
    by rewrite Hc.
  - cbn [one_line] in Hline. apply andb_true_iff in Hline as [_ Hline].
    rewrite (exports_scan_eq _ _ (String a line ++ String c rest)),
      (exports_scan_eq _ _ (String a line)), (exports_word_here_app c rest _ Hc).
    change (String a line ++ String c rest) with (String a (line ++ String c rest)).
    cbn iota. by rewrite IH.
Qed.

(** X4. Only the first line of the message counts: what follows the first
    line terminator never changes the outcome of the test of line 64. *)
Theorem exportsRegExp_reads_first_line (line rest : string) (c : ascii) :
  one_line line = true →
  isLineTerminator c = true →
  exportsRegExp_test (line ++ String c rest) = exportsRegExp_test line.
Proof. intros Hline Hc. by apply exports_scan_first_line. Qed.

Lemma exportsRegExp_reads_first_line_witness :
  exportsRegExp_test
    ("x is not defined" ++ String (ascii_of_nat 10) "exports is not defined") = false
  ∧ exportsRegExp_test
      ("exports is not defined" ++ String (ascii_of_nat 13) "at x") = true.
Proof.
  split.
  - by rewrite (exportsRegExp_reads_first_line "x is not defined" "exports is not defined"
                  (ascii_of_nat 10) ltac:(by vm_compute) ltac:(by vm_compute)).
  - by rewrite (exportsRegExp_reads_first_line "exports is not defined" "at x"
                  (ascii_of_nat 13) ltac:(by vm_compute) ltac:(by vm_compute)).
Defined.

(** ** What compile leaves behind *)

(** X5. When the caching compiler throws, [compile] throws the error recast
    by [tryCompile] and does nothing else: past the heap the compiler left,
    the one write is [entry.state = STATE_EXECUTION_COMPLETED]; no compile
    data is stored on the entry or in the package cache, and nothing is run. *)
Theorem compile_failure_stores_nothing (H : Host) (caller : nat) (entry : eref)
    (content filename : string) (fallback : option (World → Res Value * World))
    (st : St) (cached : option cdref) (w1 : World) (error : Err.t) (w2 : World) :
  let w0 := world st in
  let pkg := Entry.package (entry_of w0 entry) in
  let options := Package.options (pkg_of w0 pkg) in
  let types := compile_sourceType (Entry.extname (entry_of w0 entry))
                                  (Options.mode options) in
  let asked := compile_options w1 entry filename pkg options types.1 types.2 in
  Entry.compileData (entry_of w0 entry) = None →
  CachingCompiler_from H entry w0 = (cached, w1) →
  stale w1 cached = true →
  CachingCompiler_compile H content asked w1 = (Throw error, w2) →
  compile H caller entry content filename fallback st
  = (Throw (recast H w2 caller content filename error),
     mkSt (upd_entry entry (Entry.set_state STATE_EXECUTION_COMPLETED) w2)
          (calls st ++ [EvFrom entry; EvCachingCompile content asked])).
Proof.
  intros w0 pkg options types asked. subst asked types options pkg w0.
  unfold compile. rewrite run_bind. cbn [get_world world]. cbv zeta.
  destruct (compile_sourceType _ _) as [hint sourceType]. cbn [fst snd].
  intros Hnone Hfrom Hstale Hcomp.
  unfold compile_data, tryCompile. mrun. rewrite Hnone. mrun.
  rewrite Hfrom. mrun. fold (stale w1 cached). rewrite Hstale. mrun.
  rewrite Hcomp. mrun. unfold recast.
  change (debug (upd_entry entry (Entry.set_state STATE_EXECUTION_COMPLETED) w2))
    with (debug w2).
  destruct (debug w2 || negb (isStackTraceMaskable H error)); mrun;
    by rewrite <- app_assoc.
Qed.

Lemma compile_failure_stores_nothing_witness :
  let boom := Err.mk "SyntaxError" "Unexpected token" None None None false in
  let H := Demo_failing_compiler boom in
  let w := Demo.heap (Demo.entry TYPE_CJS STATE_INITIAL None [])
                     (Demo.compileData 0 (-1) None) false in
  let run := compile H 0%nat 1%nat "let let" "a.js" None (Demo.start w) in
  fst run = Throw (maskStackTrace H boom (Some "let let") "a.js" None)
  ∧ Entry.compileData (entry_of (world (snd run)) 1%nat) = None
  ∧ Package.cache_compile (pkg_of (world (snd run)) 0%nat) = ∅
  ∧ Entry.state (entry_of (world (snd run)) 1%nat) = STATE_EXECUTION_COMPLETED
  ∧ List.length (calls (snd run)) = 2%nat.
Proof.
  intros boom H w run.
  pose proof (compile_failure_stores_nothing H 0%nat 1%nat "let let" "a.js" None
                (Demo.start w) None w boom w
                ltac:(by vm_compute) ltac:(by vm_compute) ltac:(by vm_compute)
                ltac:(by vm_compute)) as Hrun.
  fold run in Hrun. rewrite Hrun. by vm_compute.
Defined.

Ltac compile_data_code_leaf :=
  match goal with
  | |- context [match CompileData.code ?d with _ => _ end] =>
      let Hcode := fresh "Hcode" in
      destruct (CompileData.code d) eqn:Hcode
  end;
  mrun; eexists; (split; [reflexivity|]); cbn [world]; heap;
  try congruence.

Lemma compile_data_code (H : Host) (caller : nat) (entry : eref)
    (content filename : string) (pkg : pref) (options : Options.t)
    (isDefaultPkg : bool) (hint sourceType : SourceType) (st : St) :
  match compile_data H caller entry content filename pkg options isDefaultPkg
                     hint sourceType st with
  | (Ret compileData, st') =>
      ∃ c, compileData = Some c ∧ CompileData.code (cd_of (world st') c) ≠ None
  | (Throw _, _) => True
  end.
Proof.
  unfold compile_data, tryCompile. mrun.
  destruct (Entry.compileData (entry_of (world st) entry)) as [c0|]; mrun.
  { compile_data_code_leaf. }
  destruct (CachingCompiler_from H entry (world st)) as [cached w1]. mrun.
  destruct cached as [c0|];
    [destruct (negb (Z.eqb (CompileData.transforms (cd_of w1 c0)) 0))|]; mrun;
    try compile_data_code_leaf.
  all: destruct (CachingCompiler_compile H content _ w1) as [[c|e] w2]; mrun;
    [|by destruct (debug _ || negb _)].
  all: destruct (bool_decide (CompileData.sourceType _ = SOURCE_TYPE_MODULE)); mrun;
    match goal with
    | |- context [if ?b then _ else _] => destruct b
    end; mrun; compile_data_code_leaf.
Qed.

(** X6. Whenever the part of [compile] that settles the compile data
    (lines 87-136) returns, it returns compile data, never [null], and that
    compile data has code: where the compiler or the cache gave none, the
    source text stands in. *)
Theorem compile_data_always_has_code (H : Host) (caller : nat) (entry : eref)
    (content filename : string) (pkg : pref) (options : Options.t)
    (isDefaultPkg : bool) (hint sourceType : SourceType)
    (st : St) (compileData : option cdref) (st' : St) :
  compile_data H caller entry content filename pkg options isDefaultPkg
               hint sourceType st = (Ret compileData, st') →
  ∃ c, compileData = Some c ∧ CompileData.code (cd_of (world st') c) ≠ None.
Proof.
  intros Hrun.
  pose proof (compile_data_code H caller entry content filename pkg options
                isDefaultPkg hint sourceType st) as Hcode.
  by rewrite Hrun in Hcode.
Qed.

Lemma compile_data_always_has_code_witness :
  let H := Demo.host None in
  let w := Demo.heap (Demo.entry TYPE_CJS STATE_INITIAL (Some 1%nat) [])
                     (CompileData.set_code None (Demo.compileData 0 (-1) None)) false in
  let run := compile_data H 0%nat 1%nat "exports.a = 1" "a.js" 0%nat Demo.options true
                          SOURCE_TYPE_SCRIPT SOURCE_TYPE_SCRIPT (Demo.start w) in
  CompileData.code (cd_of w 1%nat) = None
  ∧ ∃ c, Some 1%nat = Some c ∧ CompileData.code (cd_of (world (snd run)) c) ≠ None.
Proof.
  intros H w run. split; [done|].
  apply (compile_data_always_has_code H 0%nat 1%nat "exports.a = 1" "a.js" 0%nat
           Demo.options true SOURCE_TYPE_SCRIPT SOURCE_TYPE_SCRIPT (Demo.start w)).
  by vm_compute.
Defined.

(** X7. When [compile] has the source compiled afresh, the new compile data
    is filed in the compile cache of the package under the entry's
    [cacheName], every other cache name keeps what it had, and the new
    compile data takes over the [scriptData] of the stale compile data it
    replaces ([null] when there was none). *)
Theorem compile_data_files_fresh (H : Host) (caller : nat) (entry : eref)
    (content filename : string) (pkg : pref) (options : Options.t)
    (isDefaultPkg : bool) (hint sourceType : SourceType)
    (st0 : St) (cached : option cdref) (w1 : World) (c : cdref) (w2 : World) :
  Entry.compileData (entry_of (world st0) entry) = None →
  CachingCompiler_from H entry (world st0) = (cached, w1) →
  stale w1 cached = true →
  CachingCompiler_compile H content
    (compile_options w1 entry filename pkg options hint sourceType) w1 = (Ret c, w2) →
  let cacheName := Entry.cacheName (entry_of w1 entry) in
  ∃ st',
    compile_data H caller entry content filename pkg options isDefaultPkg
                 hint sourceType st0 = (Ret (Some c), st')
    ∧ Package.cache_compile (pkg_of (world st') pkg) !! cacheName = Some c
    ∧ (∀ other, other ≠ cacheName →
         Package.cache_compile (pkg_of (world st') pkg) !! other
         = Package.cache_compile (pkg_of w2 pkg) !! other)
    ∧ CompileData.scriptData (cd_of (world st') c)
      = match cached with
        | Some old => CompileData.scriptData (cd_of w1 old)
        | None => None
        end.
Proof.
  intros Hnone Hfrom Hstale Hcomp cacheName.
  unfold compile_data, tryCompile. mrun. rewrite Hnone. mrun. rewrite Hfrom. mrun.
  fold (stale w1 cached). rewrite Hstale. mrun. rewrite Hcomp. mrun.
  destruct (bool_decide (CompileData.sourceType _ = SOURCE_TYPE_MODULE)); mrun;
    match goal with
    | |- context [if ?b then _ else _] => destruct b
    end; mrun;
    match goal with
    | |- context [match CompileData.code ?d with _ => _ end] =>
        destruct (CompileData.code d)
    end; mrun;
    (eexists; split; [reflexivity|]); cbn [world]; heap;
    (split; [by rewrite lookup_insert_eq|]);
    (split; [by intros other Hother; rewrite lookup_insert_ne|]);
    by destruct cached.
Qed.

Lemma compile_data_files_fresh_witness :
  let H := Demo.host None in
  let w := Demo.heap (Demo.entry TYPE_OTHER STATE_INITIAL None [])
                     (CompileData.set_scriptData (Some 7%nat) (Demo.compileData 4 (-1) None))
                     false in
  let stored := upd_pkg 0%nat (Package.set_cache_compile {["a.js" := 1%nat]}) w in
  let st' := snd (compile_data H 0%nat 1%nat "exports.a = 1" "a.js" 0%nat Demo.options true
                               SOURCE_TYPE_SCRIPT SOURCE_TYPE_SCRIPT (Demo.start stored)) in
  Package.cache_compile (pkg_of (world st') 0%nat) !! "a.js" = Some 2%nat
  ∧ CompileData.scriptData (cd_of (world st') 2%nat) = Some 7%nat.
Proof.
  intros H w stored st'.
  destruct (compile_data_files_fresh H 0%nat 1%nat "exports.a = 1" "a.js" 0%nat
              Demo.options true SOURCE_TYPE_SCRIPT SOURCE_TYPE_SCRIPT
              (Demo.start stored) (Some 1%nat) stored 2%nat
              (snd (CachingCompiler_compile H "exports.a = 1"
                      (compile_options stored 1%nat "a.js" 0%nat Demo.options
                                       SOURCE_TYPE_SCRIPT SOURCE_TYPE_SCRIPT) stored))
              ltac:(by vm_compute) ltac:(by vm_compute) ltac:(by vm_compute)
              ltac:(by vm_compute))
    as (st1 & Hrun & Hfiled & _ & Hscript).
  assert (st' = st1) as -> by (unfold st'; by rewrite Hrun).
  split; [exact Hfiled|exact Hscript].
Defined.

(** ** Where compile leaves the state of the entry *)

Lemma bind_ret_inv {A B} (m : M A) (f : A → M B) (st : St) (b : B) (st' : St) :
  (m ≫= f) st = (Ret b, st') →
  ∃ a st1, m st = (Ret a, st1) ∧ f a st1 = (Ret b, st').
Proof.
  rewrite run_bind. destruct (m st) as [[a|e] st1]; [|done]. by exists a, st1.
Qed.

Lemma compile_data_keeps_flag (H : Host) (b : bool) (caller : nat) (entry : eref)
    (content filename : string) (pkg : pref) (options : Options.t)
    (isDefaultPkg : bool) (hint sourceType : SourceType) (st : St) :
  HostKeeps H (λ w, parsing w = b) →
  parsing (world st) = b →
  parsing (world (compile_data H caller entry content filename pkg options
                               isDefaultPkg hint sourceType st).2) = b.
Proof.
  intros HK Hp. unfold compile_data, tryCompile. mrun.
  destruct (Entry.compileData (entry_of (world st) entry)) as [c0|]; mrun.
  { by destruct (CompileData.code _). }
  pose proof (keeps_from _ _ HK entry (world st) Hp) as Hfrom.
  destruct (CachingCompiler_from H entry (world st)) as [cached w1]. mrun.
  cbn [snd] in Hfrom.
  assert (Hcompile : ∀ o, parsing (CachingCompiler_compile H content o w1).2 = b)
    by (intros o; by apply (keeps_compiler _ _ HK)).
  destruct cached as [c0|];
    [destruct (negb (Z.eqb (CompileData.transforms (cd_of w1 c0)) 0))|]; mrun;
    try (by destruct (CompileData.code _)).
  all: match goal with
       | |- context [CachingCompiler_compile ?h ?s ?o ?w] =>
           specialize (Hcompile o);
           destruct (CachingCompiler_compile h s o w) as [[c|e] w2]
       end; mrun; cbn [snd] in Hcompile;
    [|by destruct (debug _ || negb _)].
  all: destruct (bool_decide (CompileData.sourceType _ = SOURCE_TYPE_MODULE)); mrun;
    match goal with
    | |- context [if ?b then _ else _] => destruct b
    end; mrun;
    by match goal with
       | |- context [match CompileData.code ?d with _ => _ end] =>
           destruct (CompileData.code d)
       end.
Qed.

Lemma compile_esm_sideloaded (H : Host) (entry : eref) (filename : string)
    (mod_ : mref) (compileData : option cdref) (st : St) (returned : option Value)
    (st' : St) :
  compile_esm H entry filename mod_ compileData true st = (Ret returned, st') →
  returned = None.
Proof.
  intros Hrun. unfold compile_esm, compile_finish in Hrun.
  repeat (apply bind_ret_inv in Hrun as (? & ? & _ & Hrun)).
  cbn in Hrun. by injection Hrun.
Qed.

Lemma compile_run_ends_with_run (H : Host) (entry : eref) (filename : string)
    (mod_ : mref) (isDefaultPkg : bool) (defaultPkg : pref)
    (compileData : option cdref) (fallback : option (World → Res Value * World))
    (st : St) (v : Value) (st' : St) :
  parsing (world st) = false →
  compile_run H entry filename mod_ isDefaultPkg defaultPkg compileData fallback st
  = (Ret v, st') →
  ∃ st1, parsing (world st1) = false ∧ tryRun H entry filename st1 = (Ret v, st').
Proof.
  intros Hp. unfold compile_run. rewrite run_bind. cbn [get_world world]. rewrite run_bind.
  destruct (decide (Entry.type (entry_of (world st) entry) = TYPE_ESM
                    ∧ Entry.state (entry_of (world st) entry) = STATE_INITIAL))
    as [[Ht Hs]|Hno].
  - rewrite compile_gate_acquires by (done || by apply bool_decide_eq_true).
    rewrite bool_decide_true by done. rewrite run_bind. unfold try_finally.
    destruct (compile_esm H entry filename mod_ compileData true _)
      as [[returned|e] st3] eqn:Hesm; [|done].
    apply compile_esm_sideloaded in Hesm as ->.
    intros Hrun. eexists. split; [|exact Hrun]. done.
  - rewrite compile_gate_passes.
    + rewrite Hp. intros Hrun. by exists st.
    + right. case_bool_decide; [right|by left]. by intros Hs; apply Hno.
Qed.

(** X8. A call of [compile] made while the parsing flag is down returns only
    after the entry has been executed: the entry is then at
    [STATE_EXECUTION_COMPLETED], whatever its type, also when the call went
    through a parse of its own. (The compiler and the cache are taken to
    leave the flag down, and the hooks of the entry to leave its state
    alone.) *)
Theorem compile_returns_after_execution (H : Host) (entry : eref) (caller : nat)
    (content filename : string) (fallback : option (World → Res Value * World))
    (st : St) (v : Value) (st' : St) :
  HostKeeps H not_parsing →
  hooks_keep_state H entry →
  parsing (world st) = false →
  compile H caller entry content filename fallback st = (Ret v, st') →
  Entry.state (entry_of (world st') entry) = STATE_EXECUTION_COMPLETED.
Proof.
  intros HK Hhooks Hp Hrun. unfold compile in Hrun.
  rewrite run_bind in Hrun. cbn [get_world world] in Hrun. cbv zeta in Hrun.
  destruct (compile_sourceType _ _) as [hint sourceType].
  apply bind_ret_inv in Hrun as (compileData & st1 & Hdata & Hrun).
  pose proof (compile_data_keeps_flag H false caller entry content filename
                (Entry.package (entry_of (world st) entry))
                (Package.options (pkg_of (world st) (Entry.package (entry_of (world st) entry))))
                (bool_decide (Entry.package (entry_of (world st) entry) = defaultPkg (world st)))
                hint sourceType st HK Hp) as Hp1.
  rewrite Hdata in Hp1. cbn [snd] in Hp1.
  apply compile_run_ends_with_run in Hrun as (st2 & Hp2 & Hrun); [|done].
  destruct (tryRun_returns_via_succeed H entry filename st2 v st' Hrun)
    as (firstPass & result & st5 & Hsucceed).
  pose proof (tryRun_succeed_state H entry (Entry.module (entry_of (world st2) entry))
                (parsing (world st2))
                (bool_decide (Entry.type (entry_of (world st2) entry) = TYPE_ESM))
                firstPass result st5 Hhooks) as [Hstate _].
  rewrite Hsucceed, Hp2 in Hstate. exact Hstate.
Qed.

Lemma compile_returns_after_execution_witness :
  let H := Demo.host None in
  let w := Demo.heap (Demo.entry TYPE_ESM STATE_INITIAL (Some 1%nat) [])
                     (Demo.compileData 0 (-1) None) false in
  let run := compile H 0%nat 1%nat "import './a.js'" "a.js" None (Demo.start w) in
  fst run = Ret (VNum 42)
  ∧ Entry.state (entry_of (world (snd run)) 1%nat) = STATE_EXECUTION_COMPLETED.
Proof.
  intros H w run. split; [by vm_compute|].
  apply (compile_returns_after_execution H 1%nat 0%nat "import './a.js'" "a.js" None
           (Demo.start w) (VNum 42)).
  - apply Demo_keeps_not_parsing.
  - by split.
  - done.
  - by vm_compute.
Defined.

(** ** Runs that do not step the module *)

Lemma tryRun_validate_running (H : Host) (entry : eref) (async isESM : bool)
    (c : cdref) (error : option Err.t) (w : World) :
  Entry.running (entry_of w entry) = true ∨ isESM = false →
  tryRun_validate H entry async isESM c error w = error.
Proof.
  intros Hor. unfold tryRun_validate.
  destruct (CompileData.firstAwaitOutsideFunction (cd_of w c)); [|done].
  destruct Hor as [->| ->]; cbn [negb]; by rewrite ?andb_false_r.
Qed.

(** X9. A run of an entry that is still running ([entry.running] set, its
    runtime already holding a run result) does not step the module: [tryRun]
    returns [undefined] without calling any collaborator and without
    touching the run result, and still moves the entry to the completed
    state that goes with the parsing flag. *)
Theorem tryRun_does_not_reenter (H : Host) (entry : eref) (filename : string)
    (st : St) (c : cdref) (r : oref) (rr : RunResult) :
  let w := world st in
  Entry.compileData (entry_of w entry) = Some c →
  Entry.runtime (entry_of w entry) = Some r →
  Obj._runResult (obj_of w r) = Some rr →
  Entry.running (entry_of w entry) = true →
  ∃ w',
    tryRun H entry filename st = (Ret VUndefined, mkSt w' (calls st))
    ∧ Entry.state (entry_of w' entry) = completed (parsing w)
    ∧ Entry.running (entry_of w' entry) = true
    ∧ objects w' = objects w
    ∧ generators w' = generators w
    ∧ compileDatas w' = compileDatas w
    ∧ packages w' = packages w.
Proof.
  intros w Hcd Hrt Hrr Hrun. subst w.
  unfold tryRun. rewrite run_bind. cbn [get_world world]. cbv zeta.
  rewrite run_bind, (tryRun_runtime_stored _ _ _ _ _ r Hrt).
  rewrite Hcd. mrun. heap. rewrite Hrr. mrun.
  rewrite tryRun_resume_skip by apply andb_false_r. mrun.
  rewrite tryRun_validate_running by (left; heap; done).
  unfold tryRun_read. mrun. heap. rewrite Hrun. cbn [threw negb andb]. mrun.
  unfold tryRun_succeed, completed. mrun.
  destruct (bool_decide (Entry.type (entry_of (world st) entry) = TYPE_ESM)); mrun.
  - eexists. split; [reflexivity|]. heap. by destruct (parsing (world st)).
  - rewrite andb_false_r. mrun.
    eexists. split; [reflexivity|]. heap. by destruct (parsing (world st)).
Qed.

Lemma tryRun_does_not_reenter_witness :
  let H := Demo.host None in
  let w := upd_entry 1%nat (Entry.set_running true)
             (Demo.after_a_pass
                (Demo.heap (Demo.entry TYPE_ESM STATE_PARSING_STARTED (Some 1%nat) [])
                           (Demo.compileData 0 0 None) true)) in
  let run := tryRun H 1%nat "a.js" (Demo.start w) in
  fst run = Ret VUndefined
  ∧ calls (snd run) = []
  ∧ Entry.state (entry_of (world (snd run)) 1%nat) = STATE_PARSING_COMPLETED.
Proof.
  intros H w run.
  destruct (tryRun_does_not_reenter H 1%nat "a.js" (Demo.start w) 1%nat 0%nat (RunHost 1)
              ltac:(by vm_compute) ltac:(by vm_compute) ltac:(by vm_compute)
              ltac:(by vm_compute)) as (w' & Hrun & Hstate & _).
  fold run in Hrun. rewrite Hrun. cbn [fst snd calls world]. by rewrite Hstate.
Defined.

(** ** The generator of a script entry *)

Lemma gen_of_set_gen_state (w : World) (g g' : gref) (x : GenState) :
  gen_of (set_gen_state g x w) g'
  = if decide (g = g')
    then {| gen_state := x; gen_module := gen_module (gen_of w g);
            gen_source := gen_source (gen_of w g);
            gen_filename := gen_filename (gen_of w g) |}
    else gen_of w g'.
Proof.
  unfold set_gen_state, gen_of at 1. simpl. destruct (decide (g = g')) as [->|Hne].
  - by rewrite lookup_insert_eq.
  - by rewrite lookup_insert_ne.
Qed.

Lemma new_generator_spec (x : Generator) (w : World) :
  gen_of (new_generator x w).2 (new_generator x w).1 = x
  ∧ (∀ e, entry_of (new_generator x w).2 e = entry_of w e)
  ∧ (∀ c, cd_of (new_generator x w).2 c = cd_of w c)
  ∧ (∀ p, pkg_of (new_generator x w).2 p = pkg_of w p)
  ∧ (∀ m, mod_of (new_generator x w).2 m = mod_of w m)
  ∧ (∀ o, obj_of (new_generator x w).2 o = obj_of w o)
  ∧ objects (new_generator x w).2 = objects w
  ∧ modules (new_generator x w).2 = modules w
  ∧ parsing (new_generator x w).2 = parsing w.
Proof.
  unfold new_generator, gen_of. simpl. by rewrite lookup_insert_eq.
Qed.

Lemma useSourceMap_run (H : Host) (entry : eref) (c : cdref) (st : St) :
  Entry.compileData (entry_of (world st) entry) = Some c →
  useSourceMap H entry st = (Ret (wants_sourceMap H (world st) entry c), st).
Proof.
  intros Hcd. unfold useSourceMap, wants_sourceMap. mrun.
  destruct (_ || _ || _ || _ || _); [|done]. rewrite Hcd. by mrun.
Qed.

Lemma obj_of_set_objects_insert (w : World) (o o' : oref) (x : Obj.t) :
  obj_of (set_objects (<[o := x]> (objects w)) w) o'
  = if decide (o = o') then x else obj_of w o'.
Proof.
  unfold obj_of. simpl. destruct (decide (o = o')) as [->|Hne].
  - by rewrite lookup_insert_eq.
  - by rewrite lookup_insert_ne.
Qed.
Lemma gen_of_set_objects (w : World) (x : gmap oref Obj.t) (g : gref) :
  gen_of (set_objects x w) g = gen_of w g.
Proof. reflexivity. Qed.
Lemma gen_of_set_generators_insert (w : World) (g g' : gref) (x : Generator) :
  gen_of (set_generators (<[g := x]> (generators w)) w) g'
  = if decide (g = g') then x else gen_of w g'.
Proof.
  unfold gen_of. simpl. destruct (decide (g = g')) as [->|Hne].
  - by rewrite lookup_insert_eq.
  - by rewrite lookup_insert_ne.
Qed.
Lemma entry_of_set_generators (w : World) (x : gmap gref Generator) (e : eref) :
  entry_of (set_generators x w) e = entry_of w e.
Proof. reflexivity. Qed.
Lemma cd_of_set_generators (w : World) (x : gmap gref Generator) (c : cdref) :
  cd_of (set_generators x w) c = cd_of w c.
Proof. reflexivity. Qed.
Lemma pkg_of_set_generators (w : World) (x : gmap gref Generator) (p : pref) :
  pkg_of (set_generators x w) p = pkg_of w p.
Proof. reflexivity. Qed.
Lemma mod_of_set_generators (w : World) (x : gmap gref Generator) (m : mref) :
  mod_of (set_generators x w) m = mod_of w m.
Proof. reflexivity. Qed.
Lemma obj_of_set_generators (w : World) (x : gmap gref Generator) (o : oref) :
  obj_of (set_generators x w) o = obj_of w o.
Proof. reflexivity. Qed.
#[local] Hint Rewrite obj_of_set_objects_insert gen_of_set_objects
  gen_of_set_generators_insert gen_of_set_gen_state entry_of_set_generators
  cd_of_set_generators pkg_of_set_generators mod_of_set_generators
  obj_of_set_generators : heap.

(** X10. The run of a script entry during a parse (type other than
    [TYPE_ESM], parsing flag set, no runtime yet, compile data without
    transforms) does not execute the module: no collaborator is called, the
    host's [_compile] included. The entry gets a new plain object as
    runtime, the generator of lines 313-316 is stored in its [_runResult],
    holding the module, the rendered source and the filename, and stops at
    its [yield]; the run returns [undefined] with the entry at
    [STATE_PARSING_COMPLETED]. *)
Theorem tryRun_parse_defers_script (H : Host) (entry : eref) (filename : string)
    (st : St) (c : cdref) :
  let w := world st in
  parsing w = true →
  Entry.type (entry_of w entry) ≠ TYPE_ESM →
  Entry.compileData (entry_of w entry) = Some c →
  Entry.runtime (entry_of w entry) = None →
  CompileData.transforms (cd_of w c) = 0 →
  ∃ (w' : World) (o : oref) (g : gref),
    tryRun H entry filename st = (Ret VUndefined, mkSt w' (calls st))
    ∧ (o ∉ dom (objects w))
    ∧ Entry.runtime (entry_of w' entry) = Some o
    ∧ Obj._runResult (obj_of w' o) = Some (RunGenerator g)
    ∧ gen_of w' g = {| gen_state := GenSuspended;
                       gen_module := Entry.module (entry_of w entry);
                       gen_source := rendered H w entry c;
                       gen_filename := filename |}
    ∧ Entry.state (entry_of w' entry) = STATE_PARSING_COMPLETED
    ∧ Entry.running (entry_of w' entry) = false
    ∧ modules w' = modules w.
Proof.
  intros w Hp Ht Hcd Hrt Htr. subst w.
  unfold tryRun. rewrite run_bind. cbn [get_world world]. cbv zeta.
  rewrite Hcd, Hp, (bool_decide_false _ Ht).
  unfold tryRun_runtime, GenericObject_create. mrun. rewrite Hrt. mrun.
  rewrite Htr. cbn [Z.eqb negb]. mrun. cbv zeta. mrun.
  set (o := fresh (dom (objects (world st)))).
  heap. cbn [Obj._runResult Obj.empty].
  unfold tryRun_firstPass. mrun.
  rewrite (useSourceMap_run H entry c) by (cbn [world]; heap; done).
  mrun. unfold new_generator. cbv zeta. mrun.
  set (g := fresh _).
  heap. cbn [Obj._runResult Obj.set_runResult].
  rewrite tryRun_resume_skip by done. mrun.
  rewrite tryRun_validate_running by by right.
  unfold tryRun_read. mrun. heap. cbn [threw negb andb]. mrun.
  unfold runResult_dot_next. mrun. heap. cbn [gen_state]. mrun.
  unfold tryRun_succeed. mrun.
  eexists _, o, g. split; [reflexivity|].
  split; [apply is_fresh|]. heap. unfold rendered, wants_sourceMap. heap.
  by repeat split.
Qed.

Lemma tryRun_parse_defers_script_witness :
  let H := Demo.host None in
  let w := Demo.heap (Demo.entry TYPE_CJS STATE_INITIAL (Some 1%nat) [])
                     (Demo.compileData 0 (-1) None) true in
  let run := tryRun H 1%nat "a.js" (Demo.start w) in
  fst run = Ret VUndefined
  ∧ calls (snd run) = []
  ∧ Entry.state (entry_of (world (snd run)) 1%nat) = STATE_PARSING_COMPLETED.
Proof.
  intros H w run.
  destruct (tryRun_parse_defers_script H 1%nat "a.js" (Demo.start w) 1%nat
              ltac:(by vm_compute) ltac:(by vm_compute) ltac:(by vm_compute)
              ltac:(by vm_compute) ltac:(by vm_compute))
    as (w' & o & g & Hrun & _ & _ & _ & _ & Hstate & _).
  fold run in Hrun. rewrite Hrun. cbn [fst snd calls world]. by rewrite Hstate.
Defined.

(** X11. The run that follows the parse of a script entry (type other than
    [TYPE_ESM], parsing flag down, the runtime holding the generator of
    lines 313-316 stopped at its [yield]) resumes the generator: the host's
    [_compile] is called once, on the module, source and filename stored in
    the generator. What [_compile] returns is the result of the run, and the
    run ends without assigning [loaded] or calling the hooks of the entry;
    what it throws goes through the error path of [tryRun]. *)
Theorem tryRun_executes_deferred_script (H : Host) (entry : eref) (filename : string)
    (st : St) (c : cdref) (o : oref) (g : gref) :
  let w := world st in
  let x := gen_of w g in
  let w1 := set_gen_state g GenRunning
              (upd_entry entry (Entry.set_running true)
                 (upd_entry entry (Entry.set_state STATE_EXECUTION_STARTED) w)) in
  let log := (calls st ++ [EvGeneratorCompile (gen_module x) (gen_source x)
                                               (gen_filename x)])%list in
  parsing w = false →
  Entry.type (entry_of w entry) ≠ TYPE_ESM →
  Entry.compileData (entry_of w entry) = Some c →
  Entry.runtime (entry_of w entry) = Some o →
  Obj._runResult (obj_of w o) = Some (RunGenerator g) →
  gen_state x = GenSuspended →
  Entry.running (entry_of w entry) = false →
  tryRun H entry filename st
  = match mod_compile H (gen_module x) (gen_source x) (gen_filename x) w1 with
    | (Ret v, w2) =>
        (Ret v,
         mkSt (upd_entry entry (Entry.set_state STATE_EXECUTION_COMPLETED)
                 (upd_entry entry (Entry.set_running false)
                    (set_gen_state g GenDone w2))) log)
    | (Throw e, w2) =>
        tryRun_fail H entry filename false e
          (mkSt (upd_entry entry (Entry.set_running false)
                   (set_gen_state g GenDone w2)) log)
    end.
Proof.
  intros w x w1 log Hp Ht Hcd Hrt Hrr Hgs Hrun. subst log w1 x w.
  unfold tryRun. rewrite run_bind. cbn [get_world world]. cbv zeta.
  rewrite run_bind, (tryRun_runtime_stored _ _ _ _ _ o Hrt).
  rewrite Hcd, Hp, (bool_decide_false _ Ht). mrun. heap. rewrite Hrr. mrun.
  rewrite tryRun_resume_skip by apply andb_false_r. mrun.
  rewrite tryRun_validate_running by by right.
  unfold tryRun_read. mrun. heap. rewrite Hrun. cbn [threw negb andb]. mrun.
  unfold runResult_dot_next. mrun. heap. rewrite Hrr. mrun. heap. rewrite Hgs. mrun.
  destruct (mod_compile H _ _ _ _) as [[v|e] w2]; mrun; [|done].
  unfold tryRun_succeed. by mrun.
Qed.

Lemma tryRun_executes_deferred_script_witness :
  let H := Demo.host None in
  let parsed :=
    world (snd (tryRun H 1%nat "a.js"
                  (Demo.start (Demo.heap (Demo.entry TYPE_CJS STATE_INITIAL (Some 1%nat) [])
                                         (Demo.compileData 0 (-1) None) true)))) in
  let run := tryRun H 1%nat "a.js" (Demo.start (set_parsing false parsed)) in
  fst run = Ret (VStr "body")
  ∧ calls (snd run) = [EvGeneratorCompile 1%nat "body" "a.js"]
  ∧ read_loaded 1%nat (world (snd run)) = VBool false.
Proof.
  intros H parsed run.
  pose proof (tryRun_executes_deferred_script H 1%nat "a.js"
                (Demo.start (set_parsing false parsed)) 1%nat 0%nat 0%nat
                ltac:(by vm_compute) ltac:(by vm_compute) ltac:(by vm_compute)
                ltac:(by vm_compute) ltac:(by vm_compute) ltac:(by vm_compute)
                ltac:(by vm_compute)) as Hrun.
  fold run in Hrun. rewrite Hrun. clear Hrun. vm_compute. by repeat split.
Defined.

(** ** Calls that a run does not make *)

Section Quiet.
Context (H : Host) (p : Event → bool) (n : nat).
Hypothesis quiet_host : ∀ m s f, p (EvHostCompile m s f) = false.
Hypothesis quiet_generator : ∀ m s f, p (EvGeneratorCompile m s f) = false.
Hypothesis quiet_next : ∀ k, p (EvNext k) = false.
Let I : St → Prop := λ st, count_calls p (calls st) = n.

Ltac quiet_call :=
  intros ? Hi; cbn [calls]; rewrite count_calls_snoc;
  match goal with
  | Hq : _ |- _ => rewrite Hq; lia
  end.

Ltac quiet_step :=
  match goal with
  | |- inv _ (_ ≫= _) => apply inv_bind; [|intros]
  | |- inv _ (try_catch _ _) => apply inv_try_catch; [|intros]
  | |- inv _ (try_finally _ _) => apply inv_try_finally
  | |- inv _ (modify _) => apply inv_modify; intros ? Hi; exact Hi
  | |- inv _ (alloc _) => apply inv_alloc; intros ? Hi; exact Hi
  | |- inv _ (call _ _) => apply inv_call; quiet_call
  | |- inv _ (call_total _ _) => apply inv_call_total; quiet_call
  | |- inv _ (match ?x with _ => _ end) => destruct x
  | |- inv _ _ => solve [eauto with inv]
  end.

Lemma quiet_runResult_dot_next rr : inv I (runResult_dot_next H rr).
Proof. unfold runResult_dot_next, I. repeat quiet_step. Qed.

Lemma quiet_tryRun_runtime e isESM cd :
  (∀ e', p (EvRuntimeEnable e') = false) →
  inv I (tryRun_runtime H e isESM cd).
Proof. intros Hen. unfold tryRun_runtime, I. repeat quiet_step. Qed.

Lemma quiet_tryRun_firstPass e f isESM m cd async cjsVars r :
  inv I (tryRun_firstPass H e f isESM m cd async cjsVars r).
Proof. unfold tryRun_firstPass, useSourceMap, I. repeat quiet_step. Qed.

Lemma quiet_tryRun_resume e parsing fp rr err : inv I (tryRun_resume H e parsing fp rr err).
Proof.
  unfold tryRun_resume. repeat quiet_step; try apply quiet_runResult_dot_next.
Qed.

Lemma quiet_tryRun_read e rr err res : inv I (tryRun_read H e rr err res).
Proof.
  unfold tryRun_read. repeat quiet_step; try apply quiet_runResult_dot_next.
Qed.

Lemma quiet_tryRun_fail e f isESM err : inv I (tryRun_fail H e f isESM err).
Proof. unfold tryRun_fail, I. repeat quiet_step. Qed.

Lemma quiet_tryRun_succeed e m parsing isESM fp res :
  isESM = true ∨ parsing = true
  ∨ ((∀ e', p (EvLoaded e') = false) ∧ (∀ e', p (EvUpdateBindings e') = false)) →
  inv I (tryRun_succeed H e m parsing isESM fp res).
Proof.
  intros [-> | [-> | [Hl Hu]]]; unfold tryRun_succeed, I; cbn [negb andb].
  - repeat quiet_step.
  - destruct isESM; repeat quiet_step.
  - unfold assign_loaded, loaded_setter, setProperty_loaded. repeat quiet_step.
Qed.

(** What follows [tryRun_runtime] in [tryRun]. *)
Lemma quiet_tryRun_rest e f (w : World) isESM async cjsVars runtime :
  isESM = true ∨ parsing w = true
  ∨ ((∀ e', p (EvLoaded e') = false) ∧ (∀ e', p (EvUpdateBindings e') = false)) →
  inv I
    (modify (upd_entry e
               (Entry.set_state (if parsing w then STATE_PARSING_STARTED
                                 else STATE_EXECUTION_STARTED)));;
     w1 ← get_world;
     let firstPass :=
       match Obj._runResult (obj_of w1 runtime) with
       | None => true
       | Some _ => false
       end in
     '(error, result) ←
       (if firstPass
        then tryRun_firstPass H e f isESM (Entry.module (entry_of w e))
               (Entry.compileData (entry_of w e)) async cjsVars runtime
        else mret (None, VUndefined));
     w2 ← get_world;
     let _runResult := Obj._runResult (obj_of w2 runtime) in
     error ← tryRun_resume H e (parsing w) firstPass _runResult error;
     c ← deref "compileData.firstAwaitOutsideFunction" (Entry.compileData (entry_of w e));
     w3 ← get_world;
     let error := tryRun_validate H e async isESM c error w3 in
     '(error, result) ← tryRun_read H e _runResult error result;
     match error with
     | None => tryRun_succeed H e (Entry.module (entry_of w e)) (parsing w) isESM
                 firstPass result
     | Some error => tryRun_fail H e f isESM error
     end).
Proof.
  intros Hc. cbv zeta. repeat quiet_step;
    eauto using quiet_tryRun_firstPass, quiet_tryRun_resume, quiet_tryRun_read,
      quiet_tryRun_fail, quiet_tryRun_succeed.
Qed.
End Quiet.

(** X12. [tryRun] does not call the hooks [entry.loaded()] and
    [entry.updateBindings()] when the entry is of type [TYPE_ESM], nor
    during a parse: whatever the collaborators do and however the run ends,
    the log holds as many hook calls after the run as before. (For a
    [TYPE_ESM] entry the hooks are left to the [loaded] accessor.) *)
Theorem tryRun_leaves_hooks_alone (H : Host) (entry : eref) (filename : string)
    (st : St) :
  Entry.type (entry_of (world st) entry) = TYPE_ESM ∨ parsing (world st) = true →
  count_calls is_hook (calls (tryRun H entry filename st).2)
  = count_calls is_hook (calls st).
Proof.
  intros Hc. unfold tryRun. rewrite run_bind. cbn [get_world world]. cbv zeta.
  apply (inv_bind (λ s, count_calls is_hook (calls s) = count_calls is_hook (calls st)));
    [|intros runtime|done].
  - by apply quiet_tryRun_runtime.
  - apply quiet_tryRun_rest; try done.
    destruct Hc as [Hc|Hc]; [left; by apply bool_decide_eq_true|by right; left].
Qed.

Lemma tryRun_leaves_hooks_alone_witness :
  let H := Demo.host None in
  let w := Demo.heap (Demo.entry TYPE_ESM STATE_INITIAL (Some 1%nat) [])
                     (Demo.compileData 0 0 None) false in
  let run := tryRun H 1%nat "a.js" (Demo.start w) in
  fst run = Ret (VNum 42)
  ∧ count_calls is_hook (calls (snd run)) = 0%nat.
Proof.
  intros H w run. split; [by vm_compute|].
  unfold run. rewrite (tryRun_leaves_hooks_alone H 1%nat "a.js" (Demo.start w)); [done|].
  by left.
Defined.

Lemma tryRun_runtime_enables (H : Host) (entry : eref) (isESM : bool)
    (compileData : option cdref) (st : St) :
  let w := world st in
  let bridged :=
    match Entry.runtime (entry_of w entry) with
    | Some _ => false
    | None =>
        isESM || match compileData with
                 | Some c => negb (Z.eqb (CompileData.transforms (cd_of w c)) 0)
                 | None => false
                 end
    end in
  count_calls is_enable (calls (tryRun_runtime H entry isESM compileData st).2)
  = (count_calls is_enable (calls st) + if bridged then 1 else 0)%nat.
Proof.
  intros w bridged. subst bridged w. unfold tryRun_runtime. mrun.
  destruct (Entry.runtime (entry_of (world st) entry)); mrun; [lia|].
  destruct isESM; mrun.
  - destruct (GenericObject_create (world st)) as [o w0]. mrun.
    destruct (Runtime_enable H entry o w0). cbn [snd calls].
    rewrite count_calls_snoc. done.
  - destruct compileData as [c|]; mrun; [|cbn [orb]; lia].
    destruct (negb _); cbn [orb];
      destruct (GenericObject_create (world st)) as [o w0]; mrun; [|lia].
    destruct (Runtime_enable H entry o w0). cbn [snd calls].
    rewrite count_calls_snoc. done.
Qed.

(** X13. In a run, [Runtime.enable] is called once when the entry has no
    runtime yet and is of type [TYPE_ESM] or has compile data with
    transforms, and is not called otherwise: an entry that has a runtime
    keeps it, and a script without transforms gets a plain object. *)
Theorem tryRun_enables_runtime_once (H : Host) (entry : eref) (filename : string)
    (st : St) :
  let w := world st in
  let bridged :=
    match Entry.runtime (entry_of w entry) with
    | Some _ => false
    | None =>
        bool_decide (Entry.type (entry_of w entry) = TYPE_ESM)
        || match Entry.compileData (entry_of w entry) with
           | Some c => negb (Z.eqb (CompileData.transforms (cd_of w c)) 0)
           | None => false
           end
    end in
  count_calls is_enable (calls (tryRun H entry filename st).2)
  = (count_calls is_enable (calls st) + if bridged then 1 else 0)%nat.
Proof.
  intros w bridged.
  pose proof (tryRun_runtime_enables H entry
                (bool_decide (Entry.type (entry_of w entry) = TYPE_ESM))
                (Entry.compileData (entry_of w entry)) st) as Hfirst.
  cbv zeta in Hfirst. fold w bridged in Hfirst.
  unfold tryRun. rewrite run_bind. cbn [get_world world]. cbv zeta. fold w.
  rewrite run_bind.
  destruct (tryRun_runtime H entry _ _ st) as [[runtime|e] st1]; cbn [snd] in Hfirst;
    [|done].
  by apply (quiet_tryRun_rest H is_enable); auto.
Qed.

(** ** A compile request made during a parse *)

Lemma tryRun_keeps_flag (H : Host) (b : bool) (entry : eref) (filename : string) (st : St) :
  HostKeeps H (λ w, parsing w = b) →
  parsing (world st) = b →
  parsing (world (tryRun H entry filename st).2) = b.
Proof.
  intros HK Hst.
  assert (HW : WritesKeep (λ w, parsing w = b)) by (constructor; intros; done).
  assert (HS : Stable H (λ st, parsing (world st) = b
                               ∧ count_calls (λ _, false) (calls st) = 0%nat)).
  { apply (stable_keeps H (λ w, parsing w = b) (λ _, false) 0); [done|done|by repeat split]. }
  assert (HC : StableHostCompile H (λ st, parsing (world st) = b
                                          ∧ count_calls (λ _, false) (calls st) = 0%nat)).
  { by apply (stable_host_compile_keeps H (λ w, parsing w = b)). }
  apply (inv_tryRun H _ HS entry filename HC st). split; [done|].
  unfold count_calls. by induction (calls st).
Qed.

Lemma tryRun_returns_completed (H : Host) (entry : eref) (filename : string)
    (st : St) (v : Value) (st' : St) :
  hooks_keep_state H entry →
  tryRun H entry filename st = (Ret v, st') →
  Entry.state (entry_of (world st') entry) = completed (parsing (world st)).
Proof.
  intros Hhooks Hrun.
  destruct (tryRun_returns_via_succeed H entry filename st v st' Hrun)
    as (firstPass & result & st5 & Hsucceed).
  pose proof (tryRun_succeed_state H entry (Entry.module (entry_of (world st) entry))
                (parsing (world st))
                (bool_decide (Entry.type (entry_of (world st) entry) = TYPE_ESM))
                firstPass result st5 Hhooks) as [Hstate _].
  by rewrite Hsucceed in Hstate.
Qed.

Lemma compile_finish_state (H : Host) (entry : eref) (isSideloaded : bool)
    (result : Value) (st : St) :
  hooks_keep_state H entry →
  finalize_keeps_state H entry →
  HostKeeps H (λ w, parsing w = true) →
  let out := compile_finish H entry isSideloaded result st in
  Entry.state (entry_of (world out.2) entry) = Entry.state (entry_of (world st) entry)
  ∧ (parsing (world st) = true → parsing (world out.2) = true).
Proof.
  intros [_ Hu] Hf HK. unfold compile_finish. mrun.
  pose proof (Hu entry (world st)) as Hu1.
  pose proof (keeps_updateBindings _ _ HK entry (world st)) as Hp1.
  destruct (entry_updateBindings H entry (world st)) as [[[]|e] w1]; cbn [snd] in *; mrun;
    [|done].
  destruct (negb _); mrun.
  - pose proof (Hf entry w1) as Hf1.
    pose proof (keeps_finalizeNamespace _ _ HK entry w1) as Hp2.
    destruct (entry_finalizeNamespace H entry w1) as [[[]|e] w2]; cbn [snd] in *; mrun.
    + destruct isSideloaded; cbn; (split; [congruence|auto]).
    + split; [congruence|auto].
  - destruct isSideloaded; cbn; by split.
Qed.

Lemma compile_swap_flag (entry : eref) (mod_ : mref) (c : cdref) (st : St) :
  ∃ st', compile_swap entry mod_ c st = (Ret tt, st')
         ∧ parsing (world st') = parsing (world st).
Proof.
  unfold compile_swap, GenericObject_create. mrun. cbv zeta. mrun.
  destruct (CompileData.codeWithTDZ _); mrun; by eexists.
Qed.

Lemma compile_esm_parsed (H : Host) (entry : eref) (filename : string) (mod_ : mref)
    (compileData : option cdref) (isSideloaded : bool) (st : St)
    (returned : option Value) (st' : St) :
  HostKeeps H (λ w, parsing w = true) →
  hooks_keep_state H entry →
  finalize_keeps_state H entry →
  parsing (world st) = true →
  compile_esm H entry filename mod_ compileData isSideloaded st = (Ret returned, st') →
  Entry.state (entry_of (world st') entry) = STATE_PARSING_COMPLETED
  ∧ parsing (world st') = true.
Proof.
  intros HK Hhooks Hfin Hp Hrun. unfold compile_esm in Hrun.
  apply bind_ret_inv in Hrun as (result & sA & HrunA & Hrun).
  pose proof (tryRun_returns_completed H entry filename st result sA Hhooks HrunA) as HsA.
  pose proof (tryRun_keeps_flag H true entry filename st HK Hp) as HpA.
  rewrite HrunA in HpA. cbn [snd] in HpA. rewrite Hp in HsA. cbn [completed] in HsA.
  apply bind_ret_inv in Hrun as (c & sA' & Hderef & Hrun).
  assert (sA' = sA) as ->.
  { destruct compileData; unfold deref, throw in Hderef; [|done]. by injection Hderef. }
  apply bind_ret_inv in Hrun as ([] & sB & Hcirc & Hrun).
  destruct (compile_circular_run entry c sA) as (HcircA & _).
  rewrite HcircA in Hcirc.
  assert (HsB : Entry.state (entry_of (world sB) entry) = STATE_PARSING_COMPLETED
                ∧ parsing (world sB) = true).
  { injection Hcirc as <-. cbn [world].
    destruct (negb (Z.eqb (CompileData.circular (cd_of (world sA) c)) (-1)));
      [done|]. by heap. }
  clear Hcirc HcircA. destruct HsB as [HsB HpB].
  apply bind_ret_inv in Hrun as (w & sB' & Hget & Hrun).
  injection Hget as <- <-.
  apply bind_ret_inv in Hrun as (result2 & sD & Hmid & Hrun).
  assert (HsD : Entry.state (entry_of (world sD) entry) = STATE_PARSING_COMPLETED
                ∧ parsing (world sD) = true).
  { destruct (Z.eqb (CompileData.circular (cd_of (world sB) c)) 1).
    - apply bind_ret_inv in Hmid as ([] & sC & Hswap & Hrun2).
      destruct (compile_swap_flag entry mod_ c sB) as (sC' & Hswap' & HpC).
      rewrite Hswap' in Hswap. injection Hswap as ->. rewrite HpB in HpC.
      pose proof (tryRun_returns_completed H entry filename sC result2 sD Hhooks Hrun2)
        as HsD.
      pose proof (tryRun_keeps_flag H true entry filename sC HK HpC) as HpD.
      rewrite Hrun2 in HpD. rewrite HpC in HsD. done.
    - by injection Hmid as <- <-. }
  destruct HsD as [HsD HpD].
  pose proof (compile_finish_state H entry isSideloaded result2 sD Hhooks Hfin HK)
    as [Hs Hpar].
  rewrite Hrun in Hs, Hpar. cbn [snd] in Hs, Hpar. split; [congruence|auto].
Qed.

(** X14. A call of [compile] made during a parse (parsing flag set, no
    fallback) only parses: when it returns, the entry is at
    [STATE_PARSING_COMPLETED], whatever its type, and the flag is still set.
    (The collaborators are taken to leave the flag set, and the hooks of the
    entry to leave its state alone.) *)
Theorem compile_during_parse_only_parses (H : Host) (entry : eref) (caller : nat)
    (content filename : string) (st : St) (v : Value) (st' : St) :
  HostKeeps H (λ w, parsing w = true) →
  hooks_keep_state H entry →
  finalize_keeps_state H entry →
  parsing (world st) = true →
  compile H caller entry content filename None st = (Ret v, st') →
  Entry.state (entry_of (world st') entry) = STATE_PARSING_COMPLETED
  ∧ parsing (world st') = true.
Proof.
  intros HK Hhooks Hfin Hp Hrun. unfold compile in Hrun.
  rewrite run_bind in Hrun. cbn [get_world world] in Hrun. cbv zeta in Hrun.
  destruct (compile_sourceType _ _) as [hint sourceType].
  apply bind_ret_inv in Hrun as (compileData & st1 & Hdata & Hrun).
  pose proof (compile_data_keeps_flag H true caller entry content filename
                (Entry.package (entry_of (world st) entry))
                (Package.options (pkg_of (world st) (Entry.package (entry_of (world st) entry))))
                (bool_decide (Entry.package (entry_of (world st) entry) = defaultPkg (world st)))
                hint sourceType st HK Hp) as Hp1.
  rewrite Hdata in Hp1. cbn [snd] in Hp1.
  assert (Hlast : ∀ st2 v2 st3, parsing (world st2) = true →
            tryRun H entry filename st2 = (Ret v2, st3) →
            Entry.state (entry_of (world st3) entry) = STATE_PARSING_COMPLETED
            ∧ parsing (world st3) = true).
  { intros st2 v2 st3 Hp2 Hrun2.
    pose proof (tryRun_returns_completed H entry filename st2 v2 st3 Hhooks Hrun2) as Hs.
    pose proof (tryRun_keeps_flag H true entry filename st2 HK Hp2) as Hp3.
    rewrite Hrun2 in Hp3. by rewrite Hp2 in Hs. }
  unfold compile_run in Hrun. rewrite run_bind in Hrun. cbn [get_world world] in Hrun.
  rewrite run_bind, compile_gate_passes, Hp1 in Hrun by by left.
  destruct (bool_decide (Entry.type (entry_of (world st1) entry) = TYPE_ESM)).
  - rewrite run_bind in Hrun. unfold try_finally in Hrun.
    destruct (compile_esm H entry filename _ compileData false st1)
      as [[returned|e] st2] eqn:Hesm; [|done].
    destruct (compile_esm_parsed H entry filename _ compileData false st1 returned st2
                HK Hhooks Hfin Hp1 Hesm) as [Hs2 Hp2].
    destruct returned as [result|].
    + by injection Hrun as <- <-.
    + by apply (Hlast (mkSt (world st2) (calls st2)) v st').
  - rewrite run_bind in Hrun. cbn [mret M_ret] in Hrun. by apply (Hlast st1 v st').
Qed.

Lemma Demo_keeps_parsing (failure : option Err.t) :
  HostKeeps (Demo.host failure) (λ w, parsing w = true).
Proof.
  constructor; intros;
    cbn [Demo.host Demo.host_with_stack CachingCompiler_from CachingCompiler_compile Runtime_enable
         mod_compile runResult_next entry_updateBindings entry_loaded
         entry_finalizeNamespace Entry_get fst snd] in *; try done.
  destruct failure; [done|].
  destruct (Entry.type (entry_of w m)); try done.
  destruct (Entry.runtime (entry_of w m)); done.
Qed.

Lemma compile_during_parse_only_parses_witness :
  let H := Demo.host None in
  let w := Demo.heap (Demo.entry TYPE_ESM STATE_PARSING_STARTED (Some 1%nat) [])
                     (Demo.compileData 0 0 None) true in
  let run := compile H 0%nat 1%nat "import './a.js'" "a.js" None (Demo.start w) in
  fst run = Ret (VNum 42)
  ∧ Entry.state (entry_of (world (snd run)) 1%nat) = STATE_PARSING_COMPLETED
  ∧ parsing (world (snd run)) = true.
Proof.
  intros H w run. split; [by vm_compute|].
  apply (compile_during_parse_only_parses H 1%nat 0%nat "import './a.js'" "a.js"
           (Demo.start w) (VNum 42)).
  - apply Demo_keeps_parsing.
  - by split.
  - done.
  - done.
  - by vm_compute.
Defined.

(** ** An entry without compile data *)

(** X15. An entry whose [compileData] is [null] cannot be run, and the
    error does not go through the error path of [tryRun]: a script entry
    without runtime makes [tryRun] throw a TypeError (line 279) before
    anything is written or called; an entry whose runtime holds a run
    result makes it throw a TypeError (line 346) that is not masked, with
    the entry left at the started state, not at
    [STATE_EXECUTION_COMPLETED]. *)
Theorem tryRun_without_compileData (H : Host) (entry : eref) (filename : string)
    (st : St) :
  let w := world st in
  Entry.compileData (entry_of w entry) = None →
  (Entry.type (entry_of w entry) ≠ TYPE_ESM →
   Entry.runtime (entry_of w entry) = None →
   ∃ what, tryRun H entry filename st = (Throw (TypeError what), st))
  ∧ (∀ (r : oref) (rr : RunResult),
       Entry.runtime (entry_of w entry) = Some r →
       Obj._runResult (obj_of w r) = Some rr →
       ∃ what,
         tryRun H entry filename st
         = (Throw (TypeError what),
            mkSt (upd_entry entry
                    (Entry.set_state (if parsing w then STATE_PARSING_STARTED
                                      else STATE_EXECUTION_STARTED)) w)
                 (calls st))).
Proof.
  intros w Hcd. subst w. split.
  - intros Ht Hrt. unfold tryRun. rewrite run_bind. cbn [get_world world]. cbv zeta.
    rewrite Hcd, (bool_decide_false _ Ht). unfold tryRun_runtime. mrun. rewrite Hrt. mrun.
    by eexists.
  - intros r rr Hrt Hrr. unfold tryRun. rewrite run_bind. cbn [get_world world]. cbv zeta.
    rewrite run_bind, (tryRun_runtime_stored _ _ _ _ _ r Hrt).
    rewrite Hcd. mrun. heap. rewrite Hrr. mrun.
    rewrite tryRun_resume_skip by apply andb_false_r. mrun. by eexists.
Qed.

Lemma tryRun_without_compileData_witness :
  let H := Demo.host None in
  let bare := Demo.heap (Demo.entry TYPE_CJS STATE_INITIAL None [])
                        (Demo.compileData 0 0 None) false in
  let later := Demo.after_a_pass
                 (Demo.heap (Demo.entry TYPE_ESM STATE_PARSING_COMPLETED None [])
                            (Demo.compileData 0 0 None) false) in
  (∃ what, tryRun H 1%nat "a.js" (Demo.start bare) = (Throw (TypeError what), Demo.start bare))
  ∧ ∃ what st', tryRun H 1%nat "a.js" (Demo.start later) = (Throw (TypeError what), st')
                ∧ Entry.state (entry_of (world st') 1%nat) = STATE_EXECUTION_STARTED.
Proof.
  intros H bare later. split.
  - destruct (tryRun_without_compileData H 1%nat "a.js" (Demo.start bare) eq_refl)
      as [Hfirst _].
    apply Hfirst; by vm_compute.
  - destruct (tryRun_without_compileData H 1%nat "a.js" (Demo.start later) eq_refl)
      as [_ Hlater].
    destruct (Hlater 0%nat (RunHost 1) ltac:(by vm_compute) ltac:(by vm_compute))
      as [what Hrun].
    exists what. eexists. split; [exact Hrun|]. by vm_compute.
Defined.

(** * The globals visitor *)


Lemma ToInt32_small (z : Z) : 0 ≤ z < 2 ^ 31 → Globals.ToInt32 z = z.
Proof.
  intros Hz. unfold Globals.ToInt32. rewrite Z.mod_small; lia.
Qed.

Lemma lor_lt_pow2 (a b n : Z) :
  0 ≤ a < 2 ^ n → 0 ≤ b < 2 ^ n → 0 ≤ Z.lor a b < 2 ^ n.
Proof.
  intros Ha Hb. split; [apply Z.lor_nonneg; lia|].
  destruct (decide (a = 0)) as [->|Ha0]; [by rewrite Z.lor_0_l; lia|].
  destruct (decide (b = 0)) as [->|Hb0]; [by rewrite Z.lor_0_r; lia|].
  assert (Hpos : (0 < Z.lor a b)%Z).
  { assert (0 ≤ Z.lor a b)%Z by (apply Z.lor_nonneg; lia).
    assert (Z.lor a b ≠ 0) by (rewrite Z.lor_eq_0_iff; lia). lia. }
  apply Z.log2_lt_pow2; [done|]. rewrite Z.log2_lor by lia.
  apply Z.max_lub_lt; apply Z.log2_lt_pow2; lia.
Qed.

Section Flags.
Context {ShadowedMap : Type} (B : @Globals.Base ShadowedMap).
Let C := Globals.TRANSFORMS_CONSOLE B.
Let R := Globals.TRANSFORMS_REFLECT B.
Hypothesis C_range : 0 ≤ C < 2 ^ 31.
Hypothesis R_range : 0 ≤ R < 2 ^ 31.

Lemma bitor_flag (t : Z) :
  t = 0 ∨ t = C ∨ t = R ∨ t = Z.lor C R →
  (Globals.bitor t C = C ∨ Globals.bitor t C = Z.lor C R)
  ∧ (Globals.bitor t R = R ∨ Globals.bitor t R = Z.lor C R).
Proof.
  pose proof (lor_lt_pow2 C R 31 C_range R_range) as HCR.
  intros Ht. unfold Globals.bitor.
  rewrite (ToInt32_small C), (ToInt32_small R) by done.
  destruct Ht as [-> | [-> | [-> | ->]]]; rewrite ToInt32_small by (done || lia).
  - rewrite !Z.lor_0_l. by split; left.
  - rewrite Z.lor_diag. by split; [left|right].
  - rewrite Z.lor_diag, (Z.lor_comm R C). by split; [right|left].
  - assert (Z.lor (Z.lor C R) C = Z.lor C R) as ->.
    { by rewrite <- Z.lor_assoc, (Z.lor_comm R C), Z.lor_assoc, Z.lor_diag. }
    assert (Z.lor (Z.lor C R) R = Z.lor C R) as ->.
    { by rewrite <- Z.lor_assoc, Z.lor_diag. }
    by split; right.
Qed.

Lemma prepend_flags (path : Globals.Path) (object : Globals.Node) (s : Globals.Visiting) :
  Globals.traversal_keeps B (Globals.flags_known B) →
  Globals.flags_known B s →
  Globals.flags_known B (Globals.prepend B path object s).2.
Proof.
  intros [_ Hargs] Hs. unfold Globals.prepend.
  destruct (Globals.magicString (Globals.this s)); [|done]. by apply Hargs.
Qed.

Lemma visitCallExpression_flags (path : Globals.Path) (s : Globals.Visiting) :
  Globals.traversal_keeps B (Globals.flags_known B) →
  Globals.flags_known B s →
  Globals.flags_known B (Globals.visitCallExpression B path s).2.
Proof.
  intros HT Hs. pose proof HT as [Hkids _]. unfold Globals.visitCallExpression.
  destruct (Globals.callee _) as [callee|]; [|done].
  destruct (negb _); [by apply Hkids|].
  destruct (Globals.object callee) as [object|]; [|done].
  destruct (Globals.globals _) as [globals|]; [|done].
  destruct (Globals.name object) as [name|]; [|by apply Hkids].
  destruct (negb _); [by apply Hkids|].
  destruct (Nat.eqb _ _); [done|].
  destruct (negb _); [done|].
  destruct (Globals.isShadowed B path name _) as [[] map]; [done|].
  destruct (bitor_flag _ Hs) as [HC HR].
  destruct (String.eqb name "console").
  { destruct (forallb _ _); [done|]. apply prepend_flags; [done|].
    unfold Globals.flags_known. cbn. fold C R. tauto. }
  destruct (String.eqb name "Reflect").
  { apply prepend_flags; [done|]. unfold Globals.flags_known. cbn. fold C R. tauto. }
  by apply prepend_flags.
Qed.
End Flags.

(** X16. The [transforms] of the visitor only ever tell of console rewrites,
    of Reflect rewrites, of both or of none: [reset] sets them to zero, and
    [visitCallExpression] takes one of these four values to one of them,
    provided the traversal of the base class does. (The two constants are
    taken to be non-negative 32-bit integers.) *)
Theorem visitCallExpression_keeps_flags {ShadowedMap : Type}
    (B : @Globals.Base ShadowedMap) :
  0 ≤ Globals.TRANSFORMS_CONSOLE B < 2 ^ 31 →
  0 ≤ Globals.TRANSFORMS_REFLECT B < 2 ^ 31 →
  (∀ options this map,
      Globals.flags_known B (Globals.mkVisiting (Globals.reset options this) map))
  ∧ (Globals.traversal_keeps B (Globals.flags_known B) →
     ∀ path s,
       Globals.flags_known B s →
       Globals.flags_known B (Globals.visitCallExpression B path s).2).
Proof.
  intros HC HR. split.
  - intros [options|] this map; by left.
  - intros HT path s Hs. by apply visitCallExpression_flags.
Qed.

Lemma visitCallExpression_keeps_flags_witness :
  let s := Globals.mkVisiting
             (Globals.reset (Some Demo_reset_options)
                            (Globals.mkVisitor None None None Globals.NameNull 7)) tt in
  let run := Globals.visitCallExpression Demo_base
               (Demo_call "console" 12 [Demo_identifier "x" 24]) s in
  Globals.flags_known Demo_base run.2
  ∧ Globals.transforms (Globals.this run.2) = 1.
Proof.
  intros s run. split; [|done].
  destruct (visitCallExpression_keeps_flags Demo_base ltac:(by vm_compute)
              ltac:(by vm_compute)) as [Hreset Hvisit].
  apply Hvisit; [by split|apply Hreset].
Defined.

(** X17. A visitor reset without options cannot visit: on a call whose
    callee is a member expression, [visitCallExpression] throws a TypeError
    ([this.globals] is [null]) and leaves the visitor as it was, whatever
    the call. *)
Theorem visitCallExpression_after_bare_reset {ShadowedMap : Type}
    (B : @Globals.Base ShadowedMap) (path : Globals.Path)
    (callee object : Globals.Node) (this : Globals.GlobalsVisitor) (map : ShadowedMap) :
  Globals.callee (Globals.getValue path) = Some callee →
  Globals.type callee = "MemberExpression" →
  Globals.object callee = Some object →
  let s := Globals.mkVisiting (Globals.reset None this) map in
  ∃ what, Globals.visitCallExpression B path s = (Throw (TypeError what), s).
Proof.
  intros Hcallee Htype Hobject s. unfold Globals.visitCallExpression.
  rewrite Hcallee, Htype, Hobject. cbn. by eexists.
Qed.

Lemma visitCallExpression_after_bare_reset_witness :
  let s := Globals.mkVisiting
             (Globals.reset None (Globals.reset (Some Demo_reset_options)
                                    (Globals.mkVisitor None None None Globals.NameNull 0))) tt in
  ∃ what,
    Globals.visitCallExpression Demo_base (Demo_call "console" 12 [Demo_identifier "x" 24]) s
    = (Throw (TypeError what), s).
Proof.
  intros s.
  by apply (visitCallExpression_after_bare_reset Demo_base
              (Demo_call "console" 12 [Demo_identifier "x" 24])
              (Globals.mkNode "MemberExpression" None 12 None
                 (Some (Demo_identifier "console" 12)) [])
              (Demo_identifier "console" 12)).
Defined.

(** X18. On a call in which the traversal finds nothing more to visit,
    [visitCallExpression] either leaves the magic string as it is or adds
    one edit at its end: the text [runtimeName + ".g."], placed at the start
    of the object of the callee, an object whose name is one of the
    [globals], in a call that has arguments. It never drops or changes an
    earlier edit. *)
Theorem visitCallExpression_edits {ShadowedMap : Type}
    (B : @Globals.Base ShadowedMap) (path : Globals.Path)
    (s : @Globals.Visiting ShadowedMap) :
  (∀ s0, Globals.visitChildren B path s0 = (Ret tt, s0)) →
  (∀ key s0, Globals.visitWithoutReset B path key s0 = (Ret tt, s0)) →
  let s' := (Globals.visitCallExpression B path s).2 in
  Globals.magicString (Globals.this s') = Globals.magicString (Globals.this s)
  ∨ ∃ callee object name globals,
      Globals.callee (Globals.getValue path) = Some callee
      ∧ Globals.object callee = Some object
      ∧ Globals.name object = Some name
      ∧ Globals.globals (Globals.this s) = Some globals
      ∧ name ∈ globals
      ∧ Globals.arguments (Globals.getValue path) ≠ []
      ∧ edits_of s'
        = (edits_of s
           ++ [(Globals.start object,
                (Globals.toString (Globals.runtimeName (Globals.this s)) ++ ".g.")%string)])%list.
Proof.
  intros Hkids Hargs s'. subst s'. unfold Globals.visitCallExpression.
  destruct (Globals.callee _) as [callee|] eqn:Hcallee; [|by left].
  destruct (negb _); [rewrite Hkids; by left|].
  destruct (Globals.object callee) as [object|] eqn:Hobject; [|by left].
  destruct (Globals.globals _) as [globals|] eqn:Hglobals; [|by left].
  destruct (Globals.name object) as [name|] eqn:Hname; [|rewrite Hkids; by left].
  case_bool_decide as Hin; cbn [negb]; [|rewrite Hkids; by left].
  destruct (Globals.arguments (Globals.getValue path)) as [|arg args] eqn:Hlist;
    [by left|]. cbn [List.length Nat.eqb].
  destruct (negb _); [by left|].
  destruct (Globals.isShadowed B path name _) as [[] map]; [by left|].
  assert (Hprepend : ∀ v,
    Globals.magicString v = Globals.magicString (Globals.this s) →
    Globals.runtimeName v = Globals.runtimeName (Globals.this s) →
    Globals.magicString
      (Globals.this (Globals.prepend B path object (Globals.mkVisiting v map)).2)
    = Globals.magicString (Globals.this s)
    ∨ edits_of (Globals.prepend B path object (Globals.mkVisiting v map)).2
      = (edits_of s
         ++ [(Globals.start object,
              (Globals.toString (Globals.runtimeName (Globals.this s)) ++ ".g.")%string)])%list).
  { intros v Hms Hrn. unfold Globals.prepend, edits_of. cbn. rewrite Hms, Hrn.
    destruct (Globals.magicString (Globals.this s)) as [edits|]; [|by left].
    rewrite Hargs. by right. }
  destruct (String.eqb name "console");
    [destruct (forallb _ _); [by left|]|destruct (String.eqb name "Reflect")];
    match goal with
    | |- context [Globals.prepend B path object (Globals.mkVisiting ?v map)] =>
        destruct (Hprepend v eq_refl eq_refl) as [Heq|Heq]
    end; [left; exact Heq|right| left; exact Heq|right| left; exact Heq|right];
    (exists callee, object, name, globals; by repeat split).
Qed.

Lemma visitCallExpression_edits_witness :
  let s := Globals.mkVisiting
             (Globals.reset (Some Demo_reset_options)
                            (Globals.mkVisitor None None None Globals.NameNull 0)) tt in
  let spoken := Globals.visitCallExpression Demo_base
                  (Demo_call "console" 12 [Demo_identifier "x" 24]) s in
  edits_of spoken.2 = [(12, "_.g.")].
Proof.
  intros s spoken.
  destruct (visitCallExpression_edits Demo_base
              (Demo_call "console" 12 [Demo_identifier "x" 24]) s
              ltac:(done) ltac:(done))
    as [Hsame|(callee & object & name & globals & Hc & Ho & _ & _ & _ & _ & Hedits)].
  - by vm_compute in Hsame.
  - injection Hc as <-. injection Ho as <-. fold spoken in Hedits. by rewrite Hedits.
Defined.
